(** * RDCleanPath proxy (client/wasm_example/wasm/internal/rdp)

    A shallow embedding of the RDCleanPath proxy of the NetBird WASM
    client: the [RDCleanPathPDU] wire message and its DER codec, the
    proxy's session registry and destination table, and the handlers that
    negotiate a session (plain, TLS and direct RDP mode).

    Data is modelled as the Go code has it: byte slices are lists of
    [Byte.byte] (a nil slice is [None]), the two package maps are [gmap]s,
    a handler is a function from the proxy state, the session object and
    the behaviour of the remote side to the new state and the trace of
    effects it performed. *)

From Stdlib Require Import ZArith NArith Lia List Bool.
From Stdlib Require Import Strings.Byte Strings.String Strings.Ascii.
From stdpp Require Import base option list gmap strings pretty.

Local Open Scope N_scope.

(** ** Bytes *)

Abbreviation bytes := (list Byte.byte).

Definition byte_of_N (n : N) : Byte.byte :=
  match Byte.of_N (n mod 256) with
  | Some b => b
  | None => Byte.x00
  end.

(** Big-endian base-256 numbers of a fixed width. *)
Fixpoint be_enc (k : nat) (v : N) : bytes :=
  match k with
  | O => []
  | S k' => be_enc k' (v / 256) ++ [byte_of_N v]
  end.

Definition be_dec (bs : bytes) : N :=
  fold_left (fun acc b => acc * 256 + Byte.to_N b) bs 0.

(** * The PDU codec

    The proxy encodes and decodes [RDCleanPathPDU] with [asn1.Marshal]
    and [asn1.Unmarshal] of Go's standard library, which is not among the
    repository sources.  This part models the codec from the
    specification: the wire format of its section 6 (ASN.1 DER, an outer
    SEQUENCE of explicit context-tagged fields) and the contract of its
    section 4.1, read with the struct tags of [RDCleanPathPDU]. *)

(** ** DER definite lengths *)

(** Modelled from the spec: the number of bytes of the big-endian form of
    a length (section 6, DER). *)
Definition lengthLength (n : N) : nat := N.to_nat (N.log2 n / 8 + 1).

(** Modelled from the spec: a DER length (section 6); below 128 one
    byte, otherwise [0x80 | k] and the [k] big-endian bytes of the
    length. *)
Definition encode_length (n : N) : bytes :=
  if n <? 128 then [byte_of_N n]
  else
    let k := lengthLength n in
    byte_of_N (128 + N.of_nat k) :: be_enc k n.

Definition leading_zero (bs : bytes) : bool :=
  match bs with
  | b :: _ => Byte.to_N b =? 0
  | [] => true
  end.

(** Modelled from the spec: reading a DER length (section 6); the long
    form must have between 1 and 126 length bytes, all in the buffer,
    without a leading zero, and must not be used below 128. *)
Definition read_length (bs : bytes) : option (N * bytes) :=
  match bs with
  | [] => None
  | b :: rest =>
      let v := Byte.to_N b in
      if v <? 128 then Some (v, rest)
      else
        let k := N.to_nat (v - 128) in
        if ((k =? 0) || (126 <? k) || (length rest <? k))%nat then None
        else
          let lb := take k rest in
          let n := be_dec lb in
          if leading_zero lb || (n <? 128) then None
          else Some (n, drop k rest)
  end.

(** ** DER elements (identifier, length, contents) *)

(** Identifier bytes of the schema: universal SEQUENCE, INTEGER, OCTET
    STRING and UTF8String, and the constructed context tags [0]..[9]. *)
Definition id_sequence : Byte.byte := Byte.x30.
Definition id_integer : Byte.byte := Byte.x02.
Definition id_octet_string : Byte.byte := Byte.x04.
Definition id_utf8_string : Byte.byte := Byte.x0c.
Definition id_context (tag : N) : Byte.byte := byte_of_N (160 + tag).

(** An identifier whose low five bits are all set announces a multi-byte
    tag number; the schema has none. *)
Definition high_tag (id : Byte.byte) : bool :=
  N.land (Byte.to_N id) 31 =? 31.

(** Modelled from the spec: one DER element (section 6): identifier,
    length, contents; it fails when the contents are too long for a
    length of 126 bytes. *)
Definition encode_tlv (id : Byte.byte) (content : bytes) : option bytes :=
  let n := N.of_nat (length content) in
  if (lengthLength n <=? 126)%nat
  then Some (id :: encode_length n ++ content)
  else None.

(** Modelled from the spec: reading one DER element (sections 4.1 and
    6): identifier, contents and the bytes after it; it fails when the
    declared length exceeds what remains. *)
Definition read_tlv (bs : bytes) : option (Byte.byte * bytes * bytes) :=
  match bs with
  | [] => None
  | id :: bs1 =>
      if high_tag id then None
      else
        match read_length bs1 with
        | None => None
        | Some (n, bs2) =>
            if (length bs2 <? N.to_nat n)%nat then None
            else Some (id, take (N.to_nat n) bs2, drop (N.to_nat n) bs2)
        end
  end.

(** ** Decoding results *)

Inductive DecodeError := MalformedPDU.

Inductive result (A : Type) :=
  | Ok (a : A)
  | Err (e : DecodeError).
Arguments Ok {A} a.
Arguments Err {A} e.

#[global] Instance result_ret : MRet result := fun A a => Ok a.
#[global] Instance result_bind : MBind result := fun A B f r =>
  match r with
  | Ok a => f a
  | Err e => Err e
  end.

(** ** INTEGER *)

Local Open Scope Z_scope.

Definition is_int64 (i : Z) : Prop := - 2 ^ 63 <= i < 2 ^ 63.

(** Modelled from the spec: the number of bytes of the minimal two's
    complement form of an [int64] (section 6, INTEGER); one more byte
    for every shift by 8 bits that leaves the value outside
    [-128..127]. *)
Fixpoint int64Length_go (fuel : nat) (i : Z) : nat :=
  match fuel with
  | O => 1
  | S f =>
      if (127 <? i) || (i <? -128)
      then S (int64Length_go f (Z.shiftr i 8))
      else 1
  end.

Definition int64Length (i : Z) : nat := int64Length_go 7 i.

(** Modelled from the spec: the contents of a DER INTEGER (section 6),
    minimal two's complement, big-endian. *)
Definition encode_int64 (i : Z) : bytes :=
  let k := int64Length i in
  be_enc k (Z.to_N (i mod 2 ^ (8 * Z.of_nat k))).

Definition not_minimal (bs : bytes) : bool :=
  match bs with
  | b0 :: b1 :: _ =>
      ((Byte.to_N b0 =? 0)%N && (Byte.to_N b1 <? 128)%N)
      || ((Byte.to_N b0 =? 255)%N && (128 <=? Byte.to_N b1)%N)
  | _ => false
  end.

(** Modelled from the spec: reading the contents of a DER INTEGER into
    an [int64] (section 6): not empty, minimal, at most 8 bytes, sign
    extended. *)
Definition parse_int64 (bs : bytes) : result Z :=
  match bs with
  | [] => Err MalformedPDU
  | _ =>
      if not_minimal bs then Err MalformedPDU
      else if (8 <? length bs)%nat then Err MalformedPDU
      else
        let u := Z.of_N (be_dec bs) in
        let w := 8 * Z.of_nat (length bs) in
        Ok (if u <? 2 ^ (w - 1) then u else u - 2 ^ w)
  end.

Local Close Scope Z_scope.

(** ** UTF8String *)

Definition cont_byte (c : N) : bool := (128 <=? c) && (c <=? 191).

Definition second_of_3 (c0 c1 : N) : bool :=
  if c0 =? 224 then (160 <=? c1) && (c1 <=? 191)
  else if c0 =? 237 then (128 <=? c1) && (c1 <=? 159)
  else cont_byte c1.

Definition second_of_4 (c0 c1 : N) : bool :=
  if c0 =? 240 then (144 <=? c1) && (c1 <=? 191)
  else if c0 =? 244 then (128 <=? c1) && (c1 <=? 143)
  else cont_byte c1.

(** Modelled from the spec: the contents of a UTF8String (section 6)
    are well-formed UTF-8: no overlong form, no surrogate, nothing above
    U+10FFFF. *)
Fixpoint utf8_valid (bs : bytes) : bool :=
  match bs with
  | [] => true
  | b0 :: r0 =>
      let c0 := Byte.to_N b0 in
      if c0 <? 128 then utf8_valid r0
      else
        match r0 with
        | [] => false
        | b1 :: r1 =>
            let c1 := Byte.to_N b1 in
            if (194 <=? c0) && (c0 <=? 223) then cont_byte c1 && utf8_valid r1
            else
              match r1 with
              | [] => false
              | b2 :: r2 =>
                  let c2 := Byte.to_N b2 in
                  if (224 <=? c0) && (c0 <=? 239)
                  then second_of_3 c0 c1 && cont_byte c2 && utf8_valid r2
                  else
                    match r2 with
                    | [] => false
                    | b3 :: r3 =>
                        let c3 := Byte.to_N b3 in
                        (240 <=? c0) && (c0 <=? 244) && second_of_4 c0 c1
                        && cont_byte c2 && cont_byte c3 && utf8_valid r3
                    end
              end
        end
  end.

#[global] Instance byte_eq_dec : EqDecision Byte.byte := Byte.byte_eq_dec.

(** ** The RDCleanPath PDU (rdcleanpath.go, [type RDCleanPathPDU])

    [Version] is an [int64]; the [[]byte] and [[][]byte] fields are slices,
    [None] being the nil slice; the other fields are Go strings, whose
    zero value is the empty string. *)

Definition RDCleanPathVersion : Z := 3390.

Record RDCleanPathPDU := {
  Version : Z;
  Error : option bytes;
  Destination : string;
  ProxyAuth : string;
  ServerAuth : string;
  PreconnectionBlob : string;
  X224ConnectionPDU : option bytes;
  ServerCertChain : option (list bytes);
  ServerAddr : string
}.

(** ** Marshal *)

(** Modelled from the spec: an explicit context tag around one element
    (section 6). *)
Definition explicit (tag : N) (inner : option bytes) : option bytes :=
  c ← inner; encode_tlv (id_context tag) c.

(** Modelled from the spec: the fields of section 6 by type.  A field
    tagged [optional] in the struct is left out when it holds its zero
    value, the nil slice or the empty string; a [utf8] string that is
    not valid UTF-8 makes marshalling fail. *)
Definition marshal_int64 (tag : N) (i : Z) : option bytes :=
  explicit tag (encode_tlv id_integer (encode_int64 i)).

Definition marshal_octets (tag : N) (s : option bytes) : option bytes :=
  match s with
  | None => Some []
  | Some bs => explicit tag (encode_tlv id_octet_string bs)
  end.

Definition marshal_utf8 (tag : N) (s : string) : option bytes :=
  if decide (s = EmptyString) then Some []
  else
    let bs := list_byte_of_string s in
    if utf8_valid bs then explicit tag (encode_tlv id_utf8_string bs)
    else None.

Fixpoint marshal_octets_seq (items : list bytes) : option bytes :=
  match items with
  | [] => Some []
  | c :: cs =>
      e ← encode_tlv id_octet_string c;
      r ← marshal_octets_seq cs;
      Some (e ++ r)
  end.

Definition marshal_chain (tag : N) (s : option (list bytes)) : option bytes :=
  match s with
  | None => Some []
  | Some items =>
      explicit tag (body ← marshal_octets_seq items; encode_tlv id_sequence body)
  end.

(** Modelled from the spec: [asn1.Marshal] on an [RDCleanPathPDU], the
    outer SEQUENCE of the fields of section 6 in tag order. *)
Definition Marshal (pdu : RDCleanPathPDU) : option bytes :=
  f0 ← marshal_int64 0 (Version pdu);
  f1 ← marshal_octets 1 (Error pdu);
  f2 ← marshal_utf8 2 (Destination pdu);
  f3 ← marshal_utf8 3 (ProxyAuth pdu);
  f4 ← marshal_utf8 4 (ServerAuth pdu);
  f5 ← marshal_utf8 5 (PreconnectionBlob pdu);
  f6 ← marshal_octets 6 (X224ConnectionPDU pdu);
  f7 ← marshal_chain 7 (ServerCertChain pdu);
  f9 ← marshal_utf8 9 (ServerAddr pdu);
  encode_tlv id_sequence (f0 ++ f1 ++ f2 ++ f3 ++ f4 ++ f5 ++ f6 ++ f7 ++ f9).

(** ** Unmarshal *)

(** Modelled from the spec: the element an explicit tag wraps (section
    6): exactly one element, of the expected type. *)
Definition read_inner (id : Byte.byte) (wrapped : bytes) : result bytes :=
  match read_tlv wrapped with
  | Some (id', c, []) => if decide (id' = id) then Ok c else Err MalformedPDU
  | _ => Err MalformedPDU
  end.

(** Modelled from the spec: the next field of the sequence (sections 4.1
    and 6): present when the next element carries the field's tag,
    absent otherwise; an unreadable element is an error. *)
Definition take_field (tag : N) (bs : bytes) : result (option bytes * bytes) :=
  match bs with
  | [] => Ok (None, [])
  | _ =>
      match read_tlv bs with
      | None => Err MalformedPDU
      | Some (id, c, rest) =>
          if decide (id = id_context tag) then Ok (Some c, rest)
          else Ok (None, bs)
      end
  end.

Definition optional {A} (tag : N) (parse : bytes -> result A) (bs : bytes)
  : result (option A * bytes) :=
  '(w, rest) ← take_field tag bs;
  match w with
  | None => Ok (None, rest)
  | Some c => v ← parse c; Ok (Some v, rest)
  end.

(** Modelled from the spec: the contents of the fields of section 6 by
    type. *)
Definition parse_version (w : bytes) : result Z :=
  c ← read_inner id_integer w; parse_int64 c.

Definition parse_octets (w : bytes) : result bytes :=
  read_inner id_octet_string w.

Definition parse_utf8 (w : bytes) : result string :=
  c ← read_inner id_utf8_string w;
  if utf8_valid c then Ok (string_of_list_byte c) else Err MalformedPDU.

Fixpoint parse_octets_seq (fuel : nat) (bs : bytes) : result (list bytes) :=
  match bs with
  | [] => Ok []
  | _ =>
      match fuel with
      | O => Err MalformedPDU
      | S f =>
          match read_tlv bs with
          | Some (id, c, rest) =>
              if decide (id = id_octet_string)
              then cs ← parse_octets_seq f rest; Ok (c :: cs)
              else Err MalformedPDU
          | None => Err MalformedPDU
          end
      end
  end.

Definition parse_chain (w : bytes) : result (list bytes) :=
  c ← read_inner id_sequence w; parse_octets_seq (length c) c.

Definition optional_string (tag : N) (bs : bytes) : result (string * bytes) :=
  '(v, rest) ← optional tag parse_utf8 bs;
  Ok (default EmptyString v, rest).

(** Modelled from the spec: the fields of the table of section 6, in tag
    order; the version is mandatory (section 4.1), an absent string is
    the empty string, an absent slice is nil, and nothing may follow the
    last field inside the sequence. *)
Definition parse_fields (content : bytes) : result RDCleanPathPDU :=
  '(v, r0) ← optional 0 parse_version content;
  match v with
  | None => Err MalformedPDU
  | Some version =>
      '(e, r1) ← optional 1 parse_octets r0;
      '(d, r2) ← optional_string 2 r1;
      '(pa, r3) ← optional_string 3 r2;
      '(sa, r4) ← optional_string 4 r3;
      '(pb, r5) ← optional_string 5 r4;
      '(x, r6) ← optional 6 parse_octets r5;
      '(ch, r7) ← optional 7 parse_chain r6;
      '(ad, r9) ← optional_string 9 r7;
      match r9 with
      | [] =>
          Ok {| Version := version; Error := e; Destination := d;
                ProxyAuth := pa; ServerAuth := sa; PreconnectionBlob := pb;
                X224ConnectionPDU := x; ServerCertChain := ch;
                ServerAddr := ad |}
      | _ => Err MalformedPDU
      end
  end.

(** Modelled from the spec: [asn1.Unmarshal] into an [RDCleanPathPDU]
    (section 4.1): [MalformedPDU] when the buffer is not a well-formed
    tagged sequence, when the version is absent or when a declared
    length exceeds what remains; as in the Go call, the bytes after the
    outer sequence are returned, not rejected. *)
Definition Unmarshal (bs : bytes) : result (bytes * RDCleanPathPDU) :=
  match read_tlv bs with
  | Some (id, content, rest) =>
      if decide (id = id_sequence)
      then pdu ← parse_fields content; Ok (rest, pdu)
      else Err MalformedPDU
  | None => Err MalformedPDU
  end.

(** *** Shape of an encoded field list (used to state the codec lemmas)

    [skips tag bs]: [bs] is empty or starts with a complete element whose
    identifier is above context tag [tag]; [field_seg tag seg]: [seg] is
    what an optional field tagged [tag] contributes, nothing or one
    element with that tag. *)

Definition skips (tag : N) (bs : bytes) : Prop :=
  bs = [] \/
  exists id c r, read_tlv bs = Some (id, c, r) /\ 160 + tag < Byte.to_N id.

Definition field_seg (tag : N) (seg : bytes) : Prop :=
  seg = [] \/ exists w, encode_tlv (id_context tag) w = Some seg.

(** *** Buffers with a length that exceeds them (used to state what
    [Unmarshal] rejects)

    Modelled from the spec: "a declared field length exceeding the
    remaining buffer" (sections 4.1 and 8), at every level of the
    message: the outer sequence, the fields in it, the element a field
    wraps and the certificates of the chain.

    [overruns bs]: the element at the head of [bs] declares more than
    [bs] holds: the length octets are missing or cut short, or the
    length they give exceeds the bytes that follow them.
    [constructed id]: an element with this identifier holds elements.
    [overrun_within bs]: in the run of elements [bs], after any number
    of complete elements and inside any number of constructed ones, an
    element overruns.
    [exceeds bs]: the element at the head of [bs] overruns, or an
    element overruns within it. *)

Definition overruns (bs : bytes) : bool :=
  match bs with
  | [] => false
  | [_] => true
  | _ :: b :: rest =>
      let v := Byte.to_N b in
      if v <? 128 then N.of_nat (length rest) <? v
      else
        let k := N.to_nat (v - 128) in
        (length rest <? k)%nat
        || (N.of_nat (length (drop k rest)) <? be_dec (take k rest))
  end.

Definition constructed (id : Byte.byte) : bool := N.testbit (Byte.to_N id) 5.

Inductive overrun_within : bytes -> Prop :=
  | within_here bs :
      overruns bs = true -> overrun_within bs
  | within_next bs id c rest :
      read_tlv bs = Some (id, c, rest) -> overrun_within rest ->
      overrun_within bs
  | within_inside bs id c rest :
      read_tlv bs = Some (id, c, rest) -> constructed id = true ->
      overrun_within c ->
      overrun_within bs.

Definition exceeds (bs : bytes) : Prop :=
  overruns bs = true
  \/ exists id c rest,
       read_tlv bs = Some (id, c, rest) /\ overrun_within c.

(** *** Well-formed messages (used to state when [Marshal] succeeds)

    [valid_strings pdu]: the five string fields hold valid UTF-8.
    [payload pdu]: the number of bytes the fields carry, counting 128
    more for each certificate of the chain. *)

Definition valid_strings (pdu : RDCleanPathPDU) : bool :=
  utf8_valid (list_byte_of_string (Destination pdu))
  && utf8_valid (list_byte_of_string (ProxyAuth pdu))
  && utf8_valid (list_byte_of_string (ServerAuth pdu))
  && utf8_valid (list_byte_of_string (PreconnectionBlob pdu))
  && utf8_valid (list_byte_of_string (ServerAddr pdu)).

Definition chain_size (items : list bytes) : nat :=
  fold_right (fun c n => (length c + 128 + n)%nat) O items.

Definition payload (pdu : RDCleanPathPDU) : nat :=
  (length (default [] (Error pdu))
   + length (list_byte_of_string (Destination pdu))
   + length (list_byte_of_string (ProxyAuth pdu))
   + length (list_byte_of_string (ServerAuth pdu))
   + length (list_byte_of_string (PreconnectionBlob pdu))
   + length (default [] (X224ConnectionPDU pdu))
   + chain_size (default [] (ServerCertChain pdu))
   + length (list_byte_of_string (ServerAddr pdu)))%nat.

(** ** The message of the specification

    Modelled from the spec: the CleanPathMessage of section 3 and of
    the table of section 6, a record whose version is required and
    whose other fields are each present or absent. *)

Record CleanPathMessage := {
  msgVersion : Z;
  msgError : option bytes;
  msgDestination : option string;
  msgProxyAuth : option string;
  msgServerAuth : option string;
  msgPreconnectionBlob : option string;
  msgInitialPayload : option bytes;
  msgServerCertChain : option (list bytes);
  msgServerAddr : option string
}.

(** The [RDCleanPathPDU] that holds a message: a slice field is nil when
    the field is absent; a string field of the struct is a Go string,
    which is empty both when the field is absent and when it is present
    and empty. *)
Definition toPDU (m : CleanPathMessage) : RDCleanPathPDU :=
  {| Version := msgVersion m;
     Error := msgError m;
     Destination := default EmptyString (msgDestination m);
     ProxyAuth := default EmptyString (msgProxyAuth m);
     ServerAuth := default EmptyString (msgServerAuth m);
     PreconnectionBlob := default EmptyString (msgPreconnectionBlob m);
     X224ConnectionPDU := msgInitialPayload m;
     ServerCertChain := msgServerCertChain m;
     ServerAddr := default EmptyString (msgServerAddr m) |}.

(** What a caller can tell of a string field of the struct: present when
    it is not empty. *)
Definition present (s : string) : option string :=
  if decide (s = EmptyString) then None else Some s.

Definition ofPDU (pdu : RDCleanPathPDU) : CleanPathMessage :=
  {| msgVersion := Version pdu;
     msgError := Error pdu;
     msgDestination := present (Destination pdu);
     msgProxyAuth := present (ProxyAuth pdu);
     msgServerAuth := present (ServerAuth pdu);
     msgPreconnectionBlob := present (PreconnectionBlob pdu);
     msgInitialPayload := X224ConnectionPDU pdu;
     msgServerCertChain := ServerCertChain pdu;
     msgServerAddr := present (ServerAddr pdu) |}.

(** Modelled from the spec: [Encode] and [Decode] of section 4.1, through
    the struct the code marshals. *)
Definition Encode (m : CleanPathMessage) : option bytes := Marshal (toPDU m).

Definition Decode (bs : bytes) : result (bytes * CleanPathMessage) :=
  '(rest, pdu) ← Unmarshal bs; Ok (rest, ofPDU pdu).

(** No string field of the message is present and empty. *)
Definition no_empty_string (m : CleanPathMessage) : Prop :=
  msgDestination m <> Some EmptyString
  /\ msgProxyAuth m <> Some EmptyString
  /\ msgServerAuth m <> Some EmptyString
  /\ msgPreconnectionBlob m <> Some EmptyString
  /\ msgServerAddr m <> Some EmptyString.

(** A message with only its version, and the same message with a
    destination that is present and empty. *)
Definition message_bare : CleanPathMessage :=
  {| msgVersion := 3390; msgError := None; msgDestination := None;
     msgProxyAuth := None; msgServerAuth := None;
     msgPreconnectionBlob := None; msgInitialPayload := None;
     msgServerCertChain := None; msgServerAddr := None |}.

Definition message_empty_destination : CleanPathMessage :=
  {| msgVersion := 3390; msgError := None;
     msgDestination := Some EmptyString;
     msgProxyAuth := None; msgServerAuth := None;
     msgPreconnectionBlob := None; msgInitialPayload := None;
     msgServerCertChain := None; msgServerAddr := None |}.

(** A message with every field present, the error and the certificate
    chain present and empty. *)
Definition message_full : CleanPathMessage :=
  {| msgVersion := -129; msgError := Some [];
     msgDestination := Some "host:3389"%string;
     msgProxyAuth := Some "p"%string; msgServerAuth := Some "s"%string;
     msgPreconnectionBlob := Some "b"%string;
     msgInitialPayload := Some [Byte.x03; Byte.x00];
     msgServerCertChain := Some [];
     msgServerAddr := Some "host:3389"%string |}.

(** Two buffers in which a length exceeds what remains although the
    outer sequence is complete: the second certificate of the chain
    declares five bytes and has one; the length of the version field
    announces two length octets and has one. *)
Definition sample_truncated_certificate : bytes :=
  [Byte.x30; Byte.x0f;
   Byte.xa0; Byte.x03; Byte.x02; Byte.x01; Byte.x01;
   Byte.xa7; Byte.x08; Byte.x30; Byte.x06;
   Byte.x04; Byte.x01; Byte.xaa;
   Byte.x04; Byte.x05; Byte.xbb].

Definition sample_cut_length : bytes :=
  [Byte.x30; Byte.x03; Byte.xa0; Byte.x82; Byte.x01].

(** * The proxy (rdcleanpath.go and its companion file) *)

Local Open Scope string_scope.
Local Open Scope nat_scope.

(** ** JavaScript values and the WebSocket object *)

(** The values the handlers receive from JavaScript: [null], a string, a
    [Uint8Array], or anything else ([shown] is what [String()] returns
    for it). *)
Inductive jsValue :=
  | JsNull
  | JsString (s : string)
  | JsUint8Array (data : bytes)
  | JsOther (shown : string).

Definition IsNull (v : jsValue) : bool :=
  match v with JsNull => true | _ => false end.

Definition String_ (v : jsValue) : string :=
  match v with
  | JsNull => "<null>"
  | JsString s => s
  | JsUint8Array _ => "<object>"
  | JsOther shown => shown
  end.

(** [wsHandlers]: the JavaScript WebSocket object; the proxy only asks
    whether its [receiveFromGo] and [send] members are truthy. *)
Record wsObject := {
  receiveFromGo : bool;
  send : bool
}.

(** ** The remote side

    [nbClient.Dial] and the connections it returns, as far as the
    handlers observe them: a connection is named by a number;
    [Dial ctxDone network address] is [None] on error; [Write] tells
    whether the write returned no error; [Read] gives the bytes the
    connection has ready for the next read, [None] on error;
    [Handshake] gives [ConnectionState().PeerCertificates] of the
    completed handshake, [None] on error. *)

Record Certificate := { Raw : bytes }.

Record Remote := {
  Dial : bool -> string -> string -> option nat;
  Write : nat -> bytes -> bool;
  Read : nat -> option bytes;
  Handshake : nat -> option (list Certificate);
  TlsWrite : nat -> bytes -> bool
}.

(** ** Proxy state *)

(** [type proxyConnection]; [ctxDone] is the state of [ctx]/[cancel]. *)
Record proxyConnection := {
  conn_id : string;
  destination : string;
  rdpConn : option nat;
  tlsConn : option nat;
  wsHandlers : wsObject;
  ctxDone : bool
}.

(** [type RDCleanPathProxy]; [activeConnections] maps an id to the
    address of its [proxyConnection]; [destinations] is nil ([None])
    until [createProxy] makes it. *)
Record RDCleanPathProxy := {
  activeConnections : gmap string nat;
  destinations : option (gmap string string)
}.

Definition NewRDCleanPathProxy : RDCleanPathProxy :=
  {| activeConnections := ∅; destinations := None |}.

(** ** Effects *)

Inductive task :=
  | forwardWSToTCP
  | forwardTCPToWS
  | forwardTLSToWS.

Inductive event :=
  | EvDial (network address : string)
  | EvWrite (c : nat) (data : bytes)
  | EvRead (c : nat) (cap : nat)
  | EvHandshake (c : nat)
  | EvTlsWrite (c : nat) (data : bytes)
  | EvWsCall (method : string) (data : bytes)
  | EvCancel
  | EvTlsClose (c : nat)
  | EvClose (c : nat)
  | EvGo (t : task).

(** How a handler ends: it returned, it is parked on [<-conn.ctx.Done()]
    (cleanup follows once the context is cancelled), or it called a
    method of a nil connection. *)
Inductive outcome :=
  | Returned
  | AwaitingDone
  | Panicked.

Record World := {
  proxy : RDCleanPathProxy;
  session : proxyConnection;
  trace : list event
}.

Definition Run (A : Type) : Type := World -> A * World.

#[global] Instance Run_ret : MRet Run := fun A a w => (a, w).
#[global] Instance Run_bind : MBind Run := fun A B f m w =>
  let '(a, w') := m w in f a w'.

Definition getConn : Run proxyConnection := fun w => (session w, w).

Definition emit (e : event) : Run unit := fun w =>
  (tt, {| proxy := proxy w; session := session w; trace := trace w ++ [e] |}).

Definition set_rdpConn (c : option nat) : Run unit := fun w =>
  let s := session w in
  (tt, {| proxy := proxy w; trace := trace w;
          session := {| conn_id := conn_id s; destination := destination s;
                        rdpConn := c; tlsConn := tlsConn s;
                        wsHandlers := wsHandlers s; ctxDone := ctxDone s |} |}).

Definition set_tlsConn (c : option nat) : Run unit := fun w =>
  let s := session w in
  (tt, {| proxy := proxy w; trace := trace w;
          session := {| conn_id := conn_id s; destination := destination s;
                        rdpConn := rdpConn s; tlsConn := c;
                        wsHandlers := wsHandlers s; ctxDone := ctxDone s |} |}).

(** [conn.cancel()] *)
Definition cancel : Run unit := fun w =>
  let s := session w in
  (tt, {| proxy := proxy w; trace := trace w ++ [EvCancel];
          session := {| conn_id := conn_id s; destination := destination s;
                        rdpConn := rdpConn s; tlsConn := tlsConn s;
                        wsHandlers := wsHandlers s; ctxDone := true |} |}).

(** [delete(p.activeConnections, id)] *)
Definition delete_active (k : string) : Run unit := fun w =>
  (tt, {| proxy := {| activeConnections := delete k (activeConnections (proxy w));
                      destinations := destinations (proxy w) |};
          session := session w; trace := trace w |}).

Definition dial (net : Remote) (network address : string) : Run (option nat) :=
  conn ← getConn;
  emit (EvDial network address);;
  mret (Dial net (ctxDone conn) network address).

Definition write (net : Remote) (c : nat) (data : bytes) : Run bool :=
  emit (EvWrite c data);; mret (Write net c data).

(** [Read] into a buffer of [cap] bytes: at most [cap] of the ready
    bytes. *)
Definition read (net : Remote) (c : nat) (cap : nat) : Run (option bytes) :=
  emit (EvRead c cap);; mret (take cap <$> Read net c).

Definition handshake (net : Remote) (c : nat) : Run (option (list Certificate)) :=
  emit (EvHandshake c);; mret (Handshake net c).

Definition tlsWrite (net : Remote) (c : nat) (data : bytes) : Run bool :=
  emit (EvTlsWrite c data);; mret (TlsWrite net c data).

(** ** Slices *)

Definition len {A} (s : option (list A)) : nat :=
  match s with None => 0 | Some l => length l end.

Definition elems {A} (s : option (list A)) : list A :=
  match s with None => [] | Some l => l end.

(** [append(s, x)] *)
Definition append {A} (s : option (list A)) (x : A) : option (list A) :=
  Some (elems s ++ [x])%list.

(** [strings.HasSuffix] *)
Definition HasSuffix (s suffix : string) : bool :=
  (String.length suffix <=? String.length s)
  && String.eqb
       (substring (String.length s - String.length suffix)
                  (String.length suffix) s)
       suffix.

(** ** Handlers *)

Definition sendToWebSocket (data : bytes) : Run unit :=
  conn ← getConn;
  if receiveFromGo (wsHandlers conn) then emit (EvWsCall "receiveFromGo" data)
  else if send (wsHandlers conn) then emit (EvWsCall "send" data)
  else mret tt.

Definition cleanupConnection : Run unit :=
  cancel;;
  conn ← getConn;
  match tlsConn conn with
  | Some c => emit (EvTlsClose c);; set_tlsConn None
  | None => mret tt
  end;;
  match rdpConn conn with
  | Some c => emit (EvClose c);; set_rdpConn None
  | None => mret tt
  end;;
  delete_active (conn_id conn).

Definition sendRDCleanPathPDU (pdu : RDCleanPathPDU) : Run unit :=
  match Marshal pdu with
  | None => mret tt
  | Some data => sendToWebSocket data
  end.

Definition errorPDU (errorMsg : string) : RDCleanPathPDU :=
  {| Version := RDCleanPathVersion;
     Error := Some (list_byte_of_string errorMsg);
     Destination := ""; ProxyAuth := ""; ServerAuth := "";
     PreconnectionBlob := ""; X224ConnectionPDU := None;
     ServerCertChain := None; ServerAddr := "" |}.

Definition sendRDCleanPathError (errorMsg : string) : Run unit :=
  match Marshal (errorPDU errorMsg) with
  | None => mret tt
  | Some data => sendToWebSocket data
  end.

(** [<-conn.ctx.Done()] followed by [p.cleanupConnection(conn)]: the
    handler goes on at once when the context is already cancelled and is
    parked otherwise; [afterDone] is what it does when woken. *)
Definition awaitDone : Run outcome :=
  conn ← getConn;
  if ctxDone conn then cleanupConnection;; mret Returned
  else mret AwaitingDone.

Definition afterDone : Run unit := cleanupConnection.

(** The [onGoClose] callback installed by [setupWebSocketHandlers]. *)
Definition onGoClose : Run unit := cancel.

(** The X.224 exchange that opens both [setupTLSConnection] and
    [setupPlainConnection]: [inl msg] when it failed and [msg] is the
    error to report, [inr None] when the PDU carries no X.224 request,
    [inr (Some response)] otherwise. *)
Definition forwardX224 (net : Remote) (c : nat) (pdu : RDCleanPathPDU)
  : Run (string + option bytes) :=
  if 0 <? len (X224ConnectionPDU pdu) then
    ok ← write net c (elems (X224ConnectionPDU pdu));
    if negb ok then mret (inl "Failed to forward X.224")
    else
      r ← read net c 1024;
      match r with
      | None => mret (inl "Failed to read X.224 response")
      | Some response => mret (inr (Some response))
      end
  else mret (inr None).

Definition peerChain (peerCertificates : list Certificate) : option (list bytes) :=
  if 0 <? length peerCertificates
  then fold_left (fun certChain cert => append certChain (Raw cert))
                 peerCertificates None
  else None.

(** The response PDUs built by [setupTLSConnection] and
    [setupPlainConnection]. *)
Definition tlsResponsePDU (conn : proxyConnection) (x224Response : option bytes)
    (peerCertificates : list Certificate) : RDCleanPathPDU :=
  {| Version := RDCleanPathVersion; Error := None;
     Destination := ""; ProxyAuth := ""; ServerAuth := "";
     PreconnectionBlob := "";
     X224ConnectionPDU := if 0 <? len x224Response then x224Response else None;
     ServerCertChain := peerChain peerCertificates;
     ServerAddr := destination conn |}.

Definition plainResponsePDU (conn : proxyConnection) (x224Response : option bytes)
  : RDCleanPathPDU :=
  {| Version := RDCleanPathVersion; Error := None;
     Destination := ""; ProxyAuth := ""; ServerAuth := "";
     PreconnectionBlob := "";
     X224ConnectionPDU := x224Response;
     ServerCertChain := None;
     ServerAddr := destination conn |}.

Definition setupTLSConnection (net : Remote) (pdu : RDCleanPathPDU) : Run outcome :=
  conn ← getConn;
  match rdpConn conn with
  | None => mret Panicked
  | Some c =>
      x ← forwardX224 net c pdu;
      match x with
      | inl msg => sendRDCleanPathError msg;; mret Returned
      | inr x224Response =>
          set_tlsConn (Some c);;
          hs ← handshake net c;
          match hs with
          | None => sendRDCleanPathError "TLS handshake failed";; mret Returned
          | Some peerCertificates =>
              sendRDCleanPathPDU
                (tlsResponsePDU conn x224Response peerCertificates);;
              emit (EvGo forwardTLSToWS);;
              awaitDone
          end
      end
  end.

Definition setupPlainConnection (net : Remote) (pdu : RDCleanPathPDU) : Run outcome :=
  conn ← getConn;
  match rdpConn conn with
  | None =>
      if 0 <? len (X224ConnectionPDU pdu) then mret Panicked
      else
        sendRDCleanPathPDU (plainResponsePDU conn None);;
        emit (EvGo forwardTCPToWS);;
        awaitDone
  | Some c =>
      x ← forwardX224 net c pdu;
      match x with
      | inl msg => sendRDCleanPathError msg;; mret Returned
      | inr x224Response =>
          sendRDCleanPathPDU (plainResponsePDU conn x224Response);;
          emit (EvGo forwardTCPToWS);;
          awaitDone
      end
  end.

Definition processRDCleanPathPDU (net : Remote) (pdu : RDCleanPathPDU) : Run outcome :=
  if decide (Version pdu <> RDCleanPathVersion) then
    sendRDCleanPathError "Unsupported version";; mret Returned
  else
    conn ← getConn;
    let destination :=
      if decide (Destination pdu <> "") then Destination pdu
      else destination conn in
    r ← dial net "tcp" destination;
    match r with
    | None =>
        sendRDCleanPathError "Connection failed";;
        cleanupConnection;;
        mret Returned
    | Some rdpConn =>
        set_rdpConn (Some rdpConn);;
        let useTLS := HasSuffix destination ":3389" in
        if useTLS then setupTLSConnection net pdu
        else setupPlainConnection net pdu
    end.

Definition forwardToRDP (net : Remote) (data : bytes) : Run unit :=
  conn ← getConn;
  match tlsConn conn with
  | Some c => tlsWrite net c data;; mret tt
  | None =>
      match rdpConn conn with
      | Some c => write net c data;; mret tt
      | None => mret tt
      end
  end.

(** [handleDirectRDP]; the deferred [cleanupConnection] runs on every way
    out of the body. *)
Definition handleDirectRDP_body (net : Remote) (firstPacket : bytes) : Run unit :=
  conn ← getConn;
  r ← dial net "tcp" (destination conn);
  match r with
  | None => mret tt
  | Some rdpConn =>
      set_rdpConn (Some rdpConn);;
      ok ← write net rdpConn firstPacket;
      if negb ok then mret tt
      else
        rd ← read net rdpConn 1024;
        match rd with
        | None => mret tt
        | Some response =>
            sendToWebSocket response;;
            emit (EvGo forwardWSToTCP);;
            emit (EvGo forwardTCPToWS)
        end
  end.

Definition handleDirectRDP (net : Remote) (firstPacket : bytes) : Run outcome :=
  handleDirectRDP_body net firstPacket;;
  cleanupConnection;;
  mret Returned.

(** [handleWebSocketMessage]; the goroutines it starts with [go] are run
    here to their end, or to the point where they wait for the
    context. *)
Definition handleWebSocketMessage (net : Remote) (data : jsValue) : Run outcome :=
  match data with
  | JsUint8Array bytes =>
      conn ← getConn;
      if bool_decide (rdpConn conn <> None) || bool_decide (tlsConn conn <> None)
      then forwardToRDP net bytes;; mret Returned
      else
        match Unmarshal bytes with
        | Err _ =>
            if (0 <? length bytes) && bool_decide (head bytes = Some Byte.x03)
            then handleDirectRDP net bytes
            else mret Returned
        | Ok (_, pdu) => processRDCleanPathPDU net pdu
        end
  | _ => mret Returned
  end.

(** [createProxy]: the destination from the two arguments, the proxy id
    from the size of [activeConnections]; the promise resolves to the
    returned URL. *)
Definition defaultDestination : string := "win2k19-c2.nb.internal:3389".

Definition createProxy (args : list jsValue) (p : RDCleanPathProxy)
  : string * RDCleanPathProxy :=
  let destination :=
    match args with
    | a0 :: a1 :: _ =>
        if negb (IsNull a0) && negb (IsNull a1)
        then String_ a0 +:+ ":" +:+ String_ a1
        else defaultDestination
    | _ => defaultDestination
    end in
  let proxyID := "proxy_" +:+ pretty (size (activeConnections p)) in
  let dests := default ∅ (destinations p) in
  let proxyURL := "ws://rdcleanpath.proxy.local/" +:+ proxyID in
  (proxyURL,
   {| activeConnections := activeConnections p;
      destinations := Some (<[proxyID := destination]> dests) |}).

(** [HandleWebSocketConnection]; [addr] is the address of the new
    [proxyConnection]. *)
Definition HandleWebSocketConnection (ws : wsObject) (proxyID : string) (addr : nat)
    (p : RDCleanPathProxy) : RDCleanPathProxy * proxyConnection :=
  let destination := default "" (destinations p ≫= (.!! proxyID)) in
  let destination :=
    if decide (destination = "") then defaultDestination else destination in
  let conn :=
    {| conn_id := proxyID; destination := destination; rdpConn := None;
       tlsConn := None; wsHandlers := ws; ctxDone := false |} in
  ({| activeConnections := <[proxyID := addr]> (activeConnections p);
      destinations := destinations p |},
   conn).

(** ** Reading a trace *)

(** The byte sequences handed to the WebSocket object, in order. *)
Definition ws_payloads (t : list event) : list bytes :=
  omap (fun e => match e with EvWsCall _ d => Some d | _ => None end) t.

(** The addresses dialed, in order. *)
Definition dialed (t : list event) : list string :=
  omap (fun e => match e with EvDial _ a => Some a | _ => None end) t.

(** The connections closed, in order. *)
Definition closed (t : list event) : list nat :=
  omap (fun e => match e with
                 | EvClose c => Some c
                 | EvTlsClose c => Some c
                 | _ => None
                 end) t.

(** What [sendRDCleanPathPDU] puts on the wire for [pdu]: its encoding,
    or nothing when marshalling fails. *)
Definition wire (pdu : RDCleanPathPDU) : list bytes :=
  match Marshal pdu with Some data => [data] | None => [] end.

(** The WebSocket object can take data from Go. *)
Definition writable (ws : wsObject) : bool := receiveFromGo ws || send ws.

(** The destination [processRDCleanPathPDU] dials. *)
Definition effectiveDestination (conn : proxyConnection) (pdu : RDCleanPathPDU) : string :=
  if decide (Destination pdu <> "") then Destination pdu else destination conn.

(** The X.224 exchange of a PDU, if it asks for one, goes through on
    connection [c]. *)
Definition x224_ok (net : Remote) (c : nat) (pdu : RDCleanPathPDU) : Prop :=
  0 < len (X224ConnectionPDU pdu) ->
  Write net c (elems (X224ConnectionPDU pdu)) = true /\ Read net c <> None.

(** The calls [sendToWebSocket] makes on a WebSocket object. *)
Definition ws_calls (ws : wsObject) (data : bytes) : list event :=
  if receiveFromGo ws then [EvWsCall "receiveFromGo" data]
  else if send ws then [EvWsCall "send" data]
  else [].

(** The calls [sendRDCleanPathPDU] makes for [pdu]. *)
Definition pdu_calls (ws : wsObject) (pdu : RDCleanPathPDU) : list event :=
  match Marshal pdu with Some data => ws_calls ws data | None => [] end.

(** The world after more effects. *)
Definition after (w : World) (s : proxyConnection) (es : list event) : World :=
  {| proxy := proxy w; session := s; trace := (trace w ++ es)%list |}.

(** The session object after [cleanupConnection], and the events of the
    cleanup. *)
Definition cleaned (s : proxyConnection) : proxyConnection :=
  {| conn_id := conn_id s; destination := destination s; rdpConn := None;
     tlsConn := None; wsHandlers := wsHandlers s; ctxDone := true |}.

Definition close_events (s : proxyConnection) : list event :=
  (EvCancel
   :: match tlsConn s with Some c => [EvTlsClose c] | None => [] end
   ++ match rdpConn s with Some c => [EvClose c] | None => [] end)%list.

(** A session is torn down in a world: its registry entry is gone and its
    context is cancelled. *)
Definition torn_down (w : World) : Prop :=
  activeConnections (proxy w) !! conn_id (session w) = None
  /\ ctxDone (session w) = true.

(** Several messages, one after the other. *)
Fixpoint handleMessages (net : Remote) (msgs : list bytes) : Run unit :=
  match msgs with
  | [] => mret tt
  | m :: ms =>
      handleWebSocketMessage net (JsUint8Array m);; handleMessages net ms
  end.

(** The events and the result of the X.224 exchange when it goes
    through. *)
Definition x224_events (c : nat) (pdu : RDCleanPathPDU) : list event :=
  if 0 <? len (X224ConnectionPDU pdu)
  then [EvWrite c (elems (X224ConnectionPDU pdu)); EvRead c 1024]
  else [].

Definition x224Response (net : Remote) (c : nat) (pdu : RDCleanPathPDU)
  : option bytes :=
  if 0 <? len (X224ConnectionPDU pdu) then take 1024 <$> Read net c else None.

(** The session object once the handles of a dialed connection are
    installed. *)
Definition installed (s : proxyConnection) (rdp tls : option nat) : proxyConnection :=
  {| conn_id := conn_id s; destination := destination s; rdpConn := rdp;
     tlsConn := tls; wsHandlers := wsHandlers s; ctxDone := ctxDone s |}.

(** ** Sample sessions (inputs of the examples below) *)

Definition sample_ws : wsObject := {| receiveFromGo := true; send := true |}.

(** A proxy on which [createRDCleanPathProxy("host", "3389")] was called
    and the WebSocket of the returned id was attached. *)
Definition sample_proxy : RDCleanPathProxy * proxyConnection :=
  let p := (createProxy [JsString "host"; JsString "3389"] NewRDCleanPathProxy).2 in
  HandleWebSocketConnection sample_ws "proxy_0" 1 p.

Definition sample_world : World :=
  {| proxy := sample_proxy.1; session := sample_proxy.2; trace := [] |}.

(** The same session with a destination that does not end in [:3389]. *)
Definition sample_plain_world : World :=
  let p := (createProxy [JsString "host"; JsString "5900"] NewRDCleanPathProxy).2 in
  let pc := HandleWebSocketConnection sample_ws "proxy_0" 1 p in
  {| proxy := pc.1; session := pc.2; trace := [] |}.

Definition sample_cert_leaf : Certificate :=
  {| Raw := [Byte.x30; Byte.x03; Byte.x02; Byte.x01; Byte.x01] |}.
Definition sample_cert_ca : Certificate :=
  {| Raw := [Byte.x30; Byte.x03; Byte.x02; Byte.x01; Byte.x02] |}.

Definition sample_x224_request : bytes :=
  [Byte.x03; Byte.x00; Byte.x00; Byte.x07; Byte.x02; Byte.xf0; Byte.x80].
Definition sample_x224_confirm : bytes :=
  [Byte.x03; Byte.x00; Byte.x00; Byte.x07; Byte.x02; Byte.xf0; Byte.x81].

(** A remote that accepts the connection, answers the X.224 request and
    completes the TLS handshake with two certificates. *)
Definition sample_remote : Remote :=
  {| Dial := fun _ _ _ => Some 7;
     Write := fun _ _ => true;
     Read := fun _ => Some sample_x224_confirm;
     Handshake := fun _ => Some [sample_cert_leaf; sample_cert_ca];
     TlsWrite := fun _ _ => true |}.

(** A remote that accepts the connection and fails the TLS handshake. *)
Definition sample_remote_no_tls : Remote :=
  {| Dial := fun _ _ _ => Some 7;
     Write := fun _ _ => true;
     Read := fun _ => Some sample_x224_confirm;
     Handshake := fun _ => None;
     TlsWrite := fun _ _ => true |}.

Definition sample_request : RDCleanPathPDU :=
  {| Version := RDCleanPathVersion; Error := None; Destination := "";
     ProxyAuth := ""; ServerAuth := ""; PreconnectionBlob := "";
     X224ConnectionPDU := Some sample_x224_request;
     ServerCertChain := None; ServerAddr := "" |}.

(** A request that names another destination than the registered one. *)
Definition sample_request_other : RDCleanPathPDU :=
  {| Version := RDCleanPathVersion; Error := None;
     Destination := "other:3389";
     ProxyAuth := ""; ServerAuth := ""; PreconnectionBlob := "";
     X224ConnectionPDU := None;
     ServerCertChain := None; ServerAddr := "" |}.

(** A request of the next protocol version. *)
Definition sample_request_next_version : RDCleanPathPDU :=
  {| Version := RDCleanPathVersion + 1; Error := None; Destination := "";
     ProxyAuth := ""; ServerAuth := ""; PreconnectionBlob := "";
     X224ConnectionPDU := None;
     ServerCertChain := None; ServerAddr := "" |}.

(** The PDUs a client that decodes what it receives would see. *)
Definition decoded (t : list event) : list RDCleanPathPDU :=
  omap (fun d => match Unmarshal d with
                 | Ok (_, pdu) => Some pdu
                 | Err _ => None
                 end) (ws_payloads t).

(** ** The negotiation, case by case *)

(** The X.224 exchange of [forwardX224] when it fails: the error it
    reports and the events it leaves; [None] when it goes through. *)
Definition x224_failure (net : Remote) (c : nat) (pdu : RDCleanPathPDU)
  : option (string * list event) :=
  if 0 <? len (X224ConnectionPDU pdu) then
    if Write net c (elems (X224ConnectionPDU pdu)) then
      match Read net c with
      | Some _ => None
      | None => Some ("Failed to read X.224 response", x224_events c pdu)
      end
    else Some ("Failed to forward X.224",
               [EvWrite c (elems (X224ConnectionPDU pdu))])
  else None.

(** The handshakes performed, the forwarders started and the bytes
    written to the remote, in order. *)
Definition handshakes (t : list event) : list nat :=
  omap (fun e => match e with EvHandshake c => Some c | _ => None end) t.

Definition started (t : list event) : list task :=
  omap (fun e => match e with EvGo k => Some k | _ => None end) t.

Definition written (t : list event) : list bytes :=
  omap (fun e => match e with
                 | EvWrite _ d => Some d
                 | EvTlsWrite _ d => Some d
                 | _ => None
                 end) t.

(** What a handler may change: the session keeps its id, its destination
    and its WebSocket object; the destination table is left alone; the
    registry loses at most the session's own entry; a cancelled context
    stays cancelled; the trace only grows. *)
Definition evolves (w w' : World) : Prop :=
  conn_id (session w') = conn_id (session w)
  /\ destination (session w') = destination (session w)
  /\ wsHandlers (session w') = wsHandlers (session w)
  /\ destinations (proxy w') = destinations (proxy w)
  /\ (activeConnections (proxy w') = activeConnections (proxy w)
      \/ activeConnections (proxy w')
         = delete (conn_id (session w)) (activeConnections (proxy w)))
  /\ (ctxDone (session w) = true -> ctxDone (session w') = true)
  /\ exists es, trace w' = (trace w ++ es)%list.

(** The handles a session holds, in the order [cleanupConnection] closes
    them. *)
Definition handles (s : proxyConnection) : list nat :=
  (match tlsConn s with Some c => [c] | None => [] end
   ++ match rdpConn s with Some c => [c] | None => [] end)%list.

(** A session as [HandleWebSocketConnection] makes it: no handle yet, the
    context not cancelled. *)
Definition fresh (s : proxyConnection) : Prop :=
  rdpConn s = None /\ tlsConn s = None /\ ctxDone s = false.

(** ** The forwarders from the remote to the boundary *)

(** How a forwarder ends on a finite script of read results: it
    returned, it is blocked in the next [Read], or it called [Read] on a
    nil connection. *)
Inductive loopEnd :=
  | LoopReturned
  | LoopBlocked
  | LoopPanicked.

(** [make([]byte, 32*1024)] *)
Definition bufferSize : nat := 32 * 1024.

(** The loop of [forwardTCPToWS] and of [forwardTLSToWS], which differ in
    the handle they read ([handle]); [reads] is what the successive calls
    of [Read] find ready, [None] for an error; a call returns at most the
    buffer. *)
Fixpoint forwardLoop (handle : proxyConnection -> option nat)
    (reads : list (option bytes)) : Run loopEnd :=
  conn ← getConn;
  match handle conn with
  | None => mret LoopPanicked
  | Some _ =>
      match reads with
      | [] => mret LoopBlocked
      | None :: _ => mret LoopReturned
      | Some ready :: reads' =>
          let chunk := take bufferSize ready in
          (if 0 <? length chunk then sendToWebSocket chunk else mret tt);;
          forwardLoop handle reads'
      end
  end.

Definition forwardTCPToWS_loop : list (option bytes) -> Run loopEnd :=
  forwardLoop rdpConn.

Definition forwardTLSToWS_loop : list (option bytes) -> Run loopEnd :=
  forwardLoop tlsConn.

(** The successful reads of a script, up to its first error. *)
Fixpoint before_error {A} (reads : list (option A)) : list A :=
  match reads with
  | Some x :: reads' => x :: before_error reads'
  | _ => []
  end.

(** What a loop that reads into the buffer passes on of successive
    reads: of each read what fits the buffer, unless that is nothing. *)
Definition buffered (readys : list bytes) : list bytes :=
  filter (fun chunk => 0 < length chunk) (take bufferSize <$> readys).

(** The chunks a forwarder hands to [sendToWebSocket]. *)
Definition chunks (reads : list (option bytes)) : list bytes :=
  buffered (before_error reads).

(** ** The forwarders from the boundary to the remote *)

(** The loop of [forwardWSToTCP] and of [forwardWSToTLS], which differ in
    the handle they write to; [msgs] is what the successive calls of
    [readWebSocketMessage] return, [None] for an error. *)
Fixpoint forwardWSLoop (handle : proxyConnection -> option nat)
    (writeTo : nat -> bytes -> Run bool) (msgs : list (option bytes))
  : Run loopEnd :=
  conn ← getConn;
  if ctxDone conn then mret LoopReturned
  else
    match msgs with
    | [] => mret LoopBlocked
    | None :: _ => mret LoopReturned
    | Some msg :: msgs' =>
        match handle conn with
        | None => mret LoopPanicked
        | Some c =>
            ok ← writeTo c msg;
            if negb ok then mret LoopReturned
            else forwardWSLoop handle writeTo msgs'
        end
    end.

Definition forwardWSToTCP_loop (net : Remote)
  : list (option bytes) -> Run loopEnd :=
  forwardWSLoop rdpConn (write net).

Definition forwardWSToTLS_loop (net : Remote)
  : list (option bytes) -> Run loopEnd :=
  forwardWSLoop tlsConn (tlsWrite net).

(** The messages a forwarder tries to write when [accepts] tells which
    writes succeed: those before the first error of the script, up to
    and including the first one whose write fails. *)
Fixpoint attempted (accepts : bytes -> bool) (msgs : list (option bytes))
  : list bytes :=
  match msgs with
  | Some msg :: msgs' =>
      msg :: (if accepts msg then attempted accepts msgs' else [])
  | _ => []
  end.

(** ** The TCP connection bridge (the bridge file of the package) *)

(** A JavaScript argument as [createConnection] reads it: what
    [String()] returns for it, and what [Int()] returns, [None] when the
    value is not a number and [Int] panics. *)
Record bridgeArg := {
  argString : string;
  argInt : option Z
}.

(** [type tcpConnection]: its id and its connection. *)
Record tcpConnection := {
  tc_id : string;
  tc_conn : nat
}.

(** [type TCPConnectionBridge] *)
Record TCPConnectionBridge := {
  connections : gmap string tcpConnection;
  nextID : Z
}.

Definition NewTCPConnectionBridge : TCPConnectionBridge :=
  {| connections := ∅; nextID := 0 |}.

(** The 64-bit [int] of the WebAssembly target: [b.nextID++] wraps. *)
Definition wrap_int (z : Z) : Z := ((z + 2 ^ 63) mod 2 ^ 64 - 2 ^ 63)%Z.

(** The callbacks JavaScript has set on the connection object, as far as
    the bridge asks: which of them are truthy. *)
Record jsConnection := {
  onclose : bool;
  ondata : bool
}.

Inductive bridgeEvent :=
  | BrDial (network address : string)
  | BrReject
  | BrResolve (connID : string)
  | BrGoReadLoop (connID : string)
  | BrCancel (connID : string)
  | BrClose (c : nat)
  | BrOnClose (connID : string)
  | BrOnData (connID : string) (data : bytes).

(** How a call of [createConnection] ends: it returned nil, [Int]
    panicked, or it returned a promise that was rejected or resolved to
    the connection object of the given id. *)
Inductive created :=
  | NoPromise
  | IntPanicked
  | Rejected
  | Resolved (connID : string).

(** [createConnection]; [dialTCP] is the result of [b.client.Dial] for
    an address, [None] on error; the goroutine of the promise is run to
    its end. *)
Definition createConnection (dialTCP : string -> option nat)
    (args : list bridgeArg) (b : TCPConnectionBridge)
  : created * list bridgeEvent * TCPConnectionBridge :=
  match args with
  | a0 :: a1 :: _ =>
      let hostname := argString a0 in
      match argInt a1 with
      | None => (IntPanicked, [], b)
      | Some port =>
          let addr := hostname +:+ ":" +:+ pretty port in
          match dialTCP addr with
          | None => (Rejected, [BrDial "tcp" addr; BrReject], b)
          | Some conn =>
              let nextID' := wrap_int (nextID b + 1) in
              let connID := "conn_" +:+ pretty nextID' in
              let tc := {| tc_id := connID; tc_conn := conn |} in
              (Resolved connID,
               [BrDial "tcp" addr; BrGoReadLoop connID; BrResolve connID],
               {| connections := <[connID := tc]> (connections b);
                  nextID := nextID' |})
          end
      end
  | _ => (NoPromise, [], b)
  end.

(** [handleClose] *)
Definition handleClose (js : jsConnection) (tc : tcpConnection)
    (connID : string) (b : TCPConnectionBridge)
  : list bridgeEvent * TCPConnectionBridge :=
  (([BrCancel (tc_id tc); BrClose (tc_conn tc)]
    ++ if onclose js then [BrOnClose (tc_id tc)] else [])%list,
   {| connections := delete connID (connections b); nextID := nextID b |}).

(** What an iteration of [readLoop] finds: the context cancelled, or the
    result of [Read]. *)
Inductive readStep :=
  | Cancelled
  | ReadError
  | ReadData (ready : bytes).

(** [readLoop] on a script of iterations. *)
Fixpoint readLoop (js : jsConnection) (tc : tcpConnection)
    (steps : list readStep) (b : TCPConnectionBridge)
  : loopEnd * list bridgeEvent * TCPConnectionBridge :=
  match steps with
  | [] => (LoopBlocked, [], b)
  | Cancelled :: _ => (LoopReturned, [], b)
  | ReadError :: _ =>
      (LoopReturned,
       ((if onclose js then [BrOnClose (tc_id tc)] else [])
        ++ [BrCancel (tc_id tc); BrClose (tc_conn tc)])%list,
       {| connections := delete (tc_id tc) (connections b);
          nextID := nextID b |})
  | ReadData ready :: steps' =>
      let chunk := take bufferSize ready in
      let es :=
        if (0 <? length chunk) && ondata js
        then [BrOnData (tc_id tc) chunk] else [] in
      let '(r, es', b') := readLoop js tc steps' b in
      (r, (es ++ es')%list, b')
  end.

(** What JavaScript does with the bridge, one operation after the
    other. *)
Inductive bridgeOp :=
  | OpCreate (dialTCP : string -> option nat) (args : list bridgeArg)
  | OpClose (js : jsConnection) (tc : tcpConnection) (connID : string)
  | OpReadLoop (js : jsConnection) (tc : tcpConnection) (steps : list readStep).

Fixpoint runBridge (ops : list bridgeOp) (b : TCPConnectionBridge)
  : list created * TCPConnectionBridge :=
  match ops with
  | [] => ([], b)
  | OpCreate dialTCP args :: ops' =>
      let '(r, _, b') := createConnection dialTCP args b in
      let '(rs, b'') := runBridge ops' b' in
      (r :: rs, b'')
  | OpClose js tc connID :: ops' => runBridge ops' (handleClose js tc connID b).2
  | OpReadLoop js tc steps :: ops' => runBridge ops' (readLoop js tc steps b).2
  end.

(** The ids of the connections a run created. *)
Definition resolved (rs : list created) : list string :=
  omap (fun r => match r with Resolved connID => Some connID | _ => None end) rs.

(** ** Length-prefixed messages *)

(** What [io.ReadFull] and [binary.Read] answer on a reader that yields
    [input] and then ends. *)
Inductive readError :=
  | EOF
  | ErrUnexpectedEOF
  | MessageTooLarge (length : N).

(** [io.ReadFull] into a buffer of [n] bytes: the bytes read and the rest
    of the input. *)
Definition ReadFull (n : nat) (input : bytes) : readError + bytes * bytes :=
  if n <=? length input then inr (take n input, drop n input)
  else if length input =? 0 then inl EOF
  else inl ErrUnexpectedEOF.

(** [readLengthPrefixed]: the message and the rest of the input. *)
Definition readLengthPrefixed (input : bytes) : readError + bytes * bytes :=
  match ReadFull 4 input with
  | inl e => inl e
  | inr (header, rest) =>
      let length := be_dec header in
      if (1024 * 1024 <? length)%N then inl (MessageTooLarge length)
      else ReadFull (N.to_nat length) rest
  end.

(** A message under its length prefix. *)
Definition lengthPrefixed (data : bytes) : bytes :=
  (be_enc 4 (N.of_nat (length data)) ++ data)%list.

(** ** More sample inputs *)

(** A remote that refuses the connection. *)
Definition sample_remote_refusing : Remote :=
  {| Dial := fun _ _ _ => None;
     Write := fun _ _ => true;
     Read := fun _ => None;
     Handshake := fun _ => None;
     TlsWrite := fun _ _ => true |}.

Definition sample_js : jsConnection :=
  {| onclose := true; ondata := true |}.

(** The arguments of [createNetBirdTCPConnection("host", 3389)]. *)
Definition sample_args : list bridgeArg :=
  [ {| argString := "host"; argInt := None |};
    {| argString := "<number: 3389>"; argInt := Some 3389%Z |} ].

(** A run of the bridge: a connection is made and closed, a dial fails,
    another connection is made. *)
Definition sample_ops : list bridgeOp :=
  [ OpCreate (fun _ => Some 1) sample_args;
    OpClose sample_js {| tc_id := "conn_1"; tc_conn := 1 |} "conn_1";
    OpCreate (fun _ => None) sample_args;
    OpCreate (fun _ => Some 2) sample_args ].

(** * Properties of the codec *)

Local Close Scope string_scope.
Local Close Scope nat_scope.
Local Open Scope N_scope.
Lemma to_N_byte_of_N n : Byte.to_N (byte_of_N n) = n mod 256.
Proof.
  unfold byte_of_N.
  destruct (Byte.of_N (n mod 256)) as [b|] eqn:E.
  - by apply Byte.to_of_N.
  - apply Byte.of_N_None_iff in E.
    pose proof (N.mod_upper_bound n 256). lia.
Qed.

Lemma to_N_byte_of_N_small n : n < 256 -> Byte.to_N (byte_of_N n) = n.
Proof. intros. rewrite to_N_byte_of_N. by apply N.mod_small. Qed.

Lemma byte_of_N_to_N b : byte_of_N (Byte.to_N b) = b.
Proof.
  unfold byte_of_N. pose proof (Byte.to_N_bounded b).
  rewrite N.mod_small by lia. by rewrite Byte.of_to_N.
Qed.

Lemma to_N_lt_256 b : Byte.to_N b < 256.
Proof. pose proof (Byte.to_N_bounded b). lia. Qed.

Lemma to_N_inj b1 b2 : Byte.to_N b1 = Byte.to_N b2 -> b1 = b2.
Proof.
  intros E. rewrite <- (byte_of_N_to_N b1), <- (byte_of_N_to_N b2).
  by rewrite E.
Qed.

Lemma be_enc_length k v : length (be_enc k v) = k.
Proof.
  revert v. induction k as [|k IH]; intros v; simpl; [done|].
  rewrite length_app, IH. simpl. lia.
Qed.

Lemma be_dec_snoc bs b : be_dec (bs ++ [b]) = be_dec bs * 256 + Byte.to_N b.
Proof. unfold be_dec. by rewrite fold_left_app. Qed.

Lemma be_dec_enc k v : v < 256 ^ N.of_nat k -> be_dec (be_enc k v) = v.
Proof.
  revert v. induction k as [|k IH]; intros v Hv.
  - simpl in *. unfold be_dec. simpl. lia.
  - cbn [be_enc]. rewrite be_dec_snoc, to_N_byte_of_N, IH.
    + pose proof (N.div_mod v 256). lia.
    + rewrite Nat2N.inj_succ, N.pow_succ_r' in Hv.
      apply N.Div0.div_lt_upper_bound. lia.
Qed.

Lemma be_dec_bound bs : be_dec bs < 256 ^ N.of_nat (length bs).
Proof.
  induction bs as [|b bs IH] using rev_ind.
  - unfold be_dec. simpl. lia.
  - rewrite be_dec_snoc, length_app. simpl length.
    replace (N.of_nat (length bs + 1)) with (N.succ (N.of_nat (length bs))) by lia.
    rewrite N.pow_succ_r'. pose proof (to_N_lt_256 b). lia.
Qed.

Lemma be_enc_head k v :
  head (be_enc (S k) v) = Some (byte_of_N (v / 256 ^ N.of_nat k)).
Proof.
  revert v. induction k as [|k IH]; intros v.
  - simpl. by rewrite N.div_1_r.
  - change (be_enc (S (S k)) v) with (be_enc (S k) (v / 256) ++ [byte_of_N v]).
    specialize (IH (v / 256)).
    destruct (be_enc (S k) (v / 256)) as [|b l] eqn:E; [done|].
    simpl in *. rewrite IH. do 2 f_equal.
    rewrite N.Div0.div_div. f_equal.
    rewrite Nat2N.inj_succ, N.pow_succ_r'. lia.
Qed.

Lemma lengthLength_pos n : (1 <= lengthLength n)%nat.
Proof. unfold lengthLength. generalize (N.log2 n / 8). lia. Qed.

Lemma lengthLength_upper n : n < 256 ^ N.of_nat (lengthLength n).
Proof.
  unfold lengthLength. rewrite N2Nat.id.
  destruct (N.eq_dec n 0) as [->|Hn].
  - done.
  - pose proof (N.log2_spec n ltac:(lia)) as [_ Hhi].
    eapply N.lt_le_trans; [exact Hhi|].
    change 256 with (2 ^ 8). rewrite <- N.pow_mul_r.
    apply N.pow_le_mono_r; [lia|].
    pose proof (N.div_mod (N.log2 n) 8 ltac:(lia)).
    pose proof (N.mod_upper_bound (N.log2 n) 8 ltac:(lia)).
    set (q := N.log2 n / 8) in *. set (r := N.log2 n mod 8) in *. lia.
Qed.

Lemma lengthLength_lower n :
  0 < n -> 256 ^ (N.of_nat (lengthLength n) - 1) <= n.
Proof.
  intros Hn. unfold lengthLength. rewrite N2Nat.id.
  pose proof (N.log2_spec n Hn) as [Hlo _].
  eapply N.le_trans; [|exact Hlo].
  change 256 with (2 ^ 8). rewrite <- N.pow_mul_r.
  apply N.pow_le_mono_r; [lia|].
  pose proof (N.div_mod (N.log2 n) 8 ltac:(lia)).
  pose proof (N.mod_upper_bound (N.log2 n) 8 ltac:(lia)).
  set (q := N.log2 n / 8) in *. set (r := N.log2 n mod 8) in *. lia.
Qed.

Lemma be_enc_lengthLength_no_leading_zero n :
  0 < n -> leading_zero (be_enc (lengthLength n) n) = false.
Proof.
  intros Hn.
  pose proof (lengthLength_lower n Hn) as Hlo.
  pose proof (lengthLength_upper n) as Hhi.
  pose proof (lengthLength_pos n) as Hk.
  destruct (lengthLength n) as [|k] eqn:Ek; [lia|].
  pose proof (be_enc_head k n) as Hh.
  destruct (be_enc (S k) n) as [|b l]; [done|].
  simpl in Hh. injection Hh as ->. simpl.
  replace (N.of_nat (S k) - 1) with (N.of_nat k) in Hlo by lia.
  rewrite Nat2N.inj_succ, N.pow_succ_r' in Hhi.
  assert (Hq : 1 <= n / 256 ^ N.of_nat k).
  { apply N.div_le_lower_bound; [apply N.pow_nonzero; lia | lia]. }
  assert (Hq' : n / 256 ^ N.of_nat k < 256).
  { apply N.Div0.div_lt_upper_bound. lia. }
  rewrite to_N_byte_of_N_small by done.
  apply N.eqb_neq. lia.
Qed.

Lemma read_length_encode n rest :
  (lengthLength n <= 126)%nat ->
  read_length (encode_length n ++ rest) = Some (n, rest).
Proof.
  intros Hk. unfold encode_length.
  destruct (n <? 128) eqn:Hn.
  - apply N.ltb_lt in Hn. simpl.
    rewrite to_N_byte_of_N_small by lia.
    apply N.ltb_lt in Hn. by rewrite Hn.
  - apply N.ltb_ge in Hn.
    pose proof (lengthLength_pos n) as Hpos.
    cbn [app read_length].
    rewrite to_N_byte_of_N_small by lia.
    replace (128 + N.of_nat (lengthLength n) <? 128) with false
      by (symmetry; apply N.ltb_ge; lia).
    replace (N.to_nat (128 + N.of_nat (lengthLength n) - 128))
      with (lengthLength n) by lia.
    replace (lengthLength n =? 0)%nat with false
      by (symmetry; apply Nat.eqb_neq; lia).
    replace (126 <? lengthLength n)%nat with false
      by (symmetry; apply Nat.ltb_ge; lia).
    rewrite length_app, be_enc_length.
    replace (lengthLength n + length rest <? lengthLength n)%nat with false
      by (symmetry; apply Nat.ltb_ge; lia).
    cbn [orb].
    rewrite take_app_length' by (by rewrite be_enc_length).
    rewrite drop_app_length' by (by rewrite be_enc_length).
    rewrite be_enc_lengthLength_no_leading_zero by lia.
    rewrite be_dec_enc by apply lengthLength_upper.
    replace (n <? 128) with false by (symmetry; apply N.ltb_ge; lia).
    done.
Qed.

Lemma read_tlv_encode id content bs rest :
  high_tag id = false ->
  encode_tlv id content = Some bs ->
  read_tlv (bs ++ rest) = Some (id, content, rest).
Proof.
  intros Hid. unfold encode_tlv.
  destruct (lengthLength _ <=? 126)%nat eqn:Hk; [|done].
  apply Nat.leb_le in Hk. intros [= <-].
  cbn [app read_tlv]. rewrite Hid, <- app_assoc, read_length_encode by done.
  rewrite Nat2N.id.
  replace (length (content ++ rest) <? length content)%nat with false
    by (symmetry; apply Nat.ltb_ge; rewrite length_app; lia).
  by rewrite take_app_length, drop_app_length.
Qed.

(** *** INTEGER round trip *)

Local Open Scope Z_scope.

Lemma pow_step n : 1 <= n -> 2 ^ (8 * (n + 1) - 1) = 256 * 2 ^ (8 * n - 1).
Proof.
  intros Hn. replace (8 * (n + 1) - 1) with (8 + (8 * n - 1)) by lia.
  rewrite Z.pow_add_r by lia. done.
Qed.

Lemma pow_half n : 1 <= n -> 2 ^ (8 * n) = 2 * 2 ^ (8 * n - 1).
Proof.
  intros Hn. replace (8 * n) with (1 + (8 * n - 1)) at 1 by lia.
  rewrite Z.pow_add_r by lia. done.
Qed.

Lemma int64Length_go_spec f i :
  - 2 ^ (8 * (Z.of_nat f + 1) - 1) <= i < 2 ^ (8 * (Z.of_nat f + 1) - 1) ->
  let k := Z.of_nat (int64Length_go f i) in
  1 <= k <= Z.of_nat f + 1
  /\ - 2 ^ (8 * k - 1) <= i < 2 ^ (8 * k - 1)
  /\ (2 <= k -> i < - 2 ^ (8 * (k - 1) - 1) \/ 2 ^ (8 * (k - 1) - 1) <= i).
Proof.
  revert i. induction f as [|f IH]; intros i Hi; cbn [int64Length_go].
  - cbn zeta. change (Z.of_nat 1) with 1 in *. change (Z.of_nat 0) with 0 in *.
    repeat split; lia.
  - destruct ((127 <? i) || (i <? -128)) eqn:Hc.
    + rewrite Z.shiftr_div_pow2 by lia. change (2 ^ 8) with 256.
      rewrite Nat2Z.inj_succ in Hi. unfold Z.succ in Hi.
      rewrite pow_step in Hi by lia.
      pose proof (Z.div_mod i 256 ltac:(lia)) as Hdm.
      pose proof (Z.mod_pos_bound i 256 ltac:(lia)) as Hr.
      set (i' := i / 256) in *. set (r := i mod 256) in *.
      specialize (IH i' ltac:(lia)). cbn zeta in IH.
      destruct IH as (Hk & Hrange & Hmin).
      rewrite !Nat2Z.inj_succ. unfold Z.succ.
      set (k' := Z.of_nat (int64Length_go f i')) in *.
      cbn zeta. rewrite pow_step by lia.
      replace (k' + 1 - 1) with k' by lia.
      split; [lia|]. split; [lia|]. intros _.
      destruct (Z.eq_dec k' 1) as [Hk1|Hk1].
      * rewrite Hk1. change (2 ^ (8 * 1 - 1)) with 128.
        apply orb_true_iff in Hc as [Hc|Hc]; lia.
      * specialize (Hmin ltac:(lia)).
        replace (8 * k' - 1) with (8 * ((k' - 1) + 1) - 1) by lia.
        rewrite pow_step by lia.
        set (R := 2 ^ (8 * (k' - 1) - 1)) in *. lia.
    + cbn zeta. change (Z.of_nat 1) with 1.
      change (2 ^ (8 * 1 - 1)) with 128.
      apply orb_false_iff in Hc as [Hc1 Hc2].
      split; [lia|]. split; [lia|]. lia.
Qed.

Lemma int64Length_spec i :
  is_int64 i ->
  let k := Z.of_nat (int64Length i) in
  1 <= k <= 8
  /\ - 2 ^ (8 * k - 1) <= i < 2 ^ (8 * k - 1)
  /\ (2 <= k -> i < - 2 ^ (8 * (k - 1) - 1) \/ 2 ^ (8 * (k - 1) - 1) <= i).
Proof.
  intros Hi. apply (int64Length_go_spec 7 i). exact Hi.
Qed.

Lemma be_enc_split a b v :
  be_enc (a + b) v = be_enc a (v / 256 ^ N.of_nat b)%N ++ be_enc b v.
Proof.
  revert v. induction b as [|b IH]; intros v.
  - rewrite Nat.add_0_r. simpl. by rewrite N.div_1_r, app_nil_r.
  - rewrite Nat.add_succ_r. cbn [be_enc]. rewrite IH, app_assoc.
    do 3 f_equal. rewrite N.Div0.div_div. f_equal.
    rewrite Nat2N.inj_succ, N.pow_succ_r'. lia.
Qed.

Lemma pow256_of_nat k : Z.of_N (256 ^ N.of_nat k) = 2 ^ (8 * Z.of_nat k).
Proof.
  rewrite N2Z.inj_pow, nat_N_Z. change (Z.of_N 256) with (2 ^ 8).
  rewrite <- Z.pow_mul_r by lia. done.
Qed.

Lemma not_minimal_encode (j : nat) (i : Z) :
  let k := Z.of_nat (S (S j)) in
  - 2 ^ (8 * k - 1) <= i < 2 ^ (8 * k - 1) ->
  i < - 2 ^ (8 * (k - 1) - 1) \/ 2 ^ (8 * (k - 1) - 1) <= i ->
  not_minimal (be_enc (S (S j)) (Z.to_N (i mod 2 ^ (8 * k)))) = false.
Proof.
  cbn zeta. intros Hrange Hmin.
  change (be_enc (S (S j))) with (be_enc (2 + j)).
  rewrite be_enc_split. cbn [be_enc app not_minimal].
  rewrite !to_N_byte_of_N.
  rewrite !Nat2Z.inj_succ in *. unfold Z.succ in *.
  replace (Z.of_nat j + 1 + 1 - 1) with (Z.of_nat j + 1) in Hmin by lia.
  rewrite pow_half in * by lia.
  rewrite pow_step in * by lia.
  set (Q := 2 ^ (8 * (Z.of_nat j + 1) - 1)) in *.
  assert (HQ : Q = 128 * Z.of_N (256 ^ N.of_nat j)).
  { rewrite pow256_of_nat. unfold Q.
    replace (8 * (Z.of_nat j + 1) - 1) with (7 + 8 * Z.of_nat j) by lia.
    rewrite Z.pow_add_r by lia. done. }
  set (P := (256 ^ N.of_nat j)%N) in *.
  assert (HP : (0 < P)%N).
  { unfold P. apply N.neq_0_lt_0, N.pow_nonzero. lia. }
  set (M := 2 * (256 * Q)) in *.
  assert (Hu : i mod M = if i <? 0 then i + M else i).
  { destruct (Z.ltb_spec i 0).
    - symmetry. apply Z.mod_unique with (q := -1); lia.
    - apply Z.mod_small. lia. }
  set (u := Z.to_N (i mod M)).
  assert (Hu' : Z.of_N u = if i <? 0 then i + M else i).
  { unfold u. rewrite Z2N.id; [done|]. rewrite Hu. destruct (i <? 0) eqn:E; lia. }
  clearbody u. clear Hu.
  pose proof (N.div_mod u P ltac:(lia)) as Hdm.
  pose proof (N.mod_upper_bound u P ltac:(lia)) as Hr.
  set (w := (u / P)%N) in *. set (r := (u mod P)%N) in *.
  assert (Hw : (P * w <= u < P * w + P)%N) by lia.
  clearbody w r.
  assert (Hw2 : (w < 65536)%N).
  { destruct (i <? 0) eqn:E; nia. }
  pose proof (N.div_mod w 256 ltac:(lia)) as Hdm2.
  pose proof (N.mod_upper_bound w 256 ltac:(lia)) as Hr2.
  set (w1 := (w / 256)%N) in *. set (w0 := (w mod 256)%N) in *.
  assert (Hw1 : (w1 < 256)%N) by lia.
  rewrite (N.mod_small w1) by done.
  clearbody w1 w0.
  apply orb_false_iff; split; apply andb_false_iff.
  - destruct (N.eqb_spec w1 0); [right|by left].
    apply N.ltb_ge. destruct (i <? 0) eqn:E; nia.
  - destruct (N.eqb_spec w1 255); [right|by left].
    apply N.leb_gt. destruct (i <? 0) eqn:E; nia.
Qed.

Lemma parse_encode_int64 i : is_int64 i -> parse_int64 (encode_int64 i) = Ok i.
Proof.
  intros Hi. destruct (int64Length_spec i Hi) as (Hk & Hrange & Hmin).
  unfold encode_int64.
  set (k := int64Length i) in *.
  pose proof (pow_half (Z.of_nat k) ltac:(lia)) as HM.
  set (M := 2 ^ (8 * Z.of_nat k)) in *.
  set (H := 2 ^ (8 * Z.of_nat k - 1)) in *.
  assert (Hu : i mod M = if i <? 0 then i + M else i).
  { destruct (Z.ltb_spec i 0).
    - symmetry. apply Z.mod_unique with (q := -1); lia.
    - apply Z.mod_small. lia. }
  assert (Hmin' : not_minimal (be_enc k (Z.to_N (i mod M))) = false).
  { destruct k as [|[|j]] eqn:Ek; [lia|done|].
    apply not_minimal_encode; [done|]. apply Hmin. lia. }
  assert (Hub : (Z.to_N (i mod M) < 256 ^ N.of_nat k)%N).
  { apply N2Z.inj_lt. rewrite pow256_of_nat, Z2N.id; fold M.
    - rewrite Hu. destruct (Z.ltb_spec i 0); lia.
    - rewrite Hu. destruct (Z.ltb_spec i 0); lia. }
  unfold parse_int64.
  pose proof (be_enc_length k (Z.to_N (i mod M))) as Hlen.
  destruct (be_enc k (Z.to_N (i mod M))) as [|b0 l] eqn:Ebs.
  { simpl in Hlen. lia. }
  rewrite <- Ebs in *. rewrite Hmin', Hlen.
  replace (8 <? k)%nat with false by (symmetry; apply Nat.ltb_ge; lia).
  rewrite be_dec_enc by done.
  rewrite Z2N.id by (rewrite Hu; destruct (Z.ltb_spec i 0); lia).
  fold M H. f_equal. rewrite Hu.
  destruct (Z.ltb_spec i 0).
  - replace (i + M <? H) with false by (symmetry; apply Z.ltb_ge; lia). lia.
  - replace (i <? H) with true by (symmetry; apply Z.ltb_lt; lia). done.
Qed.

Local Close Scope Z_scope.

(** ** Round trip of the PDU codec *)

Ltac rsimpl := cbn [mbind result_bind mret result_ret].

Lemma id_context_to_N tag : tag < 96 -> Byte.to_N (id_context tag) = 160 + tag.
Proof. intros. unfold id_context. apply to_N_byte_of_N_small. lia. Qed.

Lemma take_field_skip tag bs : skips tag bs -> take_field tag bs = Ok (None, bs).
Proof.
  intros [->|(id & c & r & Hr & Hlt)]; [done|].
  unfold take_field. destruct bs as [|b bs]; [done|]. rewrite Hr.
  destruct (decide (id = id_context tag)) as [->|]; [|done].
  unfold id_context in Hlt. rewrite to_N_byte_of_N in Hlt.
  pose proof (N.Div0.mod_le (160 + tag) 256). lia.
Qed.

Lemma optional_skip {A} tag (parse : bytes -> result A) bs :
  skips tag bs -> optional tag parse bs = Ok (None, bs).
Proof. intros H. unfold optional. by rewrite take_field_skip. Qed.

Lemma encode_tlv_cons id c seg :
  encode_tlv id c = Some seg -> exists tl, seg = id :: tl.
Proof.
  unfold encode_tlv. destruct (_ <=? _)%nat; [|done]. intros [= <-]. eauto.
Qed.

Lemma take_field_hit tag w seg rest :
  high_tag (id_context tag) = false ->
  encode_tlv (id_context tag) w = Some seg ->
  take_field tag (seg ++ rest) = Ok (Some w, rest).
Proof.
  intros Hid He. unfold take_field.
  rewrite (read_tlv_encode _ _ _ rest Hid He).
  destruct (encode_tlv_cons _ _ _ He) as [tl ->]. simpl.
  by rewrite decide_True.
Qed.

Lemma read_inner_encode id c w :
  high_tag id = false -> encode_tlv id c = Some w -> read_inner id w = Ok c.
Proof.
  intros Hid He. unfold read_inner.
  pose proof (read_tlv_encode _ _ _ [] Hid He) as Hr.
  rewrite app_nil_r in Hr. rewrite Hr. by rewrite decide_True.
Qed.

Lemma skips_mono t j bs : t <= j -> skips j bs -> skips t bs.
Proof.
  intros Htj [->|(id & c & r & Hr & Hlt)]; [by left|].
  right. exists id, c, r. split; [done|lia].
Qed.

Lemma skips_field_seg t j seg rest :
  field_seg j seg -> high_tag (id_context j) = false -> t < j < 96 ->
  skips j rest -> skips t (seg ++ rest).
Proof.
  intros [->|[w He]] Hid Htj Hrest.
  - simpl. eapply skips_mono; [|done]. lia.
  - right. exists (id_context j), w, rest. split.
    + by apply read_tlv_encode.
    + rewrite id_context_to_N; lia.
Qed.

Lemma explicit_Some tag inner seg :
  explicit tag inner = Some seg ->
  exists w, inner = Some w /\ encode_tlv (id_context tag) w = Some seg.
Proof.
  unfold explicit. destruct inner as [w|]; simpl; [|done]. eauto.
Qed.

Lemma marshal_octets_seg tag v seg :
  marshal_octets tag v = Some seg -> field_seg tag seg.
Proof.
  destruct v as [bs|]; simpl.
  - intros (w & _ & He)%explicit_Some. right. eauto.
  - intros [= <-]. by left.
Qed.

Lemma marshal_utf8_seg tag s seg :
  marshal_utf8 tag s = Some seg -> field_seg tag seg.
Proof.
  unfold marshal_utf8. case_decide.
  - intros [= <-]. by left.
  - destruct (utf8_valid _); [|done].
    intros (w & _ & He)%explicit_Some. right. eauto.
Qed.

Lemma marshal_chain_seg tag v seg :
  marshal_chain tag v = Some seg -> field_seg tag seg.
Proof.
  destruct v as [items|]; simpl.
  - intros (w & _ & He)%explicit_Some. right. eauto.
  - intros [= <-]. by left.
Qed.

Lemma optional_version_rt i seg rest :
  is_int64 i ->
  marshal_int64 0 i = Some seg ->
  optional 0 parse_version (seg ++ rest) = Ok (Some i, rest).
Proof.
  intros Hi (w & Hw & He)%explicit_Some.
  unfold optional. rewrite (take_field_hit 0 w seg rest) by done.
  rsimpl. unfold parse_version.
  rewrite (read_inner_encode id_integer _ _ eq_refl Hw). rsimpl.
  by rewrite parse_encode_int64.
Qed.

Lemma optional_octets_rt tag v seg rest :
  high_tag (id_context tag) = false ->
  marshal_octets tag v = Some seg ->
  skips tag rest ->
  optional tag parse_octets (seg ++ rest) = Ok (v, rest).
Proof.
  intros Hid Hm Hrest. destruct v as [bs|]; simpl in Hm.
  - apply explicit_Some in Hm as (w & Hw & He).
    unfold optional. rewrite (take_field_hit tag w seg rest) by done.
    rsimpl. unfold parse_octets.
    by rewrite (read_inner_encode id_octet_string _ _ eq_refl Hw).
  - injection Hm as <-. simpl. by apply optional_skip.
Qed.

Lemma optional_string_rt tag s seg rest :
  high_tag (id_context tag) = false ->
  marshal_utf8 tag s = Some seg ->
  skips tag rest ->
  optional_string tag (seg ++ rest) = Ok (s, rest).
Proof.
  intros Hid Hm Hrest. unfold optional_string, marshal_utf8 in *.
  case_decide as Hs.
  - injection Hm as <-. simpl. rewrite optional_skip by done. rsimpl. by subst.
  - destruct (utf8_valid (list_byte_of_string s)) eqn:Hv; [|done].
    apply explicit_Some in Hm as (w & Hw & He).
    unfold optional. rewrite (take_field_hit tag w seg rest) by done.
    rsimpl. unfold parse_utf8.
    rewrite (read_inner_encode id_utf8_string _ _ eq_refl Hw). rsimpl.
    by rewrite Hv, string_of_list_byte_of_string.
Qed.

Lemma encode_tlv_length id c seg :
  encode_tlv id c = Some seg -> (length c < length seg)%nat.
Proof.
  unfold encode_tlv. destruct (_ <=? _)%nat; [|done]. intros [= <-].
  simpl. rewrite length_app. lia.
Qed.

Lemma parse_octets_seq_rt items body fuel :
  marshal_octets_seq items = Some body ->
  (length body <= fuel)%nat ->
  parse_octets_seq fuel body = Ok items.
Proof.
  revert body fuel. induction items as [|c cs IH]; intros body fuel.
  - intros [= <-] _. by destruct fuel.
  - simpl. destruct (encode_tlv id_octet_string c) as [e|] eqn:He; [|done].
    destruct (marshal_octets_seq cs) as [r|] eqn:Hr; [|done].
    simpl. intros [= <-] Hfuel.
    destruct (encode_tlv_cons _ _ _ He) as [tl ->].
    pose proof (encode_tlv_length _ _ _ He) as Hlen.
    rewrite length_app in Hfuel.
    destruct fuel as [|fuel]; [simpl in *; lia|].
    cbn [parse_octets_seq app].
    change (id_octet_string :: tl ++ r) with ((id_octet_string :: tl) ++ r).
    rewrite (read_tlv_encode id_octet_string _ _ r eq_refl He).
    rewrite decide_True by done.
    rewrite (IH r fuel eq_refl) by (simpl in *; lia). done.
Qed.

Lemma optional_chain_rt tag v seg rest :
  high_tag (id_context tag) = false ->
  marshal_chain tag v = Some seg ->
  skips tag rest ->
  optional tag parse_chain (seg ++ rest) = Ok (v, rest).
Proof.
  intros Hid Hm Hrest. destruct v as [items|]; simpl in Hm.
  - apply explicit_Some in Hm as (w & Hw & He).
    destruct (marshal_octets_seq items) as [body|] eqn:Hb; [|done].
    simpl in Hw.
    unfold optional. rewrite (take_field_hit tag w seg rest) by done.
    rsimpl. unfold parse_chain.
    rewrite (read_inner_encode id_sequence _ _ eq_refl Hw). rsimpl.
    by rewrite (parse_octets_seq_rt items body).
  - injection Hm as <-. simpl. by apply optional_skip.
Qed.

Lemma skips_nil tag : skips tag [].
Proof. by left. Qed.

Lemma Unmarshal_Marshal pdu bs rest :
  is_int64 (Version pdu) ->
  Marshal pdu = Some bs ->
  Unmarshal (bs ++ rest) = Ok (rest, pdu).
Proof.
  intros Hv. unfold Marshal.
  destruct (marshal_int64 0 (Version pdu)) as [f0|] eqn:E0; [|done].
  destruct (marshal_octets 1 (Error pdu)) as [f1|] eqn:E1; [|done].
  destruct (marshal_utf8 2 (Destination pdu)) as [f2|] eqn:E2; [|done].
  destruct (marshal_utf8 3 (ProxyAuth pdu)) as [f3|] eqn:E3; [|done].
  destruct (marshal_utf8 4 (ServerAuth pdu)) as [f4|] eqn:E4; [|done].
  destruct (marshal_utf8 5 (PreconnectionBlob pdu)) as [f5|] eqn:E5; [|done].
  destruct (marshal_octets 6 (X224ConnectionPDU pdu)) as [f6|] eqn:E6; [|done].
  destruct (marshal_chain 7 (ServerCertChain pdu)) as [f7|] eqn:E7; [|done].
  destruct (marshal_utf8 9 (ServerAddr pdu)) as [f9|] eqn:E9; [|done].
  cbn [mbind option_bind]. intros He.
  unfold Unmarshal.
  rewrite (read_tlv_encode id_sequence _ _ rest eq_refl He).
  rewrite decide_True by done.
  rewrite <- (app_nil_r f9).
  pose proof (skips_nil 9) as S9.
  pose proof (skips_field_seg 7 9 f9 [] (marshal_utf8_seg _ _ _ E9)
                eq_refl ltac:(lia) S9) as S7.
  pose proof (skips_field_seg 6 7 f7 _ (marshal_chain_seg _ _ _ E7)
                eq_refl ltac:(lia) S7) as S6.
  pose proof (skips_field_seg 5 6 f6 _ (marshal_octets_seg _ _ _ E6)
                eq_refl ltac:(lia) S6) as S5.
  pose proof (skips_field_seg 4 5 f5 _ (marshal_utf8_seg _ _ _ E5)
                eq_refl ltac:(lia) S5) as S4.
  pose proof (skips_field_seg 3 4 f4 _ (marshal_utf8_seg _ _ _ E4)
                eq_refl ltac:(lia) S4) as S3.
  pose proof (skips_field_seg 2 3 f3 _ (marshal_utf8_seg _ _ _ E3)
                eq_refl ltac:(lia) S3) as S2.
  pose proof (skips_field_seg 1 2 f2 _ (marshal_utf8_seg _ _ _ E2)
                eq_refl ltac:(lia) S2) as S1.
  unfold parse_fields.
  rewrite (optional_version_rt _ _ _ Hv E0). rsimpl.
  rewrite (optional_octets_rt 1 _ _ _ eq_refl E1 S1). rsimpl.
  rewrite (optional_string_rt 2 _ _ _ eq_refl E2 S2). rsimpl.
  rewrite (optional_string_rt 3 _ _ _ eq_refl E3 S3). rsimpl.
  rewrite (optional_string_rt 4 _ _ _ eq_refl E4 S4). rsimpl.
  rewrite (optional_string_rt 5 _ _ _ eq_refl E5 S5). rsimpl.
  rewrite (optional_octets_rt 6 _ _ _ eq_refl E6 S6). rsimpl.
  rewrite (optional_chain_rt 7 _ _ _ eq_refl E7 S7). rsimpl.
  rewrite (optional_string_rt 9 _ _ _ eq_refl E9 S9). rsimpl.
  by destruct pdu.
Qed.

(** ** What [Unmarshal] rejects *)

Lemma overruns_read_tlv bs : overruns bs = true -> read_tlv bs = None.
Proof.
  destruct bs as [|id [|b rest]]; [done| |].
  - intros _. unfold read_tlv. by destruct (high_tag id).
  - cbn [overruns]. unfold read_tlv, read_length.
    destruct (high_tag id); [done|].
    destruct (Byte.to_N b <? 128).
    + intros H%N.ltb_lt.
      by replace (length rest <? N.to_nat (Byte.to_N b))%nat with true
        by (symmetry; apply Nat.ltb_lt; lia).
    + set (k := N.to_nat (Byte.to_N b - 128)).
      destruct (k =? 0)%nat; [done|]. destruct (126 <? k)%nat; [done|].
      destruct (length rest <? k)%nat; [done|]. cbn [orb].
      intros H%N.ltb_lt.
      destruct (leading_zero (take k rest) || _); [done|].
      by replace (length (drop k rest) <? N.to_nat (be_dec (take k rest)))%nat
        with true by (symmetry; apply Nat.ltb_lt; lia).
Qed.

Lemma overrun_within_nil : ~ overrun_within [].
Proof. intros H. by inversion H. Qed.

Lemma overrun_within_inv bs id c rest :
  read_tlv bs = Some (id, c, rest) -> overrun_within bs ->
  overrun_within rest \/ (constructed id = true /\ overrun_within c).
Proof.
  intros Hr H. inversion H as [? Ho|? ? ? ? Hr' Hw|? ? ? ? Hr' Hc Hw]; subst.
  - rewrite overruns_read_tlv in Hr by done. done.
  - rewrite Hr in Hr'. injection Hr' as <- <- <-. by left.
  - rewrite Hr in Hr'. injection Hr' as <- <- <-. by right.
Qed.

Lemma bind_Ok {A B} (r : result A) (f : A -> result B) y :
  r ≫= f = Ok y -> exists x, r = Ok x /\ f x = Ok y.
Proof. destruct r as [x|e]; [|done]. rsimpl. eauto. Qed.

Lemma read_inner_Ok id w c :
  read_inner id w = Ok c -> read_tlv w = Some (id, c, []).
Proof.
  unfold read_inner. destruct (read_tlv w) as [[[id' c'] [|? ?]]|]; [|done..].
  destruct (decide (id' = id)) as [->|]; [|done]. by intros [= ->].
Qed.

Lemma read_inner_sound id w c :
  constructed id = false -> read_inner id w = Ok c -> ~ overrun_within w.
Proof.
  intros Hid Hr%read_inner_Ok Hw.
  destruct (overrun_within_inv _ _ _ _ Hr Hw) as [H|[H _]].
  - by apply overrun_within_nil in H.
  - by rewrite Hid in H.
Qed.

Lemma parse_version_sound w x : parse_version w = Ok x -> ~ overrun_within w.
Proof.
  intros (c & H & _)%bind_Ok. by apply (read_inner_sound id_integer w c).
Qed.

Lemma parse_octets_sound w x : parse_octets w = Ok x -> ~ overrun_within w.
Proof. by apply (read_inner_sound id_octet_string). Qed.

Lemma parse_utf8_sound w x : parse_utf8 w = Ok x -> ~ overrun_within w.
Proof.
  intros (c & H & _)%bind_Ok. by apply (read_inner_sound id_utf8_string w c).
Qed.

Lemma parse_octets_seq_sound fuel bs items :
  parse_octets_seq fuel bs = Ok items -> ~ overrun_within bs.
Proof.
  revert bs items. induction fuel as [|fuel IH]; intros bs items.
  - destruct bs; [intros _; apply overrun_within_nil|done].
  - destruct bs as [|b bs]; [intros _; apply overrun_within_nil|].
    cbn [parse_octets_seq].
    destruct (read_tlv (b :: bs)) as [[[id c] rest]|] eqn:Hr; [|done].
    destruct (decide (id = id_octet_string)) as [->|]; [|done].
    intros (cs & Hcs & _)%bind_Ok Hw.
    destruct (overrun_within_inv _ _ _ _ Hr Hw) as [H|[H _]]; [|done].
    by eapply IH.
Qed.

Lemma parse_chain_sound w x : parse_chain w = Ok x -> ~ overrun_within w.
Proof.
  intros (c & Hr%read_inner_Ok & Hs)%bind_Ok Hw.
  destruct (overrun_within_inv _ _ _ _ Hr Hw) as [H|[_ H]].
  - by apply overrun_within_nil in H.
  - by eapply parse_octets_seq_sound.
Qed.

Lemma optional_sound {A} tag (parse : bytes -> result A) bs v rest :
  (forall c x, parse c = Ok x -> ~ overrun_within c) ->
  optional tag parse bs = Ok (v, rest) ->
  ~ overrun_within rest -> ~ overrun_within bs.
Proof.
  intros Hp. unfold optional, take_field.
  destruct bs as [|b bs]; [by intros [= <- <-]|].
  destruct (read_tlv (b :: bs)) as [[[id c] r]|] eqn:Hr; [|done].
  destruct (decide (id = id_context tag)); rsimpl.
  - destruct (parse c) as [x|] eqn:Hc; [|done]. rsimpl.
    intros [= <- <-] Hrest Hw.
    destruct (overrun_within_inv _ _ _ _ Hr Hw) as [H|[_ H]]; [done|].
    by eapply Hp.
  - by intros [= <- <-].
Qed.

Lemma optional_string_sound tag bs s rest :
  optional_string tag bs = Ok (s, rest) ->
  ~ overrun_within rest -> ~ overrun_within bs.
Proof.
  intros ([v r] & Ho & [= <- <-])%bind_Ok.
  eapply optional_sound; [apply parse_utf8_sound|done].
Qed.

Lemma parse_fields_sound content pdu :
  parse_fields content = Ok pdu -> ~ overrun_within content.
Proof.
  unfold parse_fields.
  intros ([v r0] & H0 & H)%bind_Ok. destruct v as [version|]; [|done].
  apply bind_Ok in H as ([e r1] & H1 & H).
  apply bind_Ok in H as ([d r2] & H2 & H).
  apply bind_Ok in H as ([pa r3] & H3 & H).
  apply bind_Ok in H as ([sa r4] & H4 & H).
  apply bind_Ok in H as ([pb r5] & H5 & H).
  apply bind_Ok in H as ([x r6] & H6 & H).
  apply bind_Ok in H as ([ch r7] & H7 & H).
  apply bind_Ok in H as ([ad r9] & H9 & H).
  destruct r9; [|done].
  eapply optional_sound; [apply parse_version_sound|done|].
  eapply optional_sound; [apply parse_octets_sound|done|].
  eapply optional_string_sound; [done|].
  eapply optional_string_sound; [done|].
  eapply optional_string_sound; [done|].
  eapply optional_string_sound; [done|].
  eapply optional_sound; [apply parse_octets_sound|done|].
  eapply optional_sound; [apply parse_chain_sound|done|].
  eapply optional_string_sound; [done|].
  apply overrun_within_nil.
Qed.

Lemma Unmarshal_short bs : (length bs < 2)%nat -> Unmarshal bs = Err MalformedPDU.
Proof.
  intros Hlen. destruct bs as [|b [|b' bs]]; [done| |simpl in Hlen; lia].
  unfold Unmarshal, read_tlv. by destruct (high_tag b).
Qed.

Lemma Unmarshal_rejects bs : exceeds bs -> Unmarshal bs = Err MalformedPDU.
Proof.
  intros [Ho|(id & c & rest & Hr & Hw)]; unfold Unmarshal.
  - by rewrite overruns_read_tlv.
  - rewrite Hr. destruct (decide (id = id_sequence)); [|done].
    destruct (parse_fields c) as [pdu|[]] eqn:Hp; [|done].
    by apply parse_fields_sound in Hp.
Qed.

Lemma Unmarshal_first_byte b bs :
  b <> id_sequence -> Unmarshal (b :: bs) = Err MalformedPDU.
Proof.
  intros Hb. unfold Unmarshal.
  destruct (read_tlv (b :: bs)) as [[[id c] r]|] eqn:Hr; [|done].
  assert (id = b) as ->.
  { unfold read_tlv in Hr. destruct (high_tag b); [done|].
    destruct (read_length bs) as [[n bs2]|]; [|done].
    destruct (_ <? _)%nat; [done|]. by injection Hr as <- _ _. }
  by rewrite decide_False.
Qed.

(** ** When [Marshal] succeeds *)

Lemma lengthLength_small n : n < 2 ^ 64 -> (lengthLength n <= 8)%nat.
Proof.
  intros Hn. unfold lengthLength.
  destruct (N.eq_dec n 0) as [->|Hn0]; [vm_compute; lia|].
  assert (Hl : N.log2 n < 64) by (apply N.log2_lt_pow2; lia).
  assert (Hq : N.log2 n / 8 < 8) by (apply N.Div0.div_lt_upper_bound; lia).
  set (q := N.log2 n / 8) in *. lia.
Qed.

Lemma encode_length_length n :
  (length (encode_length n) <= 1 + lengthLength n)%nat.
Proof.
  unfold encode_length. destruct (n <? 128).
  - simpl. lia.
  - simpl. rewrite be_enc_length. lia.
Qed.

Lemma encode_tlv_small id c :
  N.of_nat (length c) < 2 ^ 64 ->
  exists out, encode_tlv id c = Some out
              /\ (length out <= length c + 10)%nat.
Proof.
  intros Hc. unfold encode_tlv.
  pose proof (lengthLength_small _ Hc) as Hk.
  replace (lengthLength (N.of_nat (length c)) <=? 126)%nat with true
    by (symmetry; apply Nat.leb_le; lia).
  eexists. split; [done|]. simpl. rewrite length_app.
  pose proof (encode_length_length (N.of_nat (length c))). lia.
Qed.

Lemma explicit_small tag id c :
  N.of_nat (length c) < 2 ^ 63 ->
  exists out, explicit tag (encode_tlv id c) = Some out
              /\ (length out <= length c + 20)%nat.
Proof.
  intros Hc.
  destruct (encode_tlv_small id c) as (w & Hw & Hlw); [lia|].
  destruct (encode_tlv_small (id_context tag) w) as (out & Ho & Hlo); [lia|].
  exists out. unfold explicit. rewrite Hw. cbn. split; [done|lia].
Qed.

Lemma marshal_octets_small tag v :
  N.of_nat (length (default [] v)) < 2 ^ 63 ->
  exists out, marshal_octets tag v = Some out
              /\ (length out <= length (default [] v) + 20)%nat.
Proof.
  intros Hv. destruct v as [bs|]; simpl in *.
  - by apply explicit_small.
  - exists []. split; [done|simpl; lia].
Qed.

Lemma marshal_utf8_small tag s :
  utf8_valid (list_byte_of_string s) = true ->
  N.of_nat (length (list_byte_of_string s)) < 2 ^ 63 ->
  exists out, marshal_utf8 tag s = Some out
              /\ (length out <= length (list_byte_of_string s) + 20)%nat.
Proof.
  intros Hu Hs. unfold marshal_utf8. case_decide.
  - exists []. split; [done|simpl; lia].
  - rewrite Hu. by apply explicit_small.
Qed.

Lemma marshal_octets_seq_small items :
  N.of_nat (chain_size items) < 2 ^ 63 ->
  exists out, marshal_octets_seq items = Some out
              /\ (length out <= chain_size items)%nat.
Proof.
  induction items as [|c cs IH]; intros Hs.
  - exists []. split; [done|simpl; lia].
  - cbn [chain_size fold_right] in Hs. fold (chain_size cs) in Hs.
    destruct IH as (r & Hr & Hlr); [lia|].
    destruct (encode_tlv_small id_octet_string c) as (e & He & Hle); [lia|].
    exists (e ++ r). cbn [marshal_octets_seq]. rewrite He, Hr. cbn.
    split; [done|]. rewrite length_app. fold (chain_size cs). lia.
Qed.

Lemma marshal_chain_small tag v :
  N.of_nat (chain_size (default [] v)) < 2 ^ 62 ->
  exists out, marshal_chain tag v = Some out
              /\ (length out <= chain_size (default [] v) + 20)%nat.
Proof.
  intros Hv. destruct v as [items|]; simpl in *.
  - destruct (marshal_octets_seq_small items) as (body & Hb & Hlb); [lia|].
    rewrite Hb. cbn. destruct (explicit_small tag id_sequence body)
      as (out & Ho & Hlo); [lia|].
    exists out. split; [done|lia].
  - exists []. split; [done|simpl; lia].
Qed.

Lemma int64Length_go_le f i : (int64Length_go f i <= S f)%nat.
Proof.
  revert i. induction f as [|f IH]; intros i; cbn [int64Length_go]; [lia|].
  destruct (_ || _); [|lia]. specialize (IH (Z.shiftr i 8)). lia.
Qed.

Lemma Marshal_defined pdu :
  valid_strings pdu = true ->
  N.of_nat (payload pdu) < 2 ^ 32 ->
  is_Some (Marshal pdu).
Proof.
  unfold valid_strings, payload.
  intros ((((H2 & H3)%andb_true_iff & H4)%andb_true_iff
           & H5)%andb_true_iff & H9)%andb_true_iff Hp.
  assert (H32 : (2 ^ 32 < 2 ^ 62)%N) by (vm_compute; done).
  destruct (explicit_small 0 id_integer (encode_int64 (Version pdu)))
    as (f0 & E0 & L0).
  { unfold encode_int64. rewrite be_enc_length.
    pose proof (int64Length_go_le 7 (Version pdu)). unfold int64Length. lia. }
  assert (L0' : (length f0 <= 28)%nat).
  { unfold encode_int64 in L0. rewrite be_enc_length in L0.
    pose proof (int64Length_go_le 7 (Version pdu)). unfold int64Length in L0.
    lia. }
  destruct (marshal_octets_small 1 (Error pdu)) as (f1 & E1 & L1); [lia|].
  destruct (marshal_utf8_small 2 (Destination pdu)) as (f2 & E2 & L2);
    [done|lia|].
  destruct (marshal_utf8_small 3 (ProxyAuth pdu)) as (f3 & E3 & L3);
    [done|lia|].
  destruct (marshal_utf8_small 4 (ServerAuth pdu)) as (f4 & E4 & L4);
    [done|lia|].
  destruct (marshal_utf8_small 5 (PreconnectionBlob pdu)) as (f5 & E5 & L5);
    [done|lia|].
  destruct (marshal_octets_small 6 (X224ConnectionPDU pdu)) as (f6 & E6 & L6);
    [lia|].
  destruct (marshal_chain_small 7 (ServerCertChain pdu)) as (f7 & E7 & L7);
    [lia|].
  destruct (marshal_utf8_small 9 (ServerAddr pdu)) as (f9 & E9 & L9);
    [done|lia|].
  unfold Marshal. unfold marshal_int64. rewrite E0, E1, E2, E3, E4, E5, E6, E7, E9.
  cbn [mbind option_bind].
  destruct (encode_tlv_small id_sequence
              (f0 ++ f1 ++ f2 ++ f3 ++ f4 ++ f5 ++ f6 ++ f7 ++ f9))
    as (out & Ho & _); [|by rewrite Ho].
  rewrite !length_app. lia.
Qed.

(** ** Round trip and rejection *)

(** C7 (counterexample).  The message with only its version and the
    same message with a destination that is present and empty are two
    valid messages with one encoding: what [Decode] gives back for the
    second is the first, so the empty string is conflated with the
    absent field.  [Decode] does the same to a buffer that carries the
    empty destination as a field of its own. *)
Lemma empty_string_decodes_as_absent :
  message_empty_destination <> message_bare
  /\ is_int64 (msgVersion message_empty_destination)
  /\ valid_strings (toPDU message_empty_destination) = true
  /\ Encode message_empty_destination = Encode message_bare
  /\ Decode <$> Encode message_empty_destination
     = Some (Ok ([], message_bare))
  /\ Decode [Byte.x30; Byte.x0a; Byte.xa0; Byte.x04; Byte.x02; Byte.x02;
             Byte.x0d; Byte.x3e; Byte.xa2; Byte.x02; Byte.x0c; Byte.x00]
     = Ok ([], message_bare).
Proof.
  split; [discriminate|]. split; [split; [discriminate|reflexivity]|].
  vm_compute. repeat split; reflexivity.
Qed.

Lemma present_default s :
  s <> Some EmptyString -> present (default EmptyString s) = s.
Proof.
  unfold present. destruct s as [s|]; cbn.
  - intros Hs. rewrite decide_False; [done|]. intros ->. by apply Hs.
  - intros _. by rewrite decide_True.
Qed.

Lemma ofPDU_toPDU m : no_empty_string m -> ofPDU (toPDU m) = m.
Proof.
  intros (H2 & H3 & H4 & H5 & H9). destruct m. unfold ofPDU, toPDU.
  cbn in *. by rewrite !present_default.
Qed.

Lemma Decode_Encode m data rest :
  is_int64 (msgVersion m) -> no_empty_string m ->
  Encode m = Some data -> Decode (data ++ rest) = Ok (rest, m).
Proof.
  intros Hv Hn He. unfold Decode.
  rewrite (Unmarshal_Marshal (toPDU m) data rest Hv He). rsimpl.
  by rewrite ofPDU_toPDU.
Qed.

(** C7 (amended).  For every message with an [int64] version in which
    no string field is present and empty: when its strings are valid
    UTF-8 and its fields hold less than 4 GiB it can be encoded; and
    whenever it can be encoded, decoding the encoding gives the message
    back, every optional field present or absent as it was and nothing
    left over; decoding ignores what follows the encoding; and no other
    such message has the same encoding.  The error, the initial payload
    and the certificate chain are under no such condition: absent and
    present but empty are told apart. *)
Theorem Decode_Encode_roundtrip m :
  is_int64 (msgVersion m) ->
  no_empty_string m ->
  (valid_strings (toPDU m) = true ->
   (N.of_nat (payload (toPDU m)) < 2 ^ 32)%N ->
   is_Some (Encode m))
  /\ (forall data,
        Encode m = Some data ->
        Decode data = Ok ([], m)
        /\ (forall rest, Decode (data ++ rest) = Ok (rest, m))
        /\ (forall m', is_int64 (msgVersion m') -> no_empty_string m' ->
              Encode m' = Some data -> m' = m)).
Proof.
  intros Hv Hn. split; [by apply Marshal_defined|].
  intros data Hm.
  assert (H0 : Decode data = Ok ([], m)).
  { rewrite <- (app_nil_r data). by apply Decode_Encode. }
  split; [done|]. split.
  - intros rest. by apply Decode_Encode.
  - intros m' Hv' Hn' Hm'.
    pose proof (Decode_Encode m' data [] Hv' Hn' Hm') as H1.
    rewrite app_nil_r, H0 in H1. by injection H1.
Qed.

Lemma message_full_int64 : is_int64 (msgVersion message_full).
Proof. unfold is_int64. cbn. lia. Defined.

Lemma message_full_no_empty_string : no_empty_string message_full.
Proof. repeat split; discriminate. Defined.

Lemma Decode_Encode_roundtrip_witness :
  is_Some (Encode message_full)
  /\ Decode (default [] (Encode message_full)) = Ok ([], message_full).
Proof.
  destruct (Decode_Encode_roundtrip message_full message_full_int64
              message_full_no_empty_string) as [Hdef Hrt].
  split.
  - apply Hdef; [reflexivity|]. vm_compute. reflexivity.
  - apply (Hrt (default [] (Encode message_full))). vm_compute. reflexivity.
Defined.

(** The encodings of a message with its certificate chain absent and
    with it present but empty differ and decode to different
    messages. *)
Lemma absent_chain_differs_from_empty_chain :
  let absent :=
    {| Version := 3390; Error := None; Destination := ""; ProxyAuth := "";
       ServerAuth := ""; PreconnectionBlob := ""; X224ConnectionPDU := None;
       ServerCertChain := None; ServerAddr := "" |} in
  let empty :=
    {| Version := 3390; Error := None; Destination := ""; ProxyAuth := "";
       ServerAuth := ""; PreconnectionBlob := ""; X224ConnectionPDU := None;
       ServerCertChain := Some []; ServerAddr := "" |} in
  Marshal absent <> Marshal empty
  /\ (Marshal absent ≫= fun d => Some (Unmarshal d)) = Some (Ok ([], absent))
  /\ (Marshal empty ≫= fun d => Some (Unmarshal d)) = Some (Ok ([], empty)).
Proof. vm_compute. repeat split; congruence. Qed.

(** C8. Decoding is a function from buffers to a message or the error
    [MalformedPDU], and it gives the error on every buffer shorter than
    two bytes and on every buffer in which a declared length exceeds the
    bytes that remain, at whatever depth: the length of the outer
    sequence, of a field, of the element a field wraps or of a
    certificate of the chain, its length octets cut short included. *)
Theorem Unmarshal_rejects_malformed bs :
  ((length bs < 2)%nat -> Unmarshal bs = Err MalformedPDU)
  /\ (exceeds bs -> Unmarshal bs = Err MalformedPDU).
Proof. split; [apply Unmarshal_short|apply Unmarshal_rejects]. Qed.

Lemma sample_truncated_certificate_exceeds :
  exceeds sample_truncated_certificate.
Proof.
  right. eexists _, _, _. split; [reflexivity|].
  eapply within_next; [reflexivity|].
  eapply within_inside; [reflexivity|reflexivity|].
  eapply within_inside; [reflexivity|reflexivity|].
  eapply within_next; [reflexivity|].
  apply within_here. reflexivity.
Defined.

Lemma sample_cut_length_exceeds : exceeds sample_cut_length.
Proof.
  right. eexists _, _, _. split; [reflexivity|].
  apply within_here. reflexivity.
Defined.

Lemma Unmarshal_rejects_malformed_witness :
  Unmarshal sample_truncated_certificate = Err MalformedPDU
  /\ Unmarshal sample_cut_length = Err MalformedPDU
  /\ Unmarshal [Byte.x30] = Err MalformedPDU.
Proof.
  split; [|split].
  - apply (proj2 (Unmarshal_rejects_malformed _)).
    apply sample_truncated_certificate_exceeds.
  - apply (proj2 (Unmarshal_rejects_malformed _)).
    apply sample_cut_length_exceeds.
  - apply (proj1 (Unmarshal_rejects_malformed _)). simpl. lia.
Defined.

(** * Properties of the handlers *)

Local Close Scope N_scope.
Local Open Scope string_scope.
Local Open Scope nat_scope.

Ltac run_step :=
  cbv [mbind mret Run_bind Run_ret getConn emit set_rdpConn set_tlsConn
       cancel delete_active dial write read handshake tlsWrite after installed];
  cbn [proxy session trace conn_id destination rdpConn tlsConn wsHandlers
       ctxDone fst snd negb fmap option_fmap option_map].

Ltac run_simpl := repeat progress run_step.

Lemma ws_payloads_app t1 t2 :
  ws_payloads (t1 ++ t2) = (ws_payloads t1 ++ ws_payloads t2)%list.
Proof. unfold ws_payloads. apply omap_app. Qed.

Lemma ws_payloads_ws_calls ws data :
  ws_payloads (ws_calls ws data) = if writable ws then [data] else [].
Proof.
  unfold ws_calls, writable. destruct (receiveFromGo ws); [done|].
  by destruct (send ws).
Qed.

Lemma ws_payloads_pdu_calls ws pdu :
  ws_payloads (pdu_calls ws pdu) = if writable ws then wire pdu else [].
Proof.
  unfold pdu_calls, wire. destruct (Marshal pdu).
  - apply ws_payloads_ws_calls.
  - by destruct (writable ws).
Qed.

Lemma after_nil w : after w (session w) [] = w.
Proof. destruct w. unfold after. cbn. by rewrite app_nil_r. Qed.

Lemma after_after w s1 es1 s2 es2 :
  after (after w s1 es1) s2 es2 = after w s2 (es1 ++ es2).
Proof. unfold after. cbn. by rewrite app_assoc. Qed.

Lemma sendToWebSocket_run data w :
  sendToWebSocket data w
  = (tt, after w (session w) (ws_calls (wsHandlers (session w)) data)).
Proof.
  unfold sendToWebSocket, ws_calls. run_simpl.
  destruct (receiveFromGo _); [done|]. destruct (send _); [done|].
  by rewrite <- (after_nil w) at 1.
Qed.

Lemma sendRDCleanPathPDU_run pdu w :
  sendRDCleanPathPDU pdu w
  = (tt, after w (session w) (pdu_calls (wsHandlers (session w)) pdu)).
Proof.
  unfold sendRDCleanPathPDU, pdu_calls. destruct (Marshal pdu).
  - apply sendToWebSocket_run.
  - run_simpl. by rewrite <- (after_nil w) at 1.
Qed.

Lemma sendRDCleanPathError_run msg w :
  sendRDCleanPathError msg w
  = (tt, after w (session w)
           (pdu_calls (wsHandlers (session w)) (errorPDU msg))).
Proof.
  unfold sendRDCleanPathError, pdu_calls. destruct (Marshal _).
  - apply sendToWebSocket_run.
  - run_simpl. by rewrite <- (after_nil w) at 1.
Qed.

Lemma cleanupConnection_run w :
  cleanupConnection w
  = (tt, {| proxy := {| activeConnections :=
                          delete (conn_id (session w))
                                 (activeConnections (proxy w));
                        destinations := destinations (proxy w) |};
            session := cleaned (session w);
            trace := (trace w ++ close_events (session w))%list |}).
Proof.
  unfold cleanupConnection, close_events, cleaned. run_simpl.
  destruct w as [p [i d r t h x] tr]. cbn.
  destruct t as [t|], r as [r|]; run_simpl;
    by rewrite <- ?app_assoc.
Qed.
Lemma fold_append_map certs (acc : option (list bytes)) :
  fold_left (fun certChain cert => append certChain (Raw cert)) certs acc
  = match certs with
    | [] => acc
    | _ => Some (elems acc ++ map Raw certs)%list
    end.
Proof.
  revert acc. induction certs as [|x xs IH]; intros acc; [done|].
  cbn [fold_left]. rewrite IH.
  destruct xs as [|y ys]; unfold append; cbn [elems map]; [done|].
  f_equal. by rewrite <- (app_assoc (elems acc)).
Qed.

Lemma peerChain_map certs :
  peerChain certs = if 0 <? length certs then Some (map Raw certs) else None.
Proof.
  unfold peerChain. rewrite fold_append_map. by destruct certs.
Qed.

Lemma peerChain_elems certs : elems (peerChain certs) = map Raw certs.
Proof. rewrite peerChain_map. by destruct certs. Qed.

Lemma forwardX224_run net c pdu w :
  forwardX224 net c pdu w =
    if 0 <? len (X224ConnectionPDU pdu) then
      if Write net c (elems (X224ConnectionPDU pdu)) then
        match Read net c with
        | Some data =>
            (inr (Some (take 1024 data)),
             after w (session w) (x224_events c pdu))
        | None =>
            (inl "Failed to read X.224 response",
             after w (session w) (x224_events c pdu))
        end
      else (inl "Failed to forward X.224",
            after w (session w) [EvWrite c (elems (X224ConnectionPDU pdu))])
    else (inr None, w).
Proof.
  unfold forwardX224, x224_events.
  destruct (0 <? len (X224ConnectionPDU pdu)); [|done].
  run_simpl. destruct (Write net c _); run_simpl; [|done].
  destruct (Read net c); run_simpl; by rewrite <- app_assoc.
Qed.

Lemma forwardX224_ok net c pdu w :
  x224_ok net c pdu ->
  forwardX224 net c pdu w
  = (inr (x224Response net c pdu), after w (session w) (x224_events c pdu)).
Proof.
  intros Hok. rewrite forwardX224_run. unfold x224Response, x224_events.
  unfold x224_ok in Hok.
  destruct (0 <? len (X224ConnectionPDU pdu)) eqn:Hlen.
  - apply Nat.ltb_lt in Hlen. destruct (Hok Hlen) as [-> Hr].
    by destruct (Read net c).
  - by rewrite after_nil.
Qed.

Lemma awaitDone_run w :
  awaitDone w =
    if ctxDone (session w)
    then (Returned, (cleanupConnection w).2)
    else (AwaitingDone, w).
Proof.
  unfold awaitDone. run_simpl. destruct (ctxDone (session w)); [|done].
  by destruct (cleanupConnection w).
Qed.

Lemma process_version_mismatch net pdu w :
  Version pdu <> RDCleanPathVersion ->
  processRDCleanPathPDU net pdu w
  = (Returned,
     after w (session w)
       (pdu_calls (wsHandlers (session w)) (errorPDU "Unsupported version"))).
Proof.
  intros Hv. unfold processRDCleanPathPDU. rewrite decide_True by done.
  run_simpl. by rewrite sendRDCleanPathError_run.
Qed.

Lemma process_dialed net pdu w :
  Version pdu = RDCleanPathVersion ->
  processRDCleanPathPDU net pdu w =
    let dest := effectiveDestination (session w) pdu in
    match Dial net (ctxDone (session w)) "tcp" dest with
    | None =>
        (Returned,
         (cleanupConnection
            (after w (session w)
               (EvDial "tcp" dest
                :: pdu_calls (wsHandlers (session w))
                     (errorPDU "Connection failed")))).2)
    | Some c =>
        (if HasSuffix dest ":3389"
         then setupTLSConnection net pdu
         else setupPlainConnection net pdu)
          (after w (installed (session w) (Some c) (tlsConn (session w)))
             [EvDial "tcp" dest])
    end.
Proof.
  intros Hv. unfold processRDCleanPathPDU. rewrite decide_False by tauto.
  run_simpl. fold (effectiveDestination (session w) pdu).
  cbn zeta.
  destruct (Dial net _ _ _) as [c|].
  - done.
  - rewrite sendRDCleanPathError_run. run_simpl.
    rewrite <- app_assoc.
    by destruct (cleanupConnection _).
Qed.
Lemma closed_app t1 t2 : closed (t1 ++ t2) = (closed t1 ++ closed t2)%list.
Proof. unfold closed. apply omap_app. Qed.

Lemma dialed_app t1 t2 : dialed (t1 ++ t2) = (dialed t1 ++ dialed t2)%list.
Proof. unfold dialed. apply omap_app. Qed.

Lemma ws_calls_quiet ws data :
  closed (ws_calls ws data) = [] /\ dialed (ws_calls ws data) = [].
Proof. unfold ws_calls. by destruct (receiveFromGo ws), (send ws). Qed.

Lemma pdu_calls_quiet ws pdu :
  closed (pdu_calls ws pdu) = [] /\ dialed (pdu_calls ws pdu) = [].
Proof. unfold pdu_calls. destruct (Marshal pdu); [apply ws_calls_quiet|done]. Qed.

Lemma x224_events_quiet c pdu :
  closed (x224_events c pdu) = [] /\ dialed (x224_events c pdu) = []
  /\ ws_payloads (x224_events c pdu) = [].
Proof. unfold x224_events. by destruct (0 <? _). Qed.

(** The X.224 exchange fails on connection [c]; [x224_failure] names the
    events it leaves and the error reported. *)
Lemma forwardX224_failed net c pdu w :
  0 < len (X224ConnectionPDU pdu) ->
  Write net c (elems (X224ConnectionPDU pdu)) = false \/ Read net c = None ->
  exists msg es,
    forwardX224 net c pdu w = (inl msg, after w (session w) es)
    /\ closed es = [] /\ dialed es = [] /\ ws_payloads es = [].
Proof.
  intros Hlen Hfail. rewrite forwardX224_run.
  apply Nat.ltb_lt in Hlen. rewrite Hlen. unfold x224_events. rewrite Hlen.
  destruct (Write net c _) eqn:Hw.
  - destruct Hfail as [|Hr]; [done|]. rewrite Hr. by eexists _, _.
  - by eexists _, _.
Qed.

Lemma setupTLS_x224_failed net pdu w c :
  rdpConn (session w) = Some c ->
  0 < len (X224ConnectionPDU pdu) ->
  Write net c (elems (X224ConnectionPDU pdu)) = false \/ Read net c = None ->
  exists msg es,
    setupTLSConnection net pdu w
    = (Returned,
       after w (session w)
         (es ++ pdu_calls (wsHandlers (session w)) (errorPDU msg)))
    /\ closed es = [] /\ dialed es = [] /\ ws_payloads es = [].
Proof.
  intros Hc Hlen Hfail. unfold setupTLSConnection. run_simpl. rewrite Hc.
  destruct (forwardX224_failed net c pdu w Hlen Hfail)
    as (msg & es & -> & Hes).
  exists msg, es. split; [|done].
  rewrite sendRDCleanPathError_run. run_simpl. by rewrite <- app_assoc.
Qed.

Lemma setupPlain_x224_failed net pdu w c :
  rdpConn (session w) = Some c ->
  0 < len (X224ConnectionPDU pdu) ->
  Write net c (elems (X224ConnectionPDU pdu)) = false \/ Read net c = None ->
  exists msg es,
    setupPlainConnection net pdu w
    = (Returned,
       after w (session w)
         (es ++ pdu_calls (wsHandlers (session w)) (errorPDU msg)))
    /\ closed es = [] /\ dialed es = [] /\ ws_payloads es = [].
Proof.
  intros Hc Hlen Hfail. unfold setupPlainConnection. run_simpl. rewrite Hc.
  destruct (forwardX224_failed net c pdu w Hlen Hfail)
    as (msg & es & -> & Hes).
  exists msg, es. split; [|done].
  rewrite sendRDCleanPathError_run. run_simpl. by rewrite <- app_assoc.
Qed.

Lemma setupTLS_handshake_failed net pdu w c :
  rdpConn (session w) = Some c ->
  x224_ok net c pdu ->
  Handshake net c = None ->
  setupTLSConnection net pdu w
  = (Returned,
     after w (installed (session w) (Some c) (Some c))
       (x224_events c pdu ++ EvHandshake c
        :: pdu_calls (wsHandlers (session w)) (errorPDU "TLS handshake failed"))).
Proof.
  intros Hc Hok Hh. unfold setupTLSConnection. run_simpl. rewrite Hc.
  rewrite forwardX224_ok by done. run_simpl. rewrite Hh, Hc.
  rewrite sendRDCleanPathError_run. run_simpl.
  by rewrite <- !app_assoc.
Qed.

Lemma setupTLS_established net pdu w c certs :
  rdpConn (session w) = Some c ->
  x224_ok net c pdu ->
  Handshake net c = Some certs ->
  setupTLSConnection net pdu w
  = awaitDone
      (after w (installed (session w) (Some c) (Some c))
         (x224_events c pdu ++ EvHandshake c
          :: pdu_calls (wsHandlers (session w))
               (tlsResponsePDU (session w) (x224Response net c pdu) certs)
          ++ [EvGo forwardTLSToWS])).
Proof.
  intros Hc Hok Hh. unfold setupTLSConnection. run_simpl. rewrite Hc.
  rewrite forwardX224_ok by done. run_simpl. rewrite Hh, Hc.
  rewrite sendRDCleanPathPDU_run. run_simpl.
  by rewrite <- !app_assoc.
Qed.

Lemma setupPlain_established net pdu w c :
  rdpConn (session w) = Some c ->
  x224_ok net c pdu ->
  setupPlainConnection net pdu w
  = awaitDone
      (after w (session w)
         (x224_events c pdu
          ++ pdu_calls (wsHandlers (session w))
               (plainResponsePDU (session w) (x224Response net c pdu))
          ++ [EvGo forwardTCPToWS])).
Proof.
  intros Hc Hok. unfold setupPlainConnection. run_simpl. rewrite Hc.
  rewrite forwardX224_ok by done. run_simpl.
  rewrite sendRDCleanPathPDU_run. run_simpl.
  by rewrite <- !app_assoc.
Qed.

(** [cleanupConnection] tears the session down, whatever its state: this
    is what a parked handler does once [onGoClose] has cancelled the
    context. *)
Lemma cleanupConnection_torn_down w :
  let w' := (cleanupConnection w).2 in
  torn_down w' /\ rdpConn (session w') = None /\ tlsConn (session w') = None.
Proof.
  rewrite cleanupConnection_run. unfold torn_down. cbn.
  by rewrite lookup_delete_eq.
Qed.

Lemma afterDone_torn_down w :
  let w' := (afterDone (onGoClose w).2).2 in
  torn_down w' /\ rdpConn (session w') = None /\ tlsConn (session w') = None.
Proof. apply cleanupConnection_torn_down. Qed.

(** ** The response PDU *)

Lemma ws_payloads_cons e t :
  ws_payloads (e :: t)
  = match e with
    | EvWsCall _ d => d :: ws_payloads t
    | _ => ws_payloads t
    end.
Proof. by destruct e. Qed.

Ltac payloads_simpl :=
  unfold tlsResponsePDU, plainResponsePDU;
  repeat (rewrite ?ws_payloads_app, ?ws_payloads_cons, ?ws_payloads_pdu_calls;
          cbn [app destination]);
  change (ws_payloads []) with (@nil bytes);
  rewrite ?app_nil_r.

Lemma ws_payloads_close_events s : ws_payloads (close_events s) = [].
Proof. unfold close_events. by destruct (tlsConn s), (rdpConn s). Qed.

Lemma dialed_close_events s : dialed (close_events s) = [].
Proof. unfold close_events. by destruct (tlsConn s), (rdpConn s). Qed.

Lemma awaitDone_payloads w :
  ws_payloads (trace (awaitDone w).2) = ws_payloads (trace w)
  /\ dialed (trace (awaitDone w).2) = dialed (trace w).
Proof.
  rewrite awaitDone_run. destruct (ctxDone (session w)); [|done].
  rewrite cleanupConnection_run. cbn [snd trace].
  rewrite ws_payloads_app, dialed_app, ws_payloads_close_events,
    dialed_close_events.
  by rewrite !app_nil_r.
Qed.

(** What the boundary decodes from the calls of [sendRDCleanPathPDU] is
    the PDU that was sent. *)
Lemma decoded_pdu_calls ws pdu :
  is_int64 (Version pdu) -> writable ws = true -> is_Some (Marshal pdu) ->
  decoded (pdu_calls ws pdu) = [pdu].
Proof.
  intros Hv Hw [data Hm]. unfold decoded.
  rewrite ws_payloads_pdu_calls, Hw. unfold wire. rewrite Hm.
  cbn [omap list_omap].
  pose proof (Unmarshal_Marshal pdu data [] Hv Hm) as Hu.
  rewrite app_nil_r in Hu. by rewrite Hu.
Qed.

Lemma handle_first_pdu net data rest pdu w :
  rdpConn (session w) = None -> tlsConn (session w) = None ->
  Unmarshal data = Ok (rest, pdu) ->
  handleWebSocketMessage net (JsUint8Array data) w
  = processRDCleanPathPDU net pdu w.
Proof.
  intros Hc Ht Hu. unfold handleWebSocketMessage. run_simpl.
  by rewrite Hc, Ht, Hu.
Qed.

(** C1. TLS path: when the dial succeeds, the X.224 exchange goes through
    and the remote completes the handshake presenting [certs], what the
    boundary receives is the encoding of one response PDU, whose
    [ServerCertChain] holds the [Raw] bytes of the certificates, as many
    as presented and in the order presented (leaf first), under a present
    field when there is at least one.  Plain path: whatever the remote
    does after the dial, what the boundary receives is the encoding of
    one PDU without [ServerCertChain]. *)
Theorem response_cert_chain net pdu w c :
  Version pdu = RDCleanPathVersion ->
  Dial net (ctxDone (session w)) "tcp" (effectiveDestination (session w) pdu)
    = Some c ->
  let w' := (processRDCleanPathPDU net pdu w).2 in
  let ws := wsHandlers (session w) in
  (HasSuffix (effectiveDestination (session w) pdu) ":3389" = true ->
   x224_ok net c pdu ->
   forall certs, Handshake net c = Some certs ->
     let resp := tlsResponsePDU (session w) (x224Response net c pdu) certs in
     ws_payloads (trace w')
     = (ws_payloads (trace w) ++ if writable ws then wire resp else [])%list
     /\ elems (ServerCertChain resp) = map Raw certs
     /\ length (elems (ServerCertChain resp)) = length certs
     /\ (certs <> [] -> ServerCertChain resp = Some (map Raw certs)))
  /\ (HasSuffix (effectiveDestination (session w) pdu) ":3389" = false ->
      exists resp,
        ServerCertChain resp = None
        /\ ws_payloads (trace w')
           = (ws_payloads (trace w) ++ if writable ws then wire resp else [])%list).
Proof.
  intros Hv Hd w' ws. subst w'.
  rewrite process_dialed by done. cbn zeta. rewrite Hd.
  set (w1 := after w _ _).
  assert (Hc1 : rdpConn (session w1) = Some c) by done.
  split.
  - intros -> Hok certs Hh.
    rewrite (setupTLS_established net pdu w1 c certs) by done.
    destruct (awaitDone_payloads
      (after w1 (installed (session w1) (Some c) (Some c))
         (x224_events c pdu ++ EvHandshake c
          :: pdu_calls (wsHandlers (session w1))
               (tlsResponsePDU (session w1) (x224Response net c pdu) certs)
          ++ [EvGo forwardTLSToWS]))) as [-> _].
    split.
    + unfold w1. run_simpl.
      destruct (x224_events_quiet c pdu) as (_ & _ & Hq).
      payloads_simpl. by rewrite Hq.
    + cbn [ServerCertChain tlsResponsePDU].
      rewrite peerChain_elems, length_map. repeat split.
      intros Hne. rewrite peerChain_map. by destruct certs.
  - intros ->.
    destruct (decide (0 < len (X224ConnectionPDU pdu)
                      /\ (Write net c (elems (X224ConnectionPDU pdu)) = false
                          \/ Read net c = None))) as [[Hlen Hfail]|Hok].
    + destruct (setupPlain_x224_failed net pdu w1 c Hc1 Hlen Hfail)
        as (msg & es & -> & _ & _ & Hes).
      exists (errorPDU msg). split; [done|].
      unfold w1. run_simpl.
      payloads_simpl. by rewrite Hes.
    + assert (Hok' : x224_ok net c pdu).
      { intros Hlen. destruct (Write net c _) eqn:Hw.
        - split; [done|]. intros Hr. apply Hok. tauto.
        - exfalso. apply Hok. tauto. }
      rewrite (setupPlain_established net pdu w1 c) by done.
      destruct (awaitDone_payloads
        (after w1 (session w1)
           (x224_events c pdu
            ++ pdu_calls (wsHandlers (session w1))
                 (plainResponsePDU (session w1) (x224Response net c pdu))
            ++ [EvGo forwardTCPToWS]))) as [-> _].
      exists (plainResponsePDU (session w) (x224Response net c pdu)).
      split; [done|].
      unfold w1. run_simpl.
      destruct (x224_events_quiet c pdu) as (_ & _ & Hq).
      payloads_simpl. by rewrite Hq.
Qed.

Lemma sample_x224_ok : x224_ok sample_remote 7 sample_request.
Proof. intros _. split; [reflexivity|discriminate]. Defined.

Lemma response_cert_chain_witness :
  (let w' := (processRDCleanPathPDU sample_remote sample_request sample_world).2 in
   ServerCertChain <$> decoded (trace w')
   = [Some [Raw sample_cert_leaf; Raw sample_cert_ca]])
  /\ (let w' := (processRDCleanPathPDU sample_remote sample_request
                   sample_plain_world).2 in
      exists resp,
        ServerCertChain resp = None /\ ws_payloads (trace w') = wire resp).
Proof.
  split.
  - destruct (response_cert_chain sample_remote sample_request sample_world 7
                eq_refl eq_refl) as [Htls _].
    destruct (Htls eq_refl sample_x224_ok _ eq_refl) as (Hp & _).
    cbn zeta. unfold decoded. rewrite Hp. vm_compute. reflexivity.
  - destruct (response_cert_chain sample_remote sample_request
                sample_plain_world 7 eq_refl eq_refl) as [_ Hplain].
    destruct (Hplain eq_refl) as (resp & Hchain & Hp).
    cbn zeta. exists resp. split; [exact Hchain|]. rewrite Hp. reflexivity.
Defined.

(** ** Version mismatch *)

Lemma version_mismatch_run net data rest pdu w :
  rdpConn (session w) = None -> tlsConn (session w) = None ->
  Unmarshal data = Ok (rest, pdu) ->
  Version pdu <> RDCleanPathVersion ->
  handleWebSocketMessage net (JsUint8Array data) w
  = (Returned,
     after w (session w)
       (pdu_calls (wsHandlers (session w)) (errorPDU "Unsupported version"))).
Proof.
  intros Hc Ht Hu Hv. rewrite (handle_first_pdu _ _ rest pdu) by done.
  by apply process_version_mismatch.
Qed.

(** C2 (the code at the failing input).  The first message of the sample
    session is a PDU of version 3391: the boundary receives one error
    PDU and nothing is dialed, but the handler returns with the session
    still registered and its context not cancelled. *)
Theorem version_mismatch_keeps_session :
  let data := default [] (Marshal sample_request_next_version) in
  let r := handleWebSocketMessage sample_remote (JsUint8Array data) sample_world in
  r.1 = Returned
  /\ decoded (trace r.2) = [errorPDU "Unsupported version"]
  /\ dialed (trace r.2) = []
  /\ activeConnections (proxy r.2) !! "proxy_0" = Some 1
  /\ ctxDone (session r.2) = false
  /\ ~ torn_down r.2.
Proof.
  cbn zeta.
  rewrite (version_mismatch_run sample_remote _ [] sample_request_next_version)
    by (vm_compute; (reflexivity || discriminate)).
  repeat split; try (vm_compute; reflexivity).
  intros [H _]. vm_compute in H. discriminate.
Qed.

(** ** The address echoed in the response *)

Lemma dialed_cons e t :
  dialed (e :: t)
  = match e with
    | EvDial _ a => a :: dialed t
    | _ => dialed t
    end.
Proof. by destruct e. Qed.

Lemma closed_cons e t :
  closed (e :: t)
  = match e with
    | EvClose c => c :: closed t
    | EvTlsClose c => c :: closed t
    | _ => closed t
    end.
Proof. by destruct e. Qed.

Lemma tls_established_dialed net pdu w c certs :
  Version pdu = RDCleanPathVersion ->
  Dial net (ctxDone (session w)) "tcp" (effectiveDestination (session w) pdu)
    = Some c ->
  HasSuffix (effectiveDestination (session w) pdu) ":3389" = true ->
  x224_ok net c pdu ->
  Handshake net c = Some certs ->
  dialed (trace (processRDCleanPathPDU net pdu w).2)
  = (dialed (trace w) ++ [effectiveDestination (session w) pdu])%list.
Proof.
  intros Hv Hd Hs Hok Hh.
  rewrite process_dialed by done. cbn zeta. rewrite Hd, Hs.
  set (w1 := after w _ _).
  rewrite (setupTLS_established net pdu w1 c certs) by done.
  match goal with |- dialed (trace (awaitDone ?x).2) = _ =>
    destruct (awaitDone_payloads x) as [_ ->] end.
  unfold w1. run_simpl.
  destruct (x224_events_quiet c pdu) as (_ & Hq & _).
  repeat (rewrite ?dialed_app, ?dialed_cons, ?Hq,
            ?(proj2 (pdu_calls_quiet _ _)); cbn [app]).
  change (dialed []) with (@nil string). by rewrite ?app_nil_r.
Qed.

(** C3 (the code at the failing input).  The sample session is
    registered for ["host:3389"] and its first PDU asks for
    ["other:3389"]: the handler dials ["other:3389"], completes the
    handshake there, and answers with [ServerAddr = "host:3389"], an
    address it never dialed. *)
Theorem server_addr_ignores_override :
  let w' := (processRDCleanPathPDU sample_remote sample_request_other
               sample_world).2 in
  effectiveDestination (session sample_world) sample_request_other = "other:3389"
  /\ dialed (trace w') = ["other:3389"]
  /\ ServerAddr <$> decoded (trace w') = ["host:3389"]
  /\ ServerCertChain <$> decoded (trace w')
     = [Some [Raw sample_cert_leaf; Raw sample_cert_ca]].
Proof. vm_compute. repeat split; reflexivity. Qed.

(** ** Failures after the dial *)

(** After a successful dial, a failed X.224 exchange or a failed
    handshake ends the handler with the dialed connection still
    installed, nothing closed, the registry and the context as they
    were. *)
Lemma failed_step_skips_cleanup net pdu w c :
  Version pdu = RDCleanPathVersion ->
  Dial net (ctxDone (session w)) "tcp" (effectiveDestination (session w) pdu)
    = Some c ->
  (0 < len (X224ConnectionPDU pdu)
   /\ (Write net c (elems (X224ConnectionPDU pdu)) = false \/ Read net c = None))
  \/ (HasSuffix (effectiveDestination (session w) pdu) ":3389" = true
      /\ x224_ok net c pdu /\ Handshake net c = None) ->
  let r := processRDCleanPathPDU net pdu w in
  r.1 = Returned
  /\ rdpConn (session r.2) = Some c
  /\ closed (trace r.2) = closed (trace w)
  /\ proxy r.2 = proxy w
  /\ ctxDone (session r.2) = ctxDone (session w).
Proof.
  intros Hv Hd Hfail r. subst r.
  rewrite process_dialed by done. cbn zeta. rewrite Hd.
  set (w1 := after w _ _).
  assert (Hc1 : rdpConn (session w1) = Some c) by done.
  assert (Hcl : closed (trace w1) = closed (trace w)).
  { unfold w1. run_simpl. rewrite closed_app. cbn. by rewrite app_nil_r. }
  destruct Hfail as [[Hlen Hx]|(Hs & Hok & Hh)].
  - destruct (HasSuffix _ _).
    + destruct (setupTLS_x224_failed net pdu w1 c Hc1 Hlen Hx)
        as (msg & es & -> & Hes & _).
      cbn [fst snd after session proxy trace]. repeat split; try done.
      rewrite !closed_app, Hes, (proj1 (pdu_calls_quiet _ _)), Hcl.
      by rewrite !app_nil_r.
    + destruct (setupPlain_x224_failed net pdu w1 c Hc1 Hlen Hx)
        as (msg & es & -> & Hes & _).
      cbn [fst snd after session proxy trace]. repeat split; try done.
      rewrite !closed_app, Hes, (proj1 (pdu_calls_quiet _ _)), Hcl.
      by rewrite !app_nil_r.
  - rewrite Hs, (setupTLS_handshake_failed net pdu w1 c) by done.
    cbn [fst snd after session proxy trace]. repeat split; try done.
    rewrite !closed_app, closed_cons, (proj1 (x224_events_quiet _ _)),
      (proj1 (pdu_calls_quiet _ _)), Hcl.
    by rewrite !app_nil_r.
Qed.

(** C4 (the code at the failing input).  The remote of the sample
    session accepts the connection and the X.224 request, then fails
    the TLS handshake: the handler reports the error and returns; the
    dialed connection 7 is still installed and was never closed, the
    registry still holds the session, its context is not cancelled. *)
Theorem failed_handshake_leaks_connection :
  let r := processRDCleanPathPDU sample_remote_no_tls sample_request
             sample_world in
  r.1 = Returned
  /\ decoded (trace r.2) = [errorPDU "TLS handshake failed"]
  /\ rdpConn (session r.2) = Some 7
  /\ closed (trace r.2) = []
  /\ activeConnections (proxy r.2) !! "proxy_0" = Some 1
  /\ ctxDone (session r.2) = false
  /\ ~ torn_down r.2.
Proof.
  cbn zeta.
  destruct (failed_step_skips_cleanup sample_remote_no_tls sample_request
              sample_world 7 eq_refl eq_refl) as (H1 & H2 & H3 & H4 & H5).
  { right. split; [reflexivity|]. split; [|reflexivity].
    intros _. split; [reflexivity|discriminate]. }
  split; [done|]. split; [vm_compute; reflexivity|]. split; [done|].
  split; [by rewrite H3|]. rewrite H4, H5.
  split; [vm_compute; reflexivity|]. split; [reflexivity|].
  intros [H _]. rewrite H4 in H. vm_compute in H. discriminate.
Qed.

(** ** Messages that are not PDUs *)

Lemma handle_direct net data e w :
  rdpConn (session w) = None -> tlsConn (session w) = None ->
  Unmarshal data = Err e ->
  head data = Some Byte.x03 ->
  handleWebSocketMessage net (JsUint8Array data) w = handleDirectRDP net data w.
Proof.
  intros Hc Ht Hu Hh. unfold handleWebSocketMessage. run_simpl.
  rewrite Hc, Ht, Hu, Hh. by destruct data.
Qed.

Lemma handleDirectRDP_run net data w :
  handleDirectRDP net data w
  = (Returned, (cleanupConnection (handleDirectRDP_body net data w).2).2).
Proof.
  unfold handleDirectRDP. run_simpl.
  destruct (handleDirectRDP_body net data w) as [u w1]. run_simpl.
  by destruct (cleanupConnection w1).
Qed.

Lemma handleDirectRDP_body_run net data w :
  (handleDirectRDP_body net data w).2 =
    let dest := destination (session w) in
    match Dial net (ctxDone (session w)) "tcp" dest with
    | None => after w (session w) [EvDial "tcp" dest]
    | Some c =>
        let s := installed (session w) (Some c) (tlsConn (session w)) in
        if Write net c data then
          match Read net c with
          | Some response =>
              after w s
                ([EvDial "tcp" dest; EvWrite c data; EvRead c 1024]
                 ++ ws_calls (wsHandlers (session w)) (take 1024 response)
                 ++ [EvGo forwardWSToTCP; EvGo forwardTCPToWS])
          | None =>
              after w s [EvDial "tcp" dest; EvWrite c data; EvRead c 1024]
          end
        else after w s [EvDial "tcp" dest; EvWrite c data]
    end.
Proof.
  unfold handleDirectRDP_body. run_simpl. cbn zeta.
  destruct (Dial net _ _ _) as [c|]; run_simpl; [|done].
  destruct (Write net c data); run_simpl; [|by rewrite <- !app_assoc].
  destruct (Read net c) as [response|]; run_simpl;
    [|by rewrite <- !app_assoc].
  rewrite sendToWebSocket_run. run_simpl. by rewrite <- !app_assoc.
Qed.

(** Direct mode, whatever the remote does: the first effect is the dial
    of the session's destination, nothing else is dialed, and the
    boundary receives nothing but, at most, the bytes of the remote's
    first response: no PDU.  When the dial, the write and the read
    succeed, the effects are, in order: the dial, one write of the
    message as received, one read of at most 1024 bytes, the relay of
    what was read to the boundary, the start of the two forwarders, and
    then the deferred cleanup. *)
Lemma direct_mode net data e w :
  rdpConn (session w) = None -> tlsConn (session w) = None ->
  Unmarshal data = Err e ->
  head data = Some Byte.x03 ->
  let r := handleWebSocketMessage net (JsUint8Array data) w in
  let dest := destination (session w) in
  (exists es,
     trace r.2 = (trace w ++ EvDial "tcp" dest :: es)%list
     /\ dialed es = []
     /\ (ws_payloads es = []
         \/ exists c response,
              Read net c = Some response
              /\ (length (take 1024 response) <= 1024)
              /\ ws_payloads es
                 = if writable (wsHandlers (session w))
                   then [take 1024 response] else []))
  /\ (forall c response,
        Dial net (ctxDone (session w)) "tcp" dest = Some c ->
        Write net c data = true ->
        Read net c = Some response ->
        trace r.2
        = (trace w
           ++ [EvDial "tcp" dest; EvWrite c data; EvRead c 1024]
           ++ ws_calls (wsHandlers (session w)) (take 1024 response)
           ++ [EvGo forwardWSToTCP; EvGo forwardTCPToWS]
           ++ [EvCancel; EvClose c])%list).
Proof.
  intros Hc Ht Hu Hh r dest. subst r.
  rewrite (handle_direct net data e w), handleDirectRDP_run by done.
  rewrite cleanupConnection_run, handleDirectRDP_body_run.
  cbn zeta. fold dest. cbn [snd trace].
  split.
  - destruct (Dial net _ _ _) as [c|].
    + destruct (Write net c data).
      * destruct (Read net c) as [response|] eqn:Hr.
        -- eexists. split.
           { run_simpl. rewrite Ht. cbn [close_events rdpConn tlsConn app].
             rewrite <- app_assoc. cbn [app]. reflexivity. }
           split.
           { repeat (rewrite ?dialed_app, ?dialed_cons,
                       ?(proj2 (ws_calls_quiet _ _)); cbn [app]). done. }
           right. exists c, response. split; [done|].
           split; [rewrite length_take; lia|].
           repeat (rewrite ?ws_payloads_app, ?ws_payloads_cons,
                     ?ws_payloads_ws_calls; cbn [app]).
           rewrite ws_payloads_close_events.
           change (ws_payloads []) with (@nil bytes). by rewrite !app_nil_r.
        -- eexists. split.
           { run_simpl. rewrite Ht. cbn [close_events rdpConn tlsConn app].
             rewrite <- app_assoc. cbn [app]. reflexivity. }
           split; [done|]. by left.
      * eexists. split.
        { run_simpl. rewrite Ht. cbn [close_events rdpConn tlsConn app].
          rewrite <- app_assoc. cbn [app]. reflexivity. }
        split; [done|]. by left.
    + eexists. split.
      { run_simpl. unfold close_events. rewrite Ht, Hc. cbn [app].
        rewrite <- app_assoc. cbn [app]. reflexivity. }
      split; [done|]. by left.
  - intros c response -> -> ->.
    run_simpl. unfold close_events. rewrite Ht. cbn [rdpConn tlsConn].
    by repeat (rewrite <- ?app_assoc; cbn [app]).
Qed.

(** A first message that fails to decode and does not begin with byte
    0x03 is dropped: the handler returns and the world is as it was. *)
Lemma malformed_message_dropped net data e w :
  rdpConn (session w) = None -> tlsConn (session w) = None ->
  Unmarshal data = Err e ->
  head data <> Some Byte.x03 ->
  handleWebSocketMessage net (JsUint8Array data) w = (Returned, w).
Proof.
  intros Hc Ht Hu Hh. unfold handleWebSocketMessage. run_simpl.
  rewrite Hc, Ht, Hu. cbn [bool_decide orb].
  rewrite (bool_decide_eq_false_2 _ Hh). by rewrite andb_false_r.
Qed.

(** C6 (the code at the failing input).  The first message of the sample
    session is the single byte 0xff: it does not decode and does not
    begin with 0x03.  The handler returns without a reply and without
    any cleanup: nothing is closed, the session is still registered and
    its context is not cancelled. *)
Theorem malformed_message_not_torn_down :
  let data := [Byte.xff] in
  let r := handleWebSocketMessage sample_remote (JsUint8Array data)
             sample_world in
  rdpConn (session sample_world) = None
  /\ tlsConn (session sample_world) = None
  /\ Unmarshal data = Err MalformedPDU
  /\ head data <> Some Byte.x03
  /\ r.1 = Returned
  /\ ws_payloads (trace r.2) = []
  /\ closed (trace r.2) = []
  /\ activeConnections (proxy r.2) !! conn_id (session r.2) = Some 1
  /\ ctxDone (session r.2) = false
  /\ ~ torn_down r.2.
Proof.
  cbn zeta. repeat split; try (vm_compute; (reflexivity || discriminate)).
  intros [H _]. vm_compute in H. discriminate.
Qed.

(** ** Proxy ids *)

(** [createProxy] leaves [activeConnections] alone, so a second call
    without a WebSocket attached in between computes the same id. *)
Lemma createProxy_same_id args1 args2 p :
  (createProxy args2 (createProxy args1 p).2).1 = (createProxy args1 p).1.
Proof. reflexivity. Qed.

(** C9 (the code at the failing input).  Two calls of [createProxy] on a
    new proxy, for ["a:1"] and for ["b:2"], resolve to the same URL, that
    of id ["proxy_0"], and the second call replaces the destination the
    first one registered under that id. *)
Theorem createProxy_ids_collide :
  let r1 := createProxy [JsString "a"; JsString "1"] NewRDCleanPathProxy in
  let r2 := createProxy [JsString "b"; JsString "2"] r1.2 in
  r1.1 = "ws://rdcleanpath.proxy.local/proxy_0"
  /\ r2.1 = r1.1
  /\ destinations r1.2 ≫= (.!! "proxy_0") = Some "a:1"
  /\ destinations r2.2 ≫= (.!! "proxy_0") = Some "b:2".
Proof. vm_compute. repeat split; reflexivity. Qed.

(** ** Messages after the handles are installed *)

Lemma forwardToRDP_tls net data w t :
  tlsConn (session w) = Some t ->
  forwardToRDP net data w = (tt, after w (session w) [EvTlsWrite t data]).
Proof.
  intros Ht. unfold forwardToRDP. run_simpl. by rewrite Ht.
Qed.

Lemma forwardToRDP_tcp net data w c :
  tlsConn (session w) = None -> rdpConn (session w) = Some c ->
  forwardToRDP net data w = (tt, after w (session w) [EvWrite c data]).
Proof.
  intros Ht Hc. unfold forwardToRDP. run_simpl. by rewrite Ht, Hc.
Qed.

Lemma handle_installed net data w :
  rdpConn (session w) <> None \/ tlsConn (session w) <> None ->
  handleWebSocketMessage net (JsUint8Array data) w
  = (Returned, (forwardToRDP net data w).2).
Proof.
  intros H. unfold handleWebSocketMessage. run_simpl.
  replace (bool_decide (rdpConn (session w) <> None)
           || bool_decide (tlsConn (session w) <> None)) with true.
  - by destruct (forwardToRDP net data w).
  - symmetry. apply orb_true_iff.
    destruct H; [left|right]; by apply bool_decide_eq_true.
Qed.

Lemma handleMessages_tls net msgs w t :
  tlsConn (session w) = Some t ->
  handleMessages net msgs w
  = (tt, after w (session w) (EvTlsWrite t <$> msgs)).
Proof.
  revert w. induction msgs as [|m ms IH]; intros w Ht.
  - cbn. by rewrite after_nil.
  - cbn [handleMessages]. run_simpl.
    rewrite handle_installed by (right; by rewrite Ht).
    rewrite (forwardToRDP_tls _ _ _ t) by done. cbn [snd].
    rewrite IH by done. by rewrite after_after.
Qed.

(** C10. In a session whose TCP and TLS handles are both installed,
    every message from the boundary is written to the TLS connection,
    one write per message and in order, and nothing else happens: no
    write to the TCP connection, no decoding, no reply.  As soon as
    either handle is installed a message is handed to [forwardToRDP]
    without being decoded; with the TCP handle alone it is written to
    the TCP connection. *)
Theorem forward_after_handshake net w :
  (forall c t msgs,
     rdpConn (session w) = Some c -> tlsConn (session w) = Some t ->
     handleMessages net msgs w
     = (tt, after w (session w) (EvTlsWrite t <$> msgs)))
  /\ (forall data,
        rdpConn (session w) <> None \/ tlsConn (session w) <> None ->
        handleWebSocketMessage net (JsUint8Array data) w
        = (Returned, (forwardToRDP net data w).2))
  /\ (forall c data,
        rdpConn (session w) = Some c -> tlsConn (session w) = None ->
        handleWebSocketMessage net (JsUint8Array data) w
        = (Returned, after w (session w) [EvWrite c data])).
Proof.
  split; [|split].
  - intros c t msgs _ Ht. by apply handleMessages_tls.
  - intros data. apply handle_installed.
  - intros c data Hc Ht. rewrite handle_installed by (left; by rewrite Hc).
    by rewrite (forwardToRDP_tcp _ _ _ c).
Qed.

Lemma forward_after_handshake_witness :
  let w := (processRDCleanPathPDU sample_remote sample_request sample_world).2 in
  ws_payloads (trace w) <> []
  /\ (handleMessages sample_remote [sample_x224_request; sample_x224_confirm] w).2
     = after w (session w)
         [EvTlsWrite 7 sample_x224_request; EvTlsWrite 7 sample_x224_confirm].
Proof.
  cbn zeta. split; [vm_compute; discriminate|].
  rewrite (proj1 (forward_after_handshake sample_remote
                    (processRDCleanPathPDU sample_remote sample_request
                       sample_world).2)
             7 7 [sample_x224_request; sample_x224_confirm] eq_refl eq_refl).
  reflexivity.
Defined.

(** * More properties of the handlers *)

(** ** Reading a trace *)

Lemma handshakes_app t1 t2 :
  handshakes (t1 ++ t2) = (handshakes t1 ++ handshakes t2)%list.
Proof. unfold handshakes. apply omap_app. Qed.

Lemma started_app t1 t2 : started (t1 ++ t2) = (started t1 ++ started t2)%list.
Proof. unfold started. apply omap_app. Qed.

Lemma written_app t1 t2 : written (t1 ++ t2) = (written t1 ++ written t2)%list.
Proof. unfold written. apply omap_app. Qed.

Lemma handshakes_cons e t :
  handshakes (e :: t)
  = match e with EvHandshake c => c :: handshakes t | _ => handshakes t end.
Proof. by destruct e. Qed.

Lemma started_cons e t :
  started (e :: t) = match e with EvGo k => k :: started t | _ => started t end.
Proof. by destruct e. Qed.

Lemma written_cons e t :
  written (e :: t)
  = match e with
    | EvWrite _ d => d :: written t
    | EvTlsWrite _ d => d :: written t
    | _ => written t
    end.
Proof. by destruct e. Qed.

Lemma ws_calls_silent ws data :
  handshakes (ws_calls ws data) = [] /\ started (ws_calls ws data) = []
  /\ written (ws_calls ws data) = [].
Proof. unfold ws_calls. by destruct (receiveFromGo ws), (send ws). Qed.

Lemma pdu_calls_silent ws pdu :
  handshakes (pdu_calls ws pdu) = [] /\ started (pdu_calls ws pdu) = []
  /\ written (pdu_calls ws pdu) = [].
Proof. unfold pdu_calls. destruct (Marshal pdu); [apply ws_calls_silent|done]. Qed.

Lemma x224_events_silent c pdu :
  handshakes (x224_events c pdu) = [] /\ started (x224_events c pdu) = [].
Proof. unfold x224_events. by destruct (0 <? _). Qed.

Lemma close_events_silent s :
  handshakes (close_events s) = [] /\ started (close_events s) = []
  /\ written (close_events s) = [].
Proof. unfold close_events. by destruct (tlsConn s), (rdpConn s). Qed.

Lemma closed_close_events s : closed (close_events s) = handles s.
Proof. unfold close_events, handles. by destruct (tlsConn s), (rdpConn s). Qed.

(** Rewriting a reader through a trace built from the blocks of events
    the handlers leave. *)
Ltac readers :=
  repeat (rewrite ?ws_payloads_app, ?dialed_app, ?closed_app, ?handshakes_app,
            ?started_app, ?written_app,
            ?ws_payloads_cons, ?dialed_cons, ?closed_cons, ?handshakes_cons,
            ?started_cons, ?written_cons,
            ?ws_payloads_pdu_calls, ?ws_payloads_ws_calls,
            ?ws_payloads_close_events, ?dialed_close_events,
            ?closed_close_events,
            ?(proj1 (ws_calls_quiet _ _)), ?(proj2 (ws_calls_quiet _ _)),
            ?(proj1 (pdu_calls_quiet _ _)), ?(proj2 (pdu_calls_quiet _ _)),
            ?(proj1 (x224_events_quiet _ _)),
            ?(proj1 (proj2 (x224_events_quiet _ _))),
            ?(proj2 (proj2 (x224_events_quiet _ _))),
            ?(proj1 (ws_calls_silent _ _)),
            ?(proj1 (proj2 (ws_calls_silent _ _))),
            ?(proj2 (proj2 (ws_calls_silent _ _))),
            ?(proj1 (pdu_calls_silent _ _)),
            ?(proj1 (proj2 (pdu_calls_silent _ _))),
            ?(proj2 (proj2 (pdu_calls_silent _ _))),
            ?(proj1 (x224_events_silent _ _)),
            ?(proj2 (x224_events_silent _ _)),
            ?(proj1 (close_events_silent _)),
            ?(proj1 (proj2 (close_events_silent _))),
            ?(proj2 (proj2 (close_events_silent _)));
          cbn [app]);
  change (ws_payloads []) with (@nil bytes);
  change (dialed []) with (@nil string);
  change (closed []) with (@nil nat);
  change (handshakes []) with (@nil nat);
  change (started []) with (@nil task);
  change (written []) with (@nil bytes);
  rewrite ?app_nil_r.

(** ** The negotiation, case by case *)

Lemma x224_failure_None net c pdu :
  x224_failure net c pdu = None -> x224_ok net c pdu.
Proof.
  unfold x224_failure, x224_ok. intros H Hlen.
  apply Nat.ltb_lt in Hlen. rewrite Hlen in H.
  destruct (Write net c _); [|done]. by destruct (Read net c).
Qed.

Lemma x224_failure_Some net c pdu msg es :
  x224_failure net c pdu = Some (msg, es) ->
  0 < len (X224ConnectionPDU pdu)
  /\ (Write net c (elems (X224ConnectionPDU pdu)) = false \/ Read net c = None)
  /\ dialed es = [] /\ closed es = [] /\ ws_payloads es = []
  /\ handshakes es = [] /\ started es = [].
Proof.
  unfold x224_failure, x224_events. intros H.
  destruct (0 <? len (X224ConnectionPDU pdu)) eqn:Hlen; [|done].
  apply Nat.ltb_lt in Hlen. split; [done|].
  destruct (Write net c _).
  - destruct (Read net c); [done|]. injection H as <- <-. by repeat split; auto.
  - injection H as <- <-. by repeat split; auto.
Qed.

Lemma forwardX224_failure net c pdu w msg es :
  x224_failure net c pdu = Some (msg, es) ->
  forwardX224 net c pdu w = (inl msg, after w (session w) es).
Proof.
  rewrite forwardX224_run. unfold x224_failure.
  destruct (0 <? len (X224ConnectionPDU pdu)); [|done].
  destruct (Write net c _).
  - destruct (Read net c); [done|]. by intros [= <- <-].
  - by intros [= <- <-].
Qed.

Lemma setupTLS_failure net pdu w c msg es :
  rdpConn (session w) = Some c ->
  x224_failure net c pdu = Some (msg, es) ->
  setupTLSConnection net pdu w
  = (Returned,
     after w (session w) (es ++ pdu_calls (wsHandlers (session w)) (errorPDU msg))).
Proof.
  intros Hc Hx. unfold setupTLSConnection. run_simpl. rewrite Hc.
  rewrite (forwardX224_failure _ _ _ _ _ _ Hx).
  rewrite sendRDCleanPathError_run. run_simpl. by rewrite <- app_assoc.
Qed.

Lemma setupPlain_failure net pdu w c msg es :
  rdpConn (session w) = Some c ->
  x224_failure net c pdu = Some (msg, es) ->
  setupPlainConnection net pdu w
  = (Returned,
     after w (session w) (es ++ pdu_calls (wsHandlers (session w)) (errorPDU msg))).
Proof.
  intros Hc Hx. unfold setupPlainConnection. run_simpl. rewrite Hc.
  rewrite (forwardX224_failure _ _ _ _ _ _ Hx).
  rewrite sendRDCleanPathError_run. run_simpl. by rewrite <- app_assoc.
Qed.

(** Every way through [processRDCleanPathPDU], with the world it
    leaves. *)
Lemma process_run net pdu w :
  processRDCleanPathPDU net pdu w =
    let ws := wsHandlers (session w) in
    let dest := effectiveDestination (session w) pdu in
    if decide (Version pdu <> RDCleanPathVersion) then
      (Returned, after w (session w) (pdu_calls ws (errorPDU "Unsupported version")))
    else
      match Dial net (ctxDone (session w)) "tcp" dest with
      | None =>
          (Returned,
           (cleanupConnection
              (after w (session w)
                 (EvDial "tcp" dest :: pdu_calls ws (errorPDU "Connection failed")))).2)
      | Some c =>
          let s := installed (session w) (Some c) (tlsConn (session w)) in
          match x224_failure net c pdu with
          | Some (msg, es) =>
              (Returned,
               after w s (EvDial "tcp" dest :: es ++ pdu_calls ws (errorPDU msg)))
          | None =>
              if HasSuffix dest ":3389" then
                match Handshake net c with
                | None =>
                    (Returned,
                     after w (installed (session w) (Some c) (Some c))
                       (EvDial "tcp" dest :: x224_events c pdu
                        ++ EvHandshake c
                        :: pdu_calls ws (errorPDU "TLS handshake failed")))
                | Some certs =>
                    awaitDone
                      (after w (installed (session w) (Some c) (Some c))
                         (EvDial "tcp" dest :: x224_events c pdu
                          ++ EvHandshake c
                          :: pdu_calls ws
                               (tlsResponsePDU (session w)
                                  (x224Response net c pdu) certs)
                          ++ [EvGo forwardTLSToWS]))
                end
              else
                awaitDone
                  (after w s
                     (EvDial "tcp" dest :: x224_events c pdu
                      ++ pdu_calls ws
                           (plainResponsePDU (session w) (x224Response net c pdu))
                      ++ [EvGo forwardTCPToWS]))
          end
      end.
Proof.
  cbn zeta. destruct (decide (Version pdu <> RDCleanPathVersion)) as [Hv|Hv].
  { by apply process_version_mismatch. }
  rewrite process_dialed by (by destruct (decide (Version pdu = RDCleanPathVersion))).
  cbn zeta. destruct (Dial net _ _ _) as [c|]; [|done].
  set (w1 := after w _ _).
  assert (Hc1 : rdpConn (session w1) = Some c) by done.
  destruct (x224_failure net c pdu) as [[msg es]|] eqn:Hx.
  - destruct (HasSuffix _ _).
    + rewrite (setupTLS_failure net pdu w1 c msg es) by done.
      unfold w1. run_simpl. by rewrite <- app_assoc.
    + rewrite (setupPlain_failure net pdu w1 c msg es) by done.
      unfold w1. run_simpl. by rewrite <- app_assoc.
  - apply x224_failure_None in Hx. destruct (HasSuffix _ _).
    + destruct (Handshake net c) as [certs|] eqn:Hh.
      * rewrite (setupTLS_established net pdu w1 c certs) by done.
        unfold w1. run_simpl. by rewrite <- app_assoc.
      * rewrite (setupTLS_handshake_failed net pdu w1 c) by done.
        unfold w1. run_simpl. by rewrite <- app_assoc.
    + rewrite (setupPlain_established net pdu w1 c) by done.
      unfold w1. run_simpl. by rewrite <- app_assoc.
Qed.

Ltac world_simpl :=
  cbn [fst snd after trace session proxy installed cleaned conn_id destination
       wsHandlers ctxDone rdpConn tlsConn activeConnections destinations].

Lemma awaitDone_world w :
  (awaitDone w).1 <> Panicked
  /\ exists es,
       trace (awaitDone w).2 = (trace w ++ es)%list
       /\ ws_payloads es = [] /\ dialed es = [] /\ handshakes es = []
       /\ started es = [] /\ written es = [].
Proof.
  rewrite awaitDone_run. destruct (ctxDone (session w)).
  - split; [done|]. rewrite cleanupConnection_run. world_simpl.
    eexists. split; [reflexivity|]. by readers.
  - split; [done|]. exists []. by rewrite app_nil_r.
Qed.

Lemma x224_failure_msg net c pdu msg es :
  x224_failure net c pdu = Some (msg, es) ->
  msg = "Failed to forward X.224" \/ msg = "Failed to read X.224 response".
Proof.
  unfold x224_failure. destruct (0 <? _); [|done].
  destruct (Write net c _).
  - destruct (Read net c); [done|]. intros [= <- _]. by right.
  - intros [= <- _]. by left.
Qed.

Lemma decoded_of_payloads es ws resp :
  ws_payloads es = (if writable ws then wire resp else []) ->
  is_int64 (Version resp) -> writable ws = true -> is_Some (Marshal resp) ->
  decoded es = [resp].
Proof.
  intros Hp Hv Hw [data Hm]. unfold decoded. rewrite Hp, Hw.
  unfold wire. rewrite Hm. cbn [omap list_omap].
  pose proof (Unmarshal_Marshal resp data [] Hv Hm) as Hu.
  rewrite app_nil_r in Hu. by rewrite Hu.
Qed.

Lemma version_int64 : is_int64 RDCleanPathVersion.
Proof. split; [discriminate|reflexivity]. Qed.

(** The error case of the theorem below, for an error message given in
    full: the payloads, what is decoded from them, and the case itself
    with its encoding. *)
Ltac use_silent :=
  repeat match goal with
         | H : ws_payloads ?e = [] |- context [ws_payloads ?e] => rewrite H
         | H : started ?e = [] |- context [started ?e] => rewrite H
         end.

Ltac error_reply :=
  let Hpay := fresh "Hpay" in
  match goal with |- ?P /\ _ => assert (Hpay : P) end;
  [ readers; use_silent; done
  | split; [exact Hpay|]; split;
    [ intros ? ?; by apply (decoded_of_payloads _ _ _ Hpay version_int64)
    | left; eexists; split; [reflexivity|]; split; [set_solver|];
      split; [vm_compute; eauto|]; split; [|done];
      readers; use_silent; done ] ].

(** X1. Whatever the PDU, the session and the remote, the negotiation
    never calls a method of a nil connection and answers with exactly
    one PDU, and the encoding of that PDU is all the boundary is handed
    when its WebSocket object takes data.  The PDU is either one of the
    five error PDUs, which always has an encoding, after which the
    handler returns without having started a forwarder; or, after a
    successful dial, the response PDU of the path taken, which has an
    encoding when its strings are valid UTF-8 and it holds less than
    4 GiB, and after which exactly the forwarder of that path is
    started.  What the boundary decodes is that PDU. *)
Theorem negotiation_one_reply net pdu w :
  let r := processRDCleanPathPDU net pdu w in
  let ws := wsHandlers (session w) in
  r.1 <> Panicked
  /\ exists es resp,
       trace r.2 = (trace w ++ es)%list
       /\ ws_payloads es = (if writable ws then wire resp else [])
       /\ (writable ws = true -> is_Some (Marshal resp) -> decoded es = [resp])
       /\ ((exists msg,
              resp = errorPDU msg
              /\ msg ∈ ["Unsupported version"; "Connection failed";
                        "Failed to forward X.224";
                        "Failed to read X.224 response";
                        "TLS handshake failed"]
              /\ is_Some (Marshal resp)
              /\ started es = [] /\ r.1 = Returned)
           \/ (exists c,
                 Dial net (ctxDone (session w)) "tcp"
                   (effectiveDestination (session w) pdu) = Some c
                 /\ ((exists certs,
                        Handshake net c = Some certs
                        /\ resp = tlsResponsePDU (session w)
                                    (x224Response net c pdu) certs
                        /\ started es = [forwardTLSToWS])
                     \/ (resp = plainResponsePDU (session w)
                                  (x224Response net c pdu)
                         /\ started es = [forwardTCPToWS]))
                 /\ (valid_strings resp = true ->
                     (N.of_nat (payload resp) < 2 ^ 32)%N ->
                     is_Some (Marshal resp)))).
Proof.
  cbn zeta. rewrite process_run. cbn zeta.
  destruct (decide (Version pdu <> RDCleanPathVersion)) as [Hv|Hv].
  { split; [done|]. eexists _, (errorPDU "Unsupported version"). world_simpl.
    split; [reflexivity|]. error_reply. }
  destruct (Dial net _ _ _) as [c|] eqn:Hd.
  2:{ split; [done|]. rewrite cleanupConnection_run. world_simpl.
      eexists _, (errorPDU "Connection failed"). rewrite <- app_assoc.
      split; [reflexivity|]. error_reply. }
  destruct (x224_failure net c pdu) as [[msg es0]|] eqn:Hx.
  { pose proof (x224_failure_msg _ _ _ _ _ Hx) as Hmsg.
    apply x224_failure_Some in Hx as (_ & _ & _ & _ & Hp & _ & Hs).
    split; [done|]. eexists _, (errorPDU msg). world_simpl.
    split; [reflexivity|]. destruct Hmsg as [->| ->]; error_reply. }
  destruct (HasSuffix _ _).
  - destruct (Handshake net c) as [certs|] eqn:Hh.
    + match goal with |- (awaitDone ?x).1 <> _ /\ _ =>
        destruct (awaitDone_world x) as (Hr & es1 & -> & Hp & _ & _ & Hs & _) end.
      split; [done|]. world_simpl. rewrite <- app_assoc.
      eexists _, _. split; [reflexivity|].
      match goal with |- ?P /\ _ => assert (Hpay : P) end.
      { readers. by rewrite Hp, app_nil_r. }
      split; [exact Hpay|]. split.
      { intros Hw Hm.
        by apply (decoded_of_payloads _ _ _ Hpay version_int64). }
      right. exists c. split; [done|]. split.
      * left. exists certs. split; [done|]. split; [done|].
        readers. by rewrite Hs.
      * apply Marshal_defined.
    + split; [done|]. eexists _, (errorPDU "TLS handshake failed").
      world_simpl. split; [reflexivity|]. error_reply.
  - match goal with |- (awaitDone ?x).1 <> _ /\ _ =>
      destruct (awaitDone_world x) as (Hr & es1 & -> & Hp & _ & _ & Hs & _) end.
    split; [done|]. world_simpl. rewrite <- app_assoc.
    eexists _, _. split; [reflexivity|].
    match goal with |- ?P /\ _ => assert (Hpay : P) end.
    { readers. by rewrite Hp, app_nil_r. }
    split; [exact Hpay|]. split.
    { intros Hw Hm.
      by apply (decoded_of_payloads _ _ _ Hpay version_int64). }
    right. exists c. split; [done|]. split.
    * right. split; [done|]. readers. by rewrite Hs.
    * apply Marshal_defined.
Qed.

(** X2. The negotiation dials at most once: nothing when the version of
    the PDU is not the supported one, and otherwise exactly the
    effective destination (the PDU's when it names one, else the
    session's), whatever happens after the dial. *)
Theorem negotiation_dials_once net pdu w :
  dialed (trace (processRDCleanPathPDU net pdu w).2)
  = (dialed (trace w)
     ++ if decide (Version pdu = RDCleanPathVersion)
        then [effectiveDestination (session w) pdu] else [])%list.
Proof.
  rewrite process_run. cbn zeta.
  destruct (decide (Version pdu <> RDCleanPathVersion)) as [Hv|Hv].
  { rewrite decide_False by done. world_simpl. by readers. }
  rewrite decide_True by (by destruct (decide (Version pdu = RDCleanPathVersion))).
  destruct (Dial net _ _ _) as [c|].
  2:{ rewrite cleanupConnection_run. world_simpl. by readers. }
  destruct (x224_failure net c pdu) as [[msg es0]|] eqn:Hx.
  { apply x224_failure_Some in Hx as (_ & _ & Hd & _).
    world_simpl. readers. by rewrite Hd. }
  destruct (HasSuffix _ _).
  - destruct (Handshake net c) as [certs|].
    + match goal with |- dialed (trace (awaitDone ?x).2) = _ =>
        destruct (awaitDone_world x) as (_ & es1 & -> & _ & Hd & _) end.
      world_simpl. readers. by rewrite Hd, app_nil_r.
    + world_simpl. by readers.
  - match goal with |- dialed (trace (awaitDone ?x).2) = _ =>
      destruct (awaitDone_world x) as (_ & es1 & -> & _ & Hd & _) end.
    world_simpl. readers. by rewrite Hd, app_nil_r.
Qed.

Lemma decoded_app t1 t2 : decoded (t1 ++ t2) = (decoded t1 ++ decoded t2)%list.
Proof. unfold decoded. by rewrite ws_payloads_app, omap_app. Qed.

Lemma decoded_silent t : ws_payloads t = [] -> decoded t = [].
Proof. unfold decoded. by intros ->. Qed.

Lemma decoded_cons e t :
  decoded (e :: t)
  = match e with
    | EvWsCall _ _ => (decoded [e] ++ decoded t)%list
    | _ => decoded t
    end.
Proof. destruct e; try done. apply (decoded_app [_] t). Qed.

(** X3. When the dial fails the handler returns with the session torn
    down: the boundary has been sent the error PDU ["Connection failed"],
    the handles the session held are closed and cleared, its registry
    entry is gone, its context is cancelled; nothing is written to the
    remote, no handshake is made and no forwarder is started. *)
Theorem dial_failure_tears_down net pdu w :
  Version pdu = RDCleanPathVersion ->
  Dial net (ctxDone (session w)) "tcp" (effectiveDestination (session w) pdu)
    = None ->
  let r := processRDCleanPathPDU net pdu w in
  r.1 = Returned
  /\ torn_down r.2
  /\ handles (session r.2) = []
  /\ exists es,
       trace r.2 = (trace w ++ es)%list
       /\ (writable (wsHandlers (session w)) = true ->
           decoded es = [errorPDU "Connection failed"])
       /\ closed es = handles (session w)
       /\ written es = [] /\ handshakes es = [] /\ started es = [].
Proof.
  intros Hv Hd. cbn zeta. rewrite process_run. cbn zeta.
  rewrite decide_False by (intros H; by apply H). rewrite Hd.
  rewrite cleanupConnection_run. world_simpl.
  split; [done|]. split.
  { unfold torn_down. world_simpl. by rewrite lookup_delete_eq. }
  split; [done|]. rewrite <- app_assoc. eexists. split; [reflexivity|].
  split.
  - intros Hw. rewrite decoded_app, decoded_cons.
    rewrite (decoded_silent (close_events _)) by apply ws_payloads_close_events.
    rewrite decoded_pdu_calls; [done| |done|].
    + split; [discriminate|reflexivity].
    + vm_compute. eauto.
  - by readers.
Qed.

Lemma dial_failure_tears_down_witness :
  let r := processRDCleanPathPDU sample_remote_refusing sample_request
             sample_world in
  r.1 = Returned /\ torn_down r.2
  /\ decoded (trace r.2) = [errorPDU "Connection failed"].
Proof.
  destruct (dial_failure_tears_down sample_remote_refusing sample_request
              sample_world eq_refl eq_refl)
    as (H1 & H2 & _ & es & Ht & Hdec & _).
  split; [exact H1|]. split; [exact H2|].
  cbn zeta. rewrite Ht. apply Hdec. reflexivity.
Defined.

(** ** The TLS decision *)

Lemma substring_whole s : substring 0 (String.length s) s = s.
Proof.
  induction s as [|a s IH]; [done|].
  cbn [String.length substring]. by rewrite IH.
Qed.

Lemma substring_skip pre s n :
  substring (String.length pre) n (pre +:+ s) = substring 0 n s.
Proof.
  induction pre as [|a pre IH]; [done|].
  change (String a pre +:+ s) with (String a (pre +:+ s)).
  cbn [String.length substring]. apply IH.
Qed.

Lemma string_length_app s1 s2 :
  String.length (s1 +:+ s2) = String.length s1 + String.length s2.
Proof.
  induction s1 as [|a s1 IH]; [done|].
  change (String a s1 +:+ s2) with (String a (s1 +:+ s2)).
  cbn [String.length]. by rewrite IH.
Qed.

Lemma substring_split s n :
  n <= String.length s ->
  s = substring 0 n s +:+ substring n (String.length s - n) s.
Proof.
  revert n. induction s as [|a s IH]; intros n Hn.
  - destruct n; [done|]. cbn in Hn. lia.
  - destruct n as [|n].
    + rewrite Nat.sub_0_r, substring_whole. by destruct s.
    + cbn [String.length] in Hn.
      cbn [substring String.length Nat.sub].
      change (String a ?x +:+ ?y) with (String a (x +:+ y)).
      f_equal. apply IH. lia.
Qed.

Lemma HasSuffix_spec s suffix :
  HasSuffix s suffix = true <-> exists prefix, s = prefix +:+ suffix.
Proof.
  unfold HasSuffix. rewrite andb_true_iff, Nat.leb_le, String.eqb_eq. split.
  - intros [Hle Hsub].
    exists (substring 0 (String.length s - String.length suffix) s).
    pose proof (substring_split s (String.length s - String.length suffix))
      as Hs.
    replace (String.length s - (String.length s - String.length suffix))
      with (String.length suffix) in Hs by lia.
    rewrite Hsub in Hs. apply Hs. lia.
  - intros [prefix ->]. rewrite string_length_app. split; [lia|].
    replace (String.length prefix + String.length suffix - String.length suffix)
      with (String.length prefix) by lia.
    by rewrite substring_skip, substring_whole.
Qed.

(** X4. The handshake is decided by the text of the effective
    destination alone.  When it ends in [:3389], the negotiation starts
    either no forwarder or the TLS one, and the latter only in this
    order: one handshake, on the connection it dialed, which the remote
    completed, and after it the start of [forwardTLSToWS], with no other
    handshake and no other forwarder before, between or after.  When it
    does not, no handshake is made and the only forwarder that can be
    started is the TCP one. *)
Theorem tls_policy net pdu w :
  let dest := effectiveDestination (session w) pdu in
  exists es,
    trace (processRDCleanPathPDU net pdu w).2 = (trace w ++ es)%list
    /\ ((exists host, dest = host +:+ ":3389") ->
        started es = []
        \/ exists c certs pre mid post,
             Dial net (ctxDone (session w)) "tcp" dest = Some c
             /\ Handshake net c = Some certs
             /\ es = (pre ++ EvHandshake c :: mid
                      ++ EvGo forwardTLSToWS :: post)%list
             /\ handshakes pre = [] /\ started pre = []
             /\ handshakes mid = [] /\ started mid = []
             /\ handshakes post = [] /\ started post = [])
    /\ (~ (exists host, dest = host +:+ ":3389") ->
        handshakes es = []
        /\ forall k, k ∈ started es -> k = forwardTCPToWS).
Proof.
  cbn zeta. rewrite process_run. cbn zeta.
  pose proof (HasSuffix_spec (effectiveDestination (session w) pdu) ":3389")
    as Hsuf.
  destruct (decide (Version pdu <> RDCleanPathVersion)) as [Hv|Hv].
  { world_simpl. eexists. split; [reflexivity|]. readers.
    split; [by left|]. intros _. split; [done|].
    intros k Hk. by apply elem_of_nil in Hk. }
  destruct (Dial net _ _ _) as [c|] eqn:Hd.
  2:{ rewrite cleanupConnection_run. world_simpl. rewrite <- app_assoc.
      eexists. split; [reflexivity|]. readers.
      split; [by left|]. intros _. split; [done|].
      intros k Hk. by apply elem_of_nil in Hk. }
  destruct (x224_failure net c pdu) as [[msg es0]|] eqn:Hx.
  { apply x224_failure_Some in Hx as (_ & _ & _ & _ & _ & Hh & Hs).
    world_simpl. eexists. split; [reflexivity|]. readers. rewrite Hh, Hs.
    split; [by left|]. intros _. split; [done|].
    intros k Hk. by apply elem_of_nil in Hk. }
  destruct (HasSuffix _ _).
  - destruct (Handshake net c) as [certs|] eqn:Hhs.
    + match goal with |- context [awaitDone ?x] =>
        destruct (awaitDone_world x) as (_ & es1 & -> & _ & _ & Hh & Hs & _) end.
      world_simpl. rewrite <- app_assoc. eexists. split; [reflexivity|].
      split.
      * intros _. right.
        exists c, certs, (EvDial "tcp" (effectiveDestination (session w) pdu)
                          :: x224_events c pdu),
          (pdu_calls (wsHandlers (session w))
             (tlsResponsePDU (session w) (x224Response net c pdu) certs)), es1.
        split; [done|]. split; [done|].
        split.
        { repeat (rewrite <- ?app_assoc; cbn [app]). reflexivity. }
        by readers.
      * intros Hn. destruct Hn. by apply Hsuf.
    + world_simpl. eexists. split; [reflexivity|]. readers. split.
      * by left.
      * intros Hn. destruct Hn. by apply Hsuf.
  - match goal with |- context [awaitDone ?x] =>
      destruct (awaitDone_world x) as (_ & es1 & -> & _ & _ & Hh & Hs & _) end.
    world_simpl. rewrite <- app_assoc. eexists. split; [reflexivity|].
    readers. rewrite Hh, Hs. split.
    + intros He. apply Hsuf in He. discriminate.
    + intros _. split; [done|].
      intros k Hk. by apply list_elem_of_singleton in Hk.
Qed.

Lemma written_x224_events c pdu :
  written (x224_events c pdu)
  = if 0 <? len (X224ConnectionPDU pdu) then [elems (X224ConnectionPDU pdu)]
    else [].
Proof. unfold x224_events. by destruct (0 <? _). Qed.

(** X5. The only bytes the negotiation writes to the remote are the
    X.224 request of the PDU, as received and at most once: after a
    successful dial when the request is not empty, and nothing at all
    otherwise.  No other field of the PDU reaches the remote. *)
Theorem negotiation_writes_only_x224 net pdu w :
  written (trace (processRDCleanPathPDU net pdu w).2)
  = (written (trace w)
     ++ if decide (Version pdu = RDCleanPathVersion) then
          match Dial net (ctxDone (session w)) "tcp"
                  (effectiveDestination (session w) pdu) with
          | Some _ =>
              if 0 <? len (X224ConnectionPDU pdu)
              then [elems (X224ConnectionPDU pdu)] else []
          | None => []
          end
        else [])%list.
Proof.
  rewrite process_run. cbn zeta.
  destruct (decide (Version pdu <> RDCleanPathVersion)) as [Hv|Hv].
  { rewrite decide_False by done. world_simpl. by readers. }
  rewrite decide_True by (by destruct (decide (Version pdu = RDCleanPathVersion))).
  destruct (Dial net _ _ _) as [c|].
  2:{ rewrite cleanupConnection_run. world_simpl. by readers. }
  destruct (x224_failure net c pdu) as [[msg es0]|] eqn:Hx.
  { world_simpl. readers. f_equal. unfold x224_failure, x224_events in Hx.
    destruct (0 <? len _); [|done]. destruct (Write net c _).
    - destruct (Read net c); [done|]. by injection Hx as <- <-.
    - by injection Hx as <- <-. }
  destruct (HasSuffix _ _).
  - destruct (Handshake net c) as [certs|].
    + match goal with |- context [awaitDone ?x] =>
        destruct (awaitDone_world x) as (_ & es1 & -> & _ & _ & _ & _ & Hw) end.
      world_simpl. readers. by rewrite Hw, app_nil_r, written_x224_events.
    + world_simpl. readers. by rewrite written_x224_events.
  - match goal with |- context [awaitDone ?x] =>
      destruct (awaitDone_world x) as (_ & es1 & -> & _ & _ & _ & _ & Hw) end.
    world_simpl. readers. by rewrite Hw, app_nil_r, written_x224_events.
Qed.

(** ** What the handlers leave alone *)

Lemma evolves_refl w : evolves w w.
Proof. unfold evolves. repeat split; auto. exists []. by rewrite app_nil_r. Qed.

Lemma evolves_trans w1 w2 w3 : evolves w1 w2 -> evolves w2 w3 -> evolves w1 w3.
Proof.
  intros (Hi1 & Hd1 & Hw1 & Ht1 & Ha1 & Hc1 & es1 & He1)
         (Hi2 & Hd2 & Hw2 & Ht2 & Ha2 & Hc2 & es2 & He2).
  unfold evolves. rewrite Hi2, Hd2, Hw2, Ht2, He2, He1.
  repeat split; auto.
  - rewrite Hi1 in Ha2. destruct Ha1 as [E1|E1], Ha2 as [E2|E2];
      rewrite E2, E1; auto.
    right. apply delete_delete_eq.
  - exists (es1 ++ es2)%list. by rewrite app_assoc.
Qed.

Lemma evolves_after w s es :
  conn_id s = conn_id (session w) -> destination s = destination (session w) ->
  wsHandlers s = wsHandlers (session w) ->
  (ctxDone (session w) = true -> ctxDone s = true) ->
  evolves w (after w s es).
Proof. intros. unfold evolves, after. world_simpl. repeat split; eauto. Qed.

Lemma evolves_cleanup w : evolves w (cleanupConnection w).2.
Proof.
  rewrite cleanupConnection_run. unfold evolves. world_simpl.
  repeat split; eauto.
Qed.

Lemma evolves_awaitDone w : evolves w (awaitDone w).2.
Proof.
  rewrite awaitDone_run. destruct (ctxDone (session w)).
  - apply evolves_cleanup.
  - apply evolves_refl.
Qed.

Lemma evolves_process net pdu w : evolves w (processRDCleanPathPDU net pdu w).2.
Proof.
  rewrite process_run. cbn zeta.
  destruct (decide (Version pdu <> RDCleanPathVersion)) as [Hv|Hv].
  { by apply evolves_after. }
  destruct (Dial net _ _ _) as [c|].
  2:{ eapply evolves_trans; [|apply evolves_cleanup]. by apply evolves_after. }
  destruct (x224_failure net c pdu) as [[msg es0]|].
  { by apply evolves_after. }
  destruct (HasSuffix _ _); [destruct (Handshake net c)|];
    try (by apply evolves_after);
    (eapply evolves_trans; [|apply evolves_awaitDone]); by apply evolves_after.
Qed.

Lemma evolves_direct net data w : evolves w (handleDirectRDP net data w).2.
Proof.
  rewrite handleDirectRDP_run. cbn [snd].
  eapply evolves_trans; [|apply evolves_cleanup].
  rewrite handleDirectRDP_body_run. cbn zeta.
  destruct (Dial net _ _ _) as [c|]; [|by apply evolves_after].
  destruct (Write net c data); [|by apply evolves_after].
  destruct (Read net c); by apply evolves_after.
Qed.

Lemma evolves_forward net data w : evolves w (forwardToRDP net data w).2.
Proof.
  destruct (tlsConn (session w)) as [t|] eqn:Ht.
  - rewrite (forwardToRDP_tls _ _ _ t) by done. by apply evolves_after.
  - destruct (rdpConn (session w)) as [c|] eqn:Hc.
    + rewrite (forwardToRDP_tcp _ _ _ c) by done. by apply evolves_after.
    + unfold forwardToRDP. run_simpl. rewrite Ht, Hc. apply evolves_refl.
Qed.

Lemma evolves_message net data w :
  evolves w (handleWebSocketMessage net data w).2.
Proof.
  destruct data as [|s|data|s]; try apply evolves_refl.
  destruct (decide (rdpConn (session w) <> None \/ tlsConn (session w) <> None))
    as [Hi|Hi].
  { rewrite handle_installed by done. apply evolves_forward. }
  assert (Hc : rdpConn (session w) = None).
  { destruct (rdpConn (session w)); [|done]. destruct Hi. by left. }
  assert (Ht : tlsConn (session w) = None).
  { destruct (tlsConn (session w)); [|done]. destruct Hi. by right. }
  destruct (Unmarshal data) as [[rest pdu]|e] eqn:Hu.
  - rewrite (handle_first_pdu _ _ rest pdu) by done. apply evolves_process.
  - destruct (decide (head data = Some Byte.x03)) as [Hh|Hh].
    + rewrite (handle_direct _ _ e) by done. apply evolves_direct.
    + unfold handleWebSocketMessage. run_simpl. rewrite Hc, Ht, Hu.
      cbn [bool_decide orb]. rewrite (bool_decide_eq_false_2 _ Hh).
      rewrite andb_false_r. apply evolves_refl.
Qed.

(** X6. Handling a message, or any sequence of messages, keeps the
    session's id, destination and WebSocket object, leaves the
    destination table as it was, removes at most the session's own entry
    from the registry, never revives a cancelled context, and only adds
    to the trace. *)
Theorem handlers_keep_identity net msgs w :
  evolves w (handleMessages net msgs w).2
  /\ forall data, evolves w (handleWebSocketMessage net data w).2.
Proof.
  split; [|intros data; apply evolves_message].
  revert w. induction msgs as [|m ms IH]; intros w.
  - apply evolves_refl.
  - cbn [handleMessages]. run_simpl.
    pose proof (evolves_message net (JsUint8Array m) w) as H1.
    destruct (handleWebSocketMessage net (JsUint8Array m) w) as [r w1].
    eapply evolves_trans; [exact H1|]. apply IH.
Qed.

(** ** Teardown *)

(** X7. [cleanupConnection] closes the handles the session holds, the
    TLS handle before the TCP one, clears them and tears the session
    down; run a second time it closes nothing and changes neither the
    session nor the proxy. *)
Theorem cleanup_idempotent w :
  let w1 := (cleanupConnection w).2 in
  let w2 := (cleanupConnection w1).2 in
  torn_down w1
  /\ handles (session w1) = []
  /\ closed (trace w1) = (closed (trace w) ++ handles (session w))%list
  /\ proxy w2 = proxy w1
  /\ session w2 = session w1
  /\ closed (trace w2) = closed (trace w1).
Proof.
  cbn zeta. rewrite !cleanupConnection_run. world_simpl.
  split. { unfold torn_down. world_simpl. by rewrite lookup_delete_eq. }
  split; [done|]. split; [by readers|].
  split; [by rewrite delete_delete_eq|]. split; [done|]. by readers.
Qed.

Lemma x224_ok_failure net c pdu :
  x224_ok net c pdu -> x224_failure net c pdu = None.
Proof.
  unfold x224_ok, x224_failure. intros Hok.
  destruct (0 <? len (X224ConnectionPDU pdu)) eqn:Hlen; [|done].
  apply Nat.ltb_lt in Hlen. destruct (Hok Hlen) as [-> Hr].
  by destruct (Read net c).
Qed.

(** X8. A negotiation of a new session that goes through leaves the
    handler parked on the context, the registry untouched and nothing
    closed.  Once the boundary closes the WebSocket ([onGoClose]) and
    the handler wakes, the session is torn down and the dialed
    connection is closed, through the TLS handle and then the TCP handle
    on the TLS path, once on the plain path; nothing more is sent to the
    boundary. *)
Theorem established_session_closes net pdu w c :
  fresh (session w) ->
  Version pdu = RDCleanPathVersion ->
  Dial net false "tcp" (effectiveDestination (session w) pdu) = Some c ->
  x224_ok net c pdu ->
  (HasSuffix (effectiveDestination (session w) pdu) ":3389" = true ->
   Handshake net c <> None) ->
  let r := processRDCleanPathPDU net pdu w in
  let w2 := (afterDone (onGoClose r.2).2).2 in
  r.1 = AwaitingDone
  /\ proxy r.2 = proxy w
  /\ ctxDone (session r.2) = false
  /\ closed (trace r.2) = closed (trace w)
  /\ torn_down w2
  /\ handles (session w2) = []
  /\ closed (trace w2)
     = (closed (trace w)
        ++ if HasSuffix (effectiveDestination (session w) pdu) ":3389"
           then [c; c] else [c])%list
  /\ ws_payloads (trace w2) = ws_payloads (trace r.2).
Proof.
  intros (Hc & Ht & Hdone) Hv Hd Hok Hh. cbn zeta.
  rewrite process_run. cbn zeta.
  rewrite decide_False by (intros H; by apply H).
  rewrite Hdone, Hd, (x224_ok_failure _ _ _ Hok).
  unfold afterDone, onGoClose.
  destruct (HasSuffix _ _).
  - destruct (Handshake net c) as [certs|]; [|by destruct Hh].
    rewrite awaitDone_run. world_simpl. rewrite Hdone.
    rewrite cleanupConnection_run. run_simpl. world_simpl.
    split; [done|]. split; [done|]. split; [done|].
    split; [by readers|].
    split. { unfold torn_down. world_simpl. by rewrite lookup_delete_eq. }
    split; [done|]. unfold close_events. world_simpl.
    split; by readers.
  - rewrite awaitDone_run. world_simpl. rewrite Hdone.
    rewrite cleanupConnection_run. run_simpl. world_simpl.
    split; [done|]. split; [done|]. split; [done|].
    split; [by readers|].
    split. { unfold torn_down. world_simpl. by rewrite lookup_delete_eq. }
    split; [done|]. unfold close_events. world_simpl. rewrite Ht.
    split; by readers.
Qed.

Lemma sample_world_fresh : fresh (session sample_world).
Proof. repeat split. Defined.

Lemma established_session_closes_witness :
  let r := processRDCleanPathPDU sample_remote sample_request sample_world in
  r.1 = AwaitingDone
  /\ closed (trace (afterDone (onGoClose r.2).2).2) = [7; 7].
Proof.
  destruct (established_session_closes sample_remote sample_request
              sample_world 7 sample_world_fresh eq_refl eq_refl
              sample_x224_ok)
    as (H1 & _ & _ & _ & _ & _ & H7 & _).
  - discriminate.
  - split; [exact H1|exact H7].
Defined.

(** X9. Direct mode on a new session always ends with the session torn
    down, whatever the remote does: the session's destination is dialed
    once, the first packet is written once when the dial succeeds, and
    the dialed connection is closed exactly once. *)
Theorem direct_mode_cleans_up net data w :
  fresh (session w) ->
  let r := handleDirectRDP net data w in
  let dial := Dial net false "tcp" (destination (session w)) in
  r.1 = Returned
  /\ torn_down r.2
  /\ handles (session r.2) = []
  /\ dialed (trace r.2) = (dialed (trace w) ++ [destination (session w)])%list
  /\ closed (trace r.2)
     = (closed (trace w) ++ match dial with Some c => [c] | None => [] end)%list
  /\ written (trace r.2)
     = (written (trace w) ++ match dial with Some _ => [data] | None => [] end)%list.
Proof.
  intros (Hc & Ht & Hdone). cbn zeta.
  rewrite handleDirectRDP_run, cleanupConnection_run. world_simpl.
  split; [done|].
  split. { unfold torn_down. world_simpl. by rewrite lookup_delete_eq. }
  split; [done|].
  rewrite handleDirectRDP_body_run. cbn zeta. rewrite Hdone.
  destruct (Dial net _ _ _) as [c|].
  - destruct (Write net c data); [destruct (Read net c)|];
      world_simpl; readers; unfold handles; world_simpl; rewrite Ht;
      by repeat split.
  - world_simpl. readers. unfold handles. rewrite Ht, Hc.
    cbn [app]. by rewrite app_nil_r.
Qed.

Lemma direct_mode_cleans_up_witness :
  let r := handleDirectRDP sample_remote sample_x224_request sample_world in
  torn_down r.2 /\ closed (trace r.2) = [7]
  /\ written (trace r.2) = [sample_x224_request].
Proof.
  destruct (direct_mode_cleans_up sample_remote sample_x224_request
              sample_world sample_world_fresh)
    as (_ & H2 & _ & _ & H5 & H6).
  split; [exact H2|]. split; [exact H5|exact H6].
Defined.

(** ** The registry and the destination table *)

Lemma host_port_not_empty host port : host +:+ ":" +:+ port <> "".
Proof. by destruct host. Qed.

(** X10. Attaching a WebSocket under the id [createProxy] has just
    resolved gives a new session for the destination [createProxy]
    computed: [host:port] when both arguments are given and not null,
    the default destination otherwise.  [createProxy] itself leaves the
    registry alone, the attach registers the session, and when the id
    was not registered before, a later [createProxy] resolves to another
    URL. *)
Theorem attach_created_proxy args ws addr p :
  let r := createProxy args p in
  let id := "proxy_" +:+ pretty (size (activeConnections p)) in
  let pc := HandleWebSocketConnection ws id addr r.2 in
  r.1 = "ws://rdcleanpath.proxy.local/" +:+ id
  /\ activeConnections r.2 = activeConnections p
  /\ destination pc.2
     = match args with
       | host :: port :: _ =>
           if IsNull host || IsNull port then defaultDestination
           else String_ host +:+ ":" +:+ String_ port
       | _ => defaultDestination
       end
  /\ conn_id pc.2 = id /\ wsHandlers pc.2 = ws /\ fresh pc.2
  /\ activeConnections pc.1 !! id = Some addr
  /\ (activeConnections p !! id = None ->
      forall args', (createProxy args' pc.1).1 <> r.1).
Proof.
  cbn zeta. split; [done|]. split; [done|]. split.
  { unfold HandleWebSocketConnection, createProxy.
    cbn [fst snd destinations destination option_bind mbind].
    rewrite lookup_insert_eq. cbn [default].
    destruct args as [|host [|port rest]];
      [by rewrite decide_False..|].
    destruct (IsNull host), (IsNull port); cbn [negb andb orb];
      try by rewrite decide_False.
    rewrite decide_False; [done|apply host_port_not_empty]. }
  split; [done|]. split; [done|]. split; [done|].
  split. { cbn. apply lookup_insert_eq. }
  intros Hnone args'. unfold createProxy, HandleWebSocketConnection.
  cbn [fst snd activeConnections].
  rewrite map_size_insert_None by done.
  intros H. apply (inj (String.app _)) in H. apply (inj (String.app _)) in H.
  apply (inj pretty) in H. lia.
Qed.

(** X11. The registry holds one entry per id.  A second WebSocket
    attached under the same id replaces the entry of the first, gets the
    same destination and does not grow the registry; the cleanup of the
    first session then removes the entry although the second session's
    context is not cancelled. *)
Theorem same_id_shares_registry_entry ws1 ws2 id addr1 addr2 p tr :
  let pc1 := HandleWebSocketConnection ws1 id addr1 p in
  let pc2 := HandleWebSocketConnection ws2 id addr2 pc1.1 in
  let w := (cleanupConnection
              {| proxy := pc2.1; session := pc1.2; trace := tr |}).2 in
  activeConnections pc2.1 !! id = Some addr2
  /\ destination pc2.2 = destination pc1.2
  /\ size (activeConnections pc2.1) = size (activeConnections pc1.1)
  /\ activeConnections (proxy w) !! conn_id pc2.2 = None
  /\ ctxDone pc2.2 = false.
Proof.
  cbn zeta. rewrite cleanupConnection_run.
  unfold HandleWebSocketConnection. world_simpl.
  split; [apply lookup_insert_eq|]. split; [done|].
  split. { rewrite map_size_insert_Some; [done|]. by rewrite lookup_insert_eq. }
  split; [apply lookup_delete_eq|done].
Qed.

(** ** The forwarders *)

Lemma buffered_cons ready readys :
  buffered (ready :: readys)
  = ((if 0 <? length (take bufferSize ready) then [take bufferSize ready]
      else [])
     ++ buffered readys)%list.
Proof.
  unfold buffered. rewrite fmap_cons, filter_cons.
  destruct (Nat.ltb_spec 0 (length (take bufferSize ready))).
  - by rewrite decide_True.
  - by rewrite decide_False by lia.
Qed.

Lemma buffered_bounds readys :
  Forall (fun chunk => 0 < length chunk <= bufferSize) (buffered readys).
Proof.
  unfold buffered. apply Forall_forall. intros ch Hch.
  apply list_elem_of_filter in Hch as [Hpos Hin].
  apply list_elem_of_fmap in Hin as (ready & -> & _).
  split; [done|]. rewrite length_take. lia.
Qed.

Lemma buffered_join readys :
  Forall (fun ready => length ready <= bufferSize) readys ->
  mjoin (buffered readys) = mjoin readys.
Proof.
  unfold buffered. induction readys as [|ready rs IH]; [done|].
  intros Hall. apply Forall_cons in Hall as [Hr Hrs].
  rewrite fmap_cons, filter_cons, take_ge by done.
  change (mjoin (ready :: rs)) with (ready ++ mjoin rs)%list.
  destruct (decide (0 < length ready)) as [Hp|Hp].
  - change (mjoin (ready :: ?l)) with (ready ++ mjoin l)%list. by rewrite IH.
  - destruct ready; [|cbn [length] in Hp; lia]. by apply IH.
Qed.

Lemma chunks_cons_Some ready reads :
  chunks (Some ready :: reads)
  = ((if 0 <? length (take bufferSize ready) then [take bufferSize ready]
      else [])
     ++ chunks reads)%list.
Proof. apply buffered_cons. Qed.

Lemma chunks_nil : chunks [] = [].
Proof. done. Qed.

Lemma chunks_cons_None reads : chunks (None :: reads) = [].
Proof. done. Qed.

Lemma forwardLoop_run handle reads w c :
  handle (session w) = Some c ->
  forwardLoop handle reads w
  = (if bool_decide (None ∈ reads) then LoopReturned else LoopBlocked,
     after w (session w)
       (mjoin (ws_calls (wsHandlers (session w)) <$> chunks reads))).
Proof.
  revert w. induction reads as [|[ready|] reads IH]; intros w Hc.
  - cbn [forwardLoop]. run_simpl. rewrite Hc.
    rewrite bool_decide_eq_false_2 by apply not_elem_of_nil.
    rewrite chunks_nil. cbn [fmap list_fmap mjoin list_join].
    rewrite app_nil_r. by destruct w.
  - cbn [forwardLoop]. run_simpl. rewrite Hc. cbn zeta.
    rewrite chunks_cons_Some.
    assert (Hin : None ∈ Some ready :: reads <-> None ∈ reads).
    { rewrite elem_of_cons. split; [by intros [|]|by right]. }
    rewrite (bool_decide_ext _ _ Hin).
    destruct (0 <? length (take bufferSize ready)).
    + rewrite sendToWebSocket_run. rewrite IH by done.
      world_simpl. by rewrite after_after.
    + run_simpl. by rewrite IH.
  - cbn [forwardLoop]. run_simpl. rewrite Hc.
    rewrite bool_decide_eq_true_2 by apply list_elem_of_here.
    rewrite chunks_cons_None. cbn [fmap list_fmap mjoin list_join].
    rewrite app_nil_r. by destruct w.
Qed.

Lemma ws_payloads_joined ws cs :
  ws_payloads (mjoin (ws_calls ws <$> cs)) = if writable ws then cs else [].
Proof.
  induction cs as [|ch cs IH]; [by destruct (writable ws)|].
  change (mjoin (ws_calls ws <$> ch :: cs))
    with (ws_calls ws ch ++ mjoin (ws_calls ws <$> cs))%list.
  rewrite ws_payloads_app, IH.
  rewrite ws_payloads_ws_calls. by destruct (writable ws).
Qed.

Lemma joined_quiet ws cs :
  dialed (mjoin (ws_calls ws <$> cs)) = []
  /\ closed (mjoin (ws_calls ws <$> cs)) = []
  /\ written (mjoin (ws_calls ws <$> cs)) = [].
Proof.
  induction cs as [|ch cs (IH1 & IH2 & IH3)]; [done|].
  change (mjoin (ws_calls ws <$> ch :: cs))
    with (ws_calls ws ch ++ mjoin (ws_calls ws <$> cs))%list.
  rewrite dialed_app, closed_app, written_app, IH1, IH2, IH3.
  by readers.
Qed.

(** X12. [forwardTCPToWS] and [forwardTLSToWS] on a script of reads:
    with the handle installed, the loop returns at the first read error
    and otherwise stays blocked in [Read]; it leaves the session and the
    proxy as they are and does nothing but hand to the boundary, in
    order, what each successful read returned, skipping empty reads.
    With a nil handle it panics at once.  Every chunk handed over has
    between 1 and 32768 bytes, and when no read exceeds the buffer the
    chunks concatenate to the bytes read. *)
Theorem forwarders_relay reads w :
  let ws := wsHandlers (session w) in
  (forall handle c, handle (session w) = Some c ->
     let r := forwardLoop handle reads w in
     r.1 = (if bool_decide (None ∈ reads) then LoopReturned else LoopBlocked)
     /\ proxy r.2 = proxy w /\ session r.2 = session w
     /\ exists es,
          trace r.2 = (trace w ++ es)%list
          /\ ws_payloads es = (if writable ws then chunks reads else [])
          /\ dialed es = [] /\ closed es = [] /\ written es = [])
  /\ (rdpConn (session w) = None ->
      forwardTCPToWS_loop reads w = (LoopPanicked, w))
  /\ (tlsConn (session w) = None ->
      forwardTLSToWS_loop reads w = (LoopPanicked, w))
  /\ Forall (fun chunk => 0 < length chunk <= bufferSize) (chunks reads)
  /\ (Forall (fun ready => length ready <= bufferSize) (before_error reads) ->
      mjoin (chunks reads) = mjoin (before_error reads)).
Proof.
  cbn zeta. split; [|split; [|split; [|split]]].
  - intros handle c Hc. rewrite (forwardLoop_run handle reads w c Hc).
    world_simpl. repeat split.
    eexists. split; [reflexivity|]. split; [apply ws_payloads_joined|].
    apply joined_quiet.
  - intros Hc. unfold forwardTCPToWS_loop.
    destruct reads; cbn [forwardLoop]; run_simpl; by rewrite Hc.
  - intros Ht. unfold forwardTLSToWS_loop.
    destruct reads; cbn [forwardLoop]; run_simpl; by rewrite Ht.
  - apply buffered_bounds.
  - apply buffered_join.
Qed.

(** ** From the boundary to the remote *)

Lemma attempted_prefix accepts msgs :
  attempted accepts msgs `prefix_of` before_error msgs.
Proof.
  induction msgs as [|[msg|] msgs IH]; cbn [attempted before_error];
    [done| |done].
  apply prefix_cons. destruct (accepts msg); [done|apply prefix_nil].
Qed.

Lemma attempted_all accepts msgs :
  Forall (fun msg => accepts msg = true) (before_error msgs) ->
  attempted accepts msgs = before_error msgs.
Proof.
  induction msgs as [|[msg|] msgs IH]; cbn [attempted before_error];
    [done| |done].
  intros Hall. apply Forall_cons in Hall as [-> Hall]. by rewrite IH.
Qed.

Lemma forwardWSLoop_run handle writeTo accepts ev msgs c :
  (forall msg w,
     writeTo c msg w = (accepts msg, after w (session w) [ev msg])) ->
  forall w,
    ctxDone (session w) = false -> handle (session w) = Some c ->
    exists r,
      forwardWSLoop handle writeTo msgs w
      = (r, after w (session w) (ev <$> attempted accepts msgs))
      /\ (Forall (fun msg => accepts msg = true) (before_error msgs) ->
          r = if bool_decide (None ∈ msgs) then LoopReturned else LoopBlocked).
Proof.
  intros Hwrite. induction msgs as [|[msg|] msgs IH]; intros w Hdone Hc.
  - exists LoopBlocked. cbn [forwardWSLoop]. run_simpl. rewrite Hdone.
    cbn [attempted fmap list_fmap]. rewrite app_nil_r. split; [by destruct w|].
    by rewrite bool_decide_eq_false_2 by apply not_elem_of_nil.
  - cbn [forwardWSLoop attempted]. run_simpl. rewrite Hdone, Hc, Hwrite.
    destruct (accepts msg) eqn:Hw; cbn [negb].
    + destruct (IH (after w (session w) [ev msg]) Hdone Hc)
        as (r & Hr & Hall).
      exists r. rewrite Hr. split.
      * rewrite fmap_cons, after_after. by run_simpl.
      * intros Hf. cbn [before_error] in Hf. apply Forall_cons in Hf as [_ Hf].
        rewrite (Hall Hf).
        assert (Hin : None ∈ Some msg :: msgs <-> None ∈ msgs).
        { rewrite elem_of_cons. split; [by intros [|]|by right]. }
        by rewrite (bool_decide_ext _ _ Hin).
    + exists LoopReturned. split; [by run_simpl|].
      intros Hf. cbn [before_error] in Hf. apply Forall_cons in Hf as [Hf _].
      congruence.
  - exists LoopReturned. cbn [forwardWSLoop]. run_simpl. rewrite Hdone.
    cbn [attempted fmap list_fmap]. rewrite app_nil_r. split; [by destruct w|].
    by rewrite bool_decide_eq_true_2 by apply list_elem_of_here.
Qed.

Lemma forwardWSLoop_cancelled handle writeTo msgs w :
  ctxDone (session w) = true ->
  forwardWSLoop handle writeTo msgs w = (LoopReturned, w).
Proof. intros Hd. destruct msgs; cbn [forwardWSLoop]; run_simpl; by rewrite Hd. Qed.

(** X13. [forwardWSToTCP] and [forwardWSToTLS] on a script of messages
    from the boundary: with the context not cancelled and the handle
    installed, the loop does nothing but write to it, one write per
    message and in order, the messages that precede the first read
    error, until a write fails; when no write fails these are all of
    them and the loop returns at the read error or else stays blocked.
    It returns at once when the context is cancelled, and a nil handle
    makes it panic only when a message arrives. *)
Theorem forwardWS_relay net msgs w :
  ctxDone (session w) = false ->
  (forall c, rdpConn (session w) = Some c ->
     exists r,
       forwardWSToTCP_loop net msgs w
       = (r, after w (session w) (EvWrite c <$> attempted (Write net c) msgs))
       /\ attempted (Write net c) msgs `prefix_of` before_error msgs
       /\ (Forall (fun msg => Write net c msg = true) (before_error msgs) ->
           attempted (Write net c) msgs = before_error msgs
           /\ r = if bool_decide (None ∈ msgs) then LoopReturned
                  else LoopBlocked))
  /\ (forall c, tlsConn (session w) = Some c ->
        exists r,
          forwardWSToTLS_loop net msgs w
          = (r, after w (session w)
                  (EvTlsWrite c <$> attempted (TlsWrite net c) msgs))
          /\ attempted (TlsWrite net c) msgs `prefix_of` before_error msgs
          /\ (Forall (fun msg => TlsWrite net c msg = true) (before_error msgs) ->
              attempted (TlsWrite net c) msgs = before_error msgs
              /\ r = if bool_decide (None ∈ msgs) then LoopReturned
                     else LoopBlocked))
  /\ (rdpConn (session w) = None ->
      forwardWSToTCP_loop net msgs w
      = (match msgs with
         | [] => LoopBlocked
         | None :: _ => LoopReturned
         | Some _ :: _ => LoopPanicked
         end, w))
  /\ (forall w', ctxDone (session w') = true ->
        forwardWSToTCP_loop net msgs w' = (LoopReturned, w')
        /\ forwardWSToTLS_loop net msgs w' = (LoopReturned, w')).
Proof.
  intros Hdone. split; [|split; [|split]].
  - intros c Hc.
    destruct (forwardWSLoop_run rdpConn (write net) (Write net c) (EvWrite c)
                msgs c) with (w := w) as (r & Hr & Hall); [|done|done|].
    { intros msg w0. by run_simpl. }
    exists r. split; [exact Hr|]. split; [apply attempted_prefix|].
    intros Hf. split; [by apply attempted_all|by apply Hall].
  - intros c Hc.
    destruct (forwardWSLoop_run tlsConn (tlsWrite net) (TlsWrite net c)
                (EvTlsWrite c) msgs c) with (w := w) as (r & Hr & Hall);
      [|done|done|].
    { intros msg w0. by run_simpl. }
    exists r. split; [exact Hr|]. split; [apply attempted_prefix|].
    intros Hf. split; [by apply attempted_all|by apply Hall].
  - intros Hc. unfold forwardWSToTCP_loop.
    destruct msgs as [|[msg|] msgs]; cbn [forwardWSLoop]; run_simpl;
      by rewrite Hdone, ?Hc.
  - intros w' Hd. split; by apply forwardWSLoop_cancelled.
Qed.

Lemma forwardWS_relay_witness :
  let w := (processRDCleanPathPDU sample_remote sample_request
              sample_plain_world).2 in
  (forwardWSToTCP_loop sample_remote
     [Some sample_x224_request; Some sample_x224_confirm; None] w).2
  = after w (session w)
      [EvWrite 7 sample_x224_request; EvWrite 7 sample_x224_confirm].
Proof.
  cbn zeta.
  destruct (proj1 (forwardWS_relay sample_remote
                     [Some sample_x224_request; Some sample_x224_confirm; None]
                     (processRDCleanPathPDU sample_remote sample_request
                        sample_plain_world).2 eq_refl) 7 eq_refl)
    as (r & Hr & _).
  rewrite Hr. reflexivity.
Defined.

(** X14. The two forwarders direct mode starts, when they take their
    first step after the handler has returned, find the session torn
    down: [forwardWSToTCP] returns at once, the context being cancelled,
    and [forwardTCPToWS] calls [Read] on the nil connection. *)
Theorem direct_mode_forwarders_after_return net data w msgs reads :
  let w' := (handleDirectRDP net data w).2 in
  forwardWSToTCP_loop net msgs w' = (LoopReturned, w')
  /\ forwardTCPToWS_loop reads w' = (LoopPanicked, w').
Proof.
  cbn zeta. rewrite handleDirectRDP_run, cleanupConnection_run. cbn [snd].
  split.
  - by apply forwardWSLoop_cancelled.
  - unfold forwardTCPToWS_loop. destruct reads; cbn [forwardLoop]; by run_simpl.
Qed.

(** ** The TCP connection bridge *)

Lemma wrap_int_small z : (- 2 ^ 63 <= z < 2 ^ 63)%Z -> wrap_int z = z.
Proof. intros Hz. unfold wrap_int. rewrite Z.mod_small; lia. Qed.

Lemma createConnection_cases dialTCP args b :
  let r := createConnection dialTCP args b in
  (r.2 = b /\ forall connID, r.1.1 <> Resolved connID)
  \/ (exists conn,
        let connID := "conn_" +:+ pretty (wrap_int (nextID b + 1)) in
        r.1.1 = Resolved connID
        /\ nextID r.2 = wrap_int (nextID b + 1)
        /\ connections r.2
           = <[connID := {| tc_id := connID; tc_conn := conn |}]> (connections b)).
Proof.
  cbn zeta. unfold createConnection.
  destruct args as [|a0 [|a1 rest]]; [by left..|].
  destruct (argInt a1) as [port|]; [|by left].
  destruct (dialTCP _) as [conn|]; [|by left].
  right. by exists conn.
Qed.

Lemma readLoop_state js tc steps b :
  nextID (readLoop js tc steps b).2 = nextID b
  /\ (connections (readLoop js tc steps b).2 = connections b
      \/ connections (readLoop js tc steps b).2
         = delete (tc_id tc) (connections b)).
Proof.
  induction steps as [|[| |ready] steps IH]; cbn [readLoop]; auto.
  destruct (readLoop js tc steps b) as [[r es] b']. by cbn.
Qed.

Lemma runBridge_ids ops : forall b,
  (0 <= nextID b)%Z ->
  (nextID b + Z.of_nat (length ops) < 2 ^ 63)%Z ->
  let r := runBridge ops b in
  let ids := resolved r.1 in
  ids = (fun k => "conn_" +:+ pretty (nextID b + Z.of_nat k)%Z)
          <$> seq 1 (length ids)
  /\ nextID r.2 = (nextID b + Z.of_nat (length ids))%Z
  /\ length ids <= length ops.
Proof.
  induction ops as [|op ops IH]; intros b H0 Hlt; cbn zeta.
  - cbn. split; [done|]. split; lia.
  - cbn [length] in Hlt. destruct op as [dialTCP args|js tc connID|js tc steps].
    + cbn [runBridge].
      pose proof (createConnection_cases dialTCP args b) as Hc. cbn zeta in Hc.
      destruct (createConnection dialTCP args b) as [[r es] b'].
      cbn [fst snd] in Hc.
      destruct Hc as [[-> Hr]|(conn & -> & Hn & Hm)].
      * specialize (IH b H0 ltac:(lia)). cbn zeta in IH.
        destruct (runBridge ops b) as [rs b'']. cbn [fst snd] in *.
        assert (Hres : resolved (r :: rs) = resolved rs).
        { destruct r; try done. by destruct (Hr connID). }
        rewrite Hres. destruct IH as (IH1 & IH2 & IH3).
        split; [done|]. split; [done|]. cbn [length]. lia.
      * rewrite wrap_int_small in Hn by lia.
        rewrite wrap_int_small by lia.
        specialize (IH b'). rewrite Hn in IH.
        specialize (IH ltac:(lia) ltac:(lia)). cbn zeta in IH.
        destruct (runBridge ops b') as [rs b'']. cbn [fst snd] in *.
        destruct IH as (IH1 & IH2 & IH3).
        change (resolved (Resolved ?i :: rs)) with (i :: resolved rs).
        cbn [length]. split; [|split; lia].
        cbn [seq]. rewrite fmap_cons.
        replace (nextID b + Z.of_nat 1)%Z with (nextID b + 1)%Z by lia.
        f_equal. rewrite IH1 at 1.
        rewrite <- (fmap_S_seq 1), <- list_fmap_compose.
        apply list_fmap_ext. intros _ k _. cbn [compose].
        do 2 f_equal. lia.
    + cbn [runBridge]. specialize (IH (handleClose js tc connID b).2).
      change (nextID (handleClose js tc connID b).2) with (nextID b) in IH.
      specialize (IH H0 ltac:(lia)). cbn zeta in IH.
      destruct IH as (IH1 & IH2 & IH3). cbn [length].
      split; [done|]. split; [done|]. lia.
    + cbn [runBridge]. specialize (IH (readLoop js tc steps b).2).
      rewrite (proj1 (readLoop_state js tc steps b)) in IH.
      specialize (IH H0 ltac:(lia)). cbn zeta in IH.
      destruct IH as (IH1 & IH2 & IH3). cbn [length].
      split; [done|]. split; [done|]. lia.
Qed.

Lemma runBridge_registry ops : forall b (known : list string),
  (forall id tc, connections b !! id = Some tc -> tc_id tc = id /\ id ∈ known) ->
  forall id tc,
    connections (runBridge ops b).2 !! id = Some tc ->
    tc_id tc = id /\ id ∈ (known ++ resolved (runBridge ops b).1)%list.
Proof.
  induction ops as [|op ops IH]; intros b known Hb id tc.
  - cbn. rewrite app_nil_r. apply Hb.
  - destruct op as [dialTCP args|js tc' connID|js tc' steps]; cbn [runBridge].
    + pose proof (createConnection_cases dialTCP args b) as Hc. cbn zeta in Hc.
      destruct (createConnection dialTCP args b) as [[r es] b'].
      cbn [fst snd] in Hc.
      destruct Hc as [[-> Hr]|(conn & -> & Hn & Hm)].
      * specialize (IH b known Hb id tc).
        destruct (runBridge ops b) as [rs b'']. cbn [fst snd] in *.
        assert (Hres : resolved (r :: rs) = resolved rs).
        { destruct r; try done. by destruct (Hr connID). }
        by rewrite Hres.
      * set (new := "conn_" +:+ pretty (wrap_int (nextID b + 1))) in *.
        specialize (IH b' (known ++ [new])%list).
        destruct (runBridge ops b') as [rs b'']. cbn [fst snd] in *.
        change (resolved (Resolved new :: rs)) with (new :: resolved rs).
        rewrite <- app_assoc in IH. apply IH.
        intros id' tc'. rewrite Hm. intros Hl.
        apply lookup_insert_Some in Hl as [[<- <-]|[Hne Hl]].
        -- split; [done|]. apply elem_of_app. right. apply list_elem_of_here.
        -- destruct (Hb id' tc' Hl). split; [done|]. apply elem_of_app. by left.
    + apply IH. intros id' tc0. cbn [handleClose snd connections].
      intros Hl. apply lookup_delete_Some in Hl as [_ Hl]. by apply Hb.
    + apply IH. intros id' tc0 Hl.
      destruct (proj2 (readLoop_state js tc' steps b)) as [E|E];
        rewrite E in Hl; [by apply Hb|].
      apply lookup_delete_Some in Hl as [_ Hl]. by apply Hb.
Qed.

(** X15. In any run of the bridge from its creation (connections
    created, closed and lost to read errors in any order), the i-th
    connection that is established gets the id [conn_i]: ids are
    pairwise distinct and never reused after a close, [nextID] counts
    the connections established, and every entry of [connections] is
    filed under its own id, one that the run resolved. *)
Theorem bridge_ids_never_reused ops :
  (Z.of_nat (length ops) < 2 ^ 63)%Z ->
  let r := runBridge ops NewTCPConnectionBridge in
  let ids := resolved r.1 in
  ids = (fun k => "conn_" +:+ pretty (Z.of_nat k)) <$> seq 1 (length ids)
  /\ NoDup ids
  /\ nextID r.2 = Z.of_nat (length ids)
  /\ forall id tc,
       connections r.2 !! id = Some tc -> tc_id tc = id /\ id ∈ ids.
Proof.
  intros Hlen. cbn zeta.
  destruct (runBridge_ids ops NewTCPConnectionBridge) as (H1 & H2 & _);
    [done|by cbn|].
  cbn [NewTCPConnectionBridge nextID] in H1, H2. cbn zeta in H1, H2.
  split; [exact H1|]. split; [|split; [by rewrite H2|]].
  - rewrite H1. apply NoDup_fmap_2; [|apply NoDup_seq].
    intros j k Hjk. apply (inj (String.app _)) in Hjk.
    apply (inj pretty) in Hjk. lia.
  - intros id tc Hl.
    apply (runBridge_registry ops NewTCPConnectionBridge [] ) in Hl; [done|].
    intros id' tc'. cbn. by rewrite lookup_empty.
Qed.

Lemma bridge_ids_never_reused_witness :
  resolved (runBridge sample_ops NewTCPConnectionBridge).1 = ["conn_1"; "conn_2"]
  /\ NoDup (resolved (runBridge sample_ops NewTCPConnectionBridge).1).
Proof.
  destruct (bridge_ids_never_reused sample_ops) as (_ & H2 & _).
  - vm_compute. reflexivity.
  - split; [vm_compute; reflexivity|exact H2].
Defined.

Lemma readLoop_data js tc readys steps b :
  readLoop js tc ((ReadData <$> readys) ++ steps) b
  = let r := readLoop js tc steps b in
    (r.1.1,
     ((if ondata js then BrOnData (tc_id tc) <$> buffered readys else [])
      ++ r.1.2)%list,
     r.2).
Proof.
  induction readys as [|ready readys IH].
  - cbn. destruct (readLoop js tc steps b) as [[r es] b'].
    by destruct (ondata js).
  - rewrite fmap_cons. cbn [app readLoop]. rewrite IH. cbn zeta.
    destruct (readLoop js tc steps b) as [[r es] b']. cbn [fst snd].
    rewrite buffered_cons. f_equal. f_equal.
    destruct (0 <? length (take bufferSize ready)), (ondata js); try done.
Qed.

(** X16. [readLoop] on a script of iterations: the successful reads
    before the loop ends are handed to [ondata] in order, each cut to
    the buffer and skipped when empty, when [ondata] is set.  A read
    error then calls [onclose] when it is set, cancels and closes the
    connection and removes its entry, leaving [nextID] alone; a
    cancelled context ends the loop without any of this; while reads
    succeed the loop goes on. *)
Theorem readLoop_delivers js tc readys rest b :
  let data :=
    if ondata js then BrOnData (tc_id tc) <$> buffered readys else [] in
  readLoop js tc ((ReadData <$> readys) ++ ReadError :: rest) b
  = (LoopReturned,
     (data ++ (if onclose js then [BrOnClose (tc_id tc)] else [])
      ++ [BrCancel (tc_id tc); BrClose (tc_conn tc)])%list,
     {| connections := delete (tc_id tc) (connections b); nextID := nextID b |})
  /\ readLoop js tc ((ReadData <$> readys) ++ Cancelled :: rest) b
     = (LoopReturned, data, b)
  /\ readLoop js tc (ReadData <$> readys) b = (LoopBlocked, data, b)
  /\ Forall (fun chunk => 0 < length chunk <= bufferSize) (buffered readys)
  /\ (Forall (fun ready => length ready <= bufferSize) readys ->
      mjoin (buffered readys) = mjoin readys).
Proof.
  cbn zeta. split; [|split; [|split; [|split]]].
  - by rewrite readLoop_data.
  - rewrite readLoop_data. cbn [readLoop fst snd]. by rewrite app_nil_r.
  - rewrite <- (app_nil_r (ReadData <$> readys)), readLoop_data.
    cbn [readLoop fst snd]. by rewrite app_nil_r.
  - apply buffered_bounds.
  - apply buffered_join.
Qed.

(** ** Length-prefixed messages *)

Lemma be_enc_dec bs : be_enc (length bs) (be_dec bs) = bs.
Proof.
  induction bs as [|b bs IH] using rev_ind; [done|].
  rewrite length_app, Nat.add_comm. cbn [length Nat.add be_enc].
  rewrite be_dec_snoc. pose proof (Byte.to_N_bounded b).
  replace ((be_dec bs * 256 + Byte.to_N b) / 256)%N with (be_dec bs).
  - rewrite IH. f_equal. f_equal.
    rewrite <- (byte_of_N_to_N b) at 2. unfold byte_of_N.
    replace ((be_dec bs * 256 + Byte.to_N b) mod 256)%N
      with (Byte.to_N b mod 256)%N; [done|].
    rewrite N.add_comm, N.Div0.mod_add. done.
  - rewrite N.add_comm, N.div_add by lia. rewrite N.div_small by lia. done.
Qed.

Lemma ReadFull_inr n input data rest :
  ReadFull n input = inr (data, rest) <->
  length data = n /\ input = (data ++ rest)%list.
Proof.
  unfold ReadFull. destruct (Nat.leb_spec n (length input)) as [Hle|Hlt].
  - split.
    + intros [= <- <-]. rewrite length_take, take_drop. split; [lia|done].
    + intros [<- ->]. by rewrite take_app_length, drop_app_length.
  - split.
    + by destruct (length input =? 0).
    + intros [<- ->]. rewrite length_app in Hlt. lia.
Qed.

(** X17. [readLengthPrefixed] returns a message and the rest of the
    input exactly when the input is the message under its 4-byte
    big-endian length followed by the rest, and the message has at most
    1 MiB.  A larger declared length is refused whatever follows, and an
    input shorter than the prefix is an error. *)
Theorem readLengthPrefixed_frames input data rest :
  (readLengthPrefixed input = inr (data, rest) <->
   (N.of_nat (length data) <= 1024 * 1024)%N
   /\ input = (lengthPrefixed data ++ rest)%list)
  /\ (forall n body,
        (1024 * 1024 < n < 2 ^ 32)%N ->
        readLengthPrefixed (be_enc 4 n ++ body) = inl (MessageTooLarge n))
  /\ (length input < 4 -> exists e, readLengthPrefixed input = inl e).
Proof.
  split; [|split].
  - unfold readLengthPrefixed, lengthPrefixed. split.
    + destruct (ReadFull 4 input) as [e|[header rest1]] eqn:Hh; [done|].
      apply ReadFull_inr in Hh as [Hlen ->].
      destruct (N.ltb_spec (1024 * 1024) (be_dec header)) as [Hbig|Hok]; [done|].
      intros Hd. apply ReadFull_inr in Hd as [Hld ->].
      rewrite Hld, N2Nat.id. split; [done|].
      rewrite <- Hlen, be_enc_dec. by rewrite app_assoc.
    + intros [Hle ->]. rewrite <- app_assoc.
      assert (Hh : ReadFull 4 (be_enc 4 (N.of_nat (length data)) ++ data ++ rest)
                   = inr (be_enc 4 (N.of_nat (length data)), (data ++ rest)%list)).
      { apply ReadFull_inr. by rewrite be_enc_length. }
      rewrite Hh. rewrite be_dec_enc by (cbn; lia).
      destruct (N.ltb_spec (1024 * 1024) (N.of_nat (length data))); [lia|].
      apply ReadFull_inr. by rewrite Nat2N.id.
  - intros n body Hn. unfold readLengthPrefixed.
    assert (Hh : ReadFull 4 (be_enc 4 n ++ body) = inr (be_enc 4 n, body)).
    { apply ReadFull_inr. by rewrite be_enc_length. }
    rewrite Hh, be_dec_enc by (cbn; lia).
    destruct (N.ltb_spec (1024 * 1024) n); [done|lia].
  - intros Hlt. unfold readLengthPrefixed, ReadFull.
    destruct (Nat.leb_spec 4 (length input)); [lia|].
    destruct (length input =? 0); eauto.
Qed.

(** ** Direct mode and its forwarders *)

Lemma forwardLoop_nil handle reads w :
  handle (session w) = None -> forwardLoop handle reads w = (LoopPanicked, w).
Proof.
  intros Hc. destruct reads; cbn [forwardLoop]; run_simpl; by rewrite Hc.
Qed.

(** C5 (the code at the failing input).  The first message of the sample
    session is a raw X.224 connection request: it does not decode and
    begins with 0x03, and the remote accepts the connection and answers.
    The handler dials, writes the message, relays the first response,
    starts the two forwarders and sends no PDU; but it returns at once
    and its deferred cleanup closes the connection and tears the
    session down.  No forwarding follows: from
    the state the handler leaves, [forwardWSToTCP] returns on any input
    without a write, [forwardTCPToWS] calls [Read] on the nil
    connection, and the next raw message from the boundary is not
    written to the connection but starts direct mode again, with a
    second dial. *)
Theorem direct_mode_tears_down_at_once :
  let r := handleWebSocketMessage sample_remote
             (JsUint8Array sample_x224_request) sample_world in
  Unmarshal sample_x224_request = Err MalformedPDU
  /\ head sample_x224_request = Some Byte.x03
  /\ r.1 = Returned
  /\ trace r.2
     = [EvDial "tcp" "host:3389"; EvWrite 7 sample_x224_request;
        EvRead 7 1024; EvWsCall "receiveFromGo" sample_x224_confirm;
        EvGo forwardWSToTCP; EvGo forwardTCPToWS; EvCancel; EvClose 7]
  /\ torn_down r.2
  /\ rdpConn (session r.2) = None
  /\ (forall msgs,
        forwardWSToTCP_loop sample_remote msgs r.2 = (LoopReturned, r.2))
  /\ (forall reads, forwardTCPToWS_loop reads r.2 = (LoopPanicked, r.2))
  /\ (let r' := handleWebSocketMessage sample_remote
                  (JsUint8Array sample_x224_confirm) r.2 in
      dialed (trace r'.2) = ["host:3389"; "host:3389"]
      /\ written (trace r'.2) = [sample_x224_request; sample_x224_confirm]
      /\ closed (trace r'.2) = [7; 7]).
Proof.
  cbn zeta.
  split; [vm_compute; reflexivity|]. split; [reflexivity|].
  split; [vm_compute; reflexivity|]. split; [vm_compute; reflexivity|].
  split; [split; vm_compute; reflexivity|].
  split; [vm_compute; reflexivity|].
  split.
  { intros msgs. apply forwardWSLoop_cancelled. vm_compute. reflexivity. }
  split.
  { intros reads. apply forwardLoop_nil. vm_compute. reflexivity. }
  vm_compute. repeat split; reflexivity.
Qed.
